(** * generate_translations: the translation catalog pipeline

    A shallow embedding of [ui/src/translations/generate_translations.py]
    and the properties of its change detection, merge and serialization.

    Representation choices.
    - A Python [str] is represented by the [string] of its UTF-8 bytes.
      Every string operation the script performs ([split] and [startswith]
      on ASCII separators, slicing off an ASCII prefix, equality, emptiness,
      ordering) gives the same answer on code points and on UTF-8 bytes.
    - A Python [dict] is an association list in insertion order with no
      repeated key.  [d[k] = v] overwrites in place when [k] is present and
      appends otherwise; iteration follows the list.
    - A catalog value is either a leaf string or a nested mapping, the two
      shapes the script tells apart with [isinstance(v, dict)].
    - An uncaught Python exception is [None]; a call of [main] that raises
      yields a record of what it had done by then: the requests sent, the
      lines printed, the state of the service and what became of the
      target file.
    - The translation service, the repository and the files are parameters
      of the run; the requests sent to the service and the lines printed
      are collected in a trace.  Writing the target file can fail, before
      or after the file has been truncated.
    - The encoder of [json.dump] is library code; the text it writes is
      modelled from its description in the specification. *)

From Stdlib Require Import List String Ascii Bool Arith Lia Permutation Sorted.
From Stdlib Require Import OrderedTypeEx.
Import ListNotations.
Open Scope string_scope.
Open Scope list_scope.

Set Implicit Arguments.

(** ** Python dictionaries *)

Abbreviation dict V := (list (string * V)).

Section Dict.
Variable V : Type.

(** [d.get(k)]: [None] when [k not in d], which is where [d[k]] raises. *)
Fixpoint dict_get (d : dict V) (k : string) : option V :=
  match d with
  | [] => None
  | (k', v) :: rest => if k' =? k then Some v else dict_get rest k
  end.

(** [k in d] *)
Definition dict_in (k : string) (d : dict V) : bool :=
  match dict_get d k with Some _ => true | None => false end.

(** [d[k] = v] *)
Fixpoint dict_set (d : dict V) (k : string) (v : V) : dict V :=
  match d with
  | [] => [(k, v)]
  | (k', v') :: rest =>
      if k' =? k then (k', v) :: rest else (k', v') :: dict_set rest k v
  end.

(** [d.update(other)] *)
Definition dict_update (d other : dict V) : dict V :=
  fold_left (fun acc kv => dict_set acc (fst kv) (snd kv)) other d.

(** [dict(items)] *)
Definition dict_of_items (items : list (string * V)) : dict V :=
  dict_update [] items.

Definition dict_keys (d : dict V) : list string := map fst d.

(** The representation invariant of a dictionary. *)
Definition dict_wf (d : dict V) : Prop := NoDup (dict_keys d).
End Dict.

(** ** Catalogs *)

#[warnings="-register-all"]
Inductive value : Type :=
| Str (s : string)
| Dict (items : list (string * value)).

(** Truthiness of a leaf: [bool(s)] for a [str]. *)
Definition truthy (s : string) : bool := negb (s =? "").

(** ** Strings *)

(** [s.split(sep)] for a one-character separator. The result is never empty. *)
Fixpoint split (s : string) (sep : ascii) : list string :=
  match s with
  | EmptyString => [""]
  | String c rest =>
      if Ascii.eqb c sep then "" :: split rest sep
      else match split rest sep with
           | [] => [String c ""]
           | h :: t => String c h :: t
           end
  end.

(** [s[n:]] *)
Fixpoint string_drop (n : nat) (s : string) : string :=
  match n, s with
  | O, _ => s
  | S n', String _ rest => string_drop n' rest
  | S _, EmptyString => ""
  end.

(** ** Path codec *)

(** [f"{parent_key}{sep}{k}" if parent_key else k] *)
Definition new_key (parent_key : string) (sep : ascii) (k : string) : string :=
  if truthy parent_key then parent_key ++ String sep k else k.

(** The items one entry [(k, v)] adds in the loop of [flatten_dict],
    [new_key] being the path already computed for it: the items of the
    recursive call when [v] is a mapping, the single pair otherwise. *)
Fixpoint flatten_entry (v : value) (new_key' : string) (sep : ascii)
  : list (string * string) :=
  match v with
  | Dict d =>
      dict_of_items
        (flat_map (fun kv => flatten_entry (snd kv) (new_key new_key' sep (fst kv)) sep) d)
  | Str s => [(new_key', s)]
  end.

(** [flatten_dict(d, parent_key, sep)]: the items of the entries, in
    order, made into a dictionary. *)
Definition flatten_dict (d : dict value) (parent_key : string) (sep : ascii)
  : dict string :=
  dict_of_items
    (flat_map (fun kv => flatten_entry (snd kv) (new_key parent_key sep (fst kv)) sep) d).

(** One iteration of [unflatten_dict]: walk [keys[:-1]] with [setdefault]
    and assign [keys[-1]].  The nested dictionaries are shared with [result]
    in the source, so the walk rebuilds the spine in place.  Walking into a
    leaf raises ([str] has neither [setdefault] nor item assignment). *)
Fixpoint set_path (current : dict value) (keys : list string) (v : string)
  : option (dict value) :=
  match keys with
  | [] => None
  | [last] => Some (dict_set current last (Str v))
  | key :: rest =>
      match dict_get current key with
      | None =>
          option_map (fun sub => dict_set current key (Dict sub)) (set_path [] rest v)
      | Some (Dict sub) =>
          option_map (fun sub' => dict_set current key (Dict sub')) (set_path sub rest v)
      | Some (Str _) => None
      end
  end.

(** The body of the loop of [unflatten_dict]; once an iteration has raised
    there is no result. *)
Definition unflatten_step (sep : ascii) (result : option (dict value))
  (kv : string * string) : option (dict value) :=
  match result with
  | None => None
  | Some r => set_path r (split (fst kv) sep) (snd kv)
  end.

(** [unflatten_dict(d, sep)], [None] when an iteration raises. *)
Definition unflatten_dict (d : dict string) (sep : ascii) : option (dict value) :=
  fold_left (unflatten_step sep) d (Some []).

(** The separator every call site uses (the default [sep="|"]). *)
Definition bar : ascii := "|"%char.

(** ** JSON output

    Line 189 calls [json.dump(..., ensure_ascii=False, indent=2,
    sort_keys=True)].  The encoder is library code: only the call and its
    arguments are in the source.  The text it writes is modelled here as
    the specification describes it (keys sorted at every level, two-space
    indentation, non-ASCII characters written literally), with the syntax
    of JSON for the rest: strings between quotes, the quote, the backslash
    and the control characters below 0x20 escaped, items separated by a
    comma and a line break, a colon and a space between a key and its
    value. *)

Definition hex_digit (n : nat) : ascii :=
  if (n <? 10)%nat then ascii_of_nat (48 + n) else ascii_of_nat (87 + n).

Definition quote : ascii := "034"%char.
Definition backslash : ascii := "092"%char.
Definition newline : ascii := "010"%char.

(** Modelled from the spec: the encoder of [json.dump] is missing from the
    source.  What a character of a string is written as: with
    [ensure_ascii=False] every byte from 0x20 on, so every non-ASCII
    character, is copied, except the quote and the backslash. *)
Definition escape_char (c : ascii) : string :=
  let n := nat_of_ascii c in
  (if n =? 34 then String backslash (String quote "")
   else if n =? 92 then String backslash (String backslash "")
   else if n =? 8 then String backslash "b"
   else if n =? 12 then String backslash "f"
   else if n =? 10 then String backslash "n"
   else if n =? 13 then String backslash "r"
   else if n =? 9 then String backslash "t"
   else if n <? 32 then
     String backslash
       (String "u" (String "0" (String "0"
          (String (hex_digit (n / 16)) (String (hex_digit (n mod 16)) "")))))
   else String c "")%nat.

(** Modelled from the spec: the encoder of [json.dump] is missing from the
    source.  The characters of a string, each written by [escape_char]. *)
Fixpoint escape (s : string) : string :=
  match s with
  | EmptyString => ""
  | String c rest => escape_char c ++ escape rest
  end.

(** Modelled from the spec: the encoder of [json.dump] is missing from the
    source.  A string between quotes. *)
Definition encode_basestring (s : string) : string :=
  String quote (escape s ++ String quote "").

(** Modelled from the spec: the encoder of [json.dump] is missing from the
    source.  With [sort_keys=True] the items of a mapping are written in
    the order of their keys, which are pairwise distinct. *)
Fixpoint insert_sorted (V : Type) (kv : string * V) (l : list (string * V))
  : list (string * V) :=
  match l with
  | [] => [kv]
  | kv' :: rest =>
      if String.leb (fst kv) (fst kv') then kv :: l
      else kv' :: insert_sorted kv rest
  end.

(** Modelled from the spec: the encoder of [json.dump] is missing from the
    source.  The items of a mapping in the order of their keys. *)
Definition sorted_items (V : Type) (l : list (string * V)) : list (string * V) :=
  fold_right (@insert_sorted V) [] l.

Fixpoint spaces (n : nat) : string :=
  match n with O => "" | S n' => String " " (spaces n') end.

(** Modelled from the spec: the encoder of [json.dump] is missing from the
    source.  The text of a non-empty object at nesting depth [level], with
    [indent=2], from its items in the order they are written, each value
    already rendered. *)
Definition encode_object (level : nat) (items : list (string * string)) : string :=
  let newline_indent := String newline (spaces (2 * S level)) in
  let item_separator := String "," newline_indent in
  ("{" ++ newline_indent
     ++ concat item_separator
          (map (fun kr => encode_basestring (fst kr) ++ ": " ++ snd kr) items)
     ++ String newline (spaces (2 * level)) ++ "}")%string.

(** Modelled from the spec: the encoder of [json.dump] is missing from the
    source.  The items of a mapping with their values rendered one level
    deeper. *)
Definition render (iterencode : value -> nat -> string) (level : nat) (d : dict value)
  : list (string * string) :=
  map (fun kv => (fst kv, iterencode (snd kv) (S level))) d.

(** Modelled from the spec: the encoder of [json.dump] is missing from the
    source.  The text of a catalog at nesting depth [level]: the children
    are rendered first and the rendered items are put in key order. *)
Fixpoint iterencode (v : value) (level : nat) : string :=
  match v with
  | Str s => encode_basestring s
  | Dict [] => "{}"
  | Dict d => encode_object level (sorted_items (render iterencode level d))
  end.

(** Modelled from the spec: the encoder of [json.dump] is missing from the
    source.  The text written for a document, with the arguments of
    line 189. *)
Definition json_dumps (obj : value) : string := iterencode obj 0.

(** Python's [==] on catalogs: dictionaries are compared regardless of
    insertion order. *)
Fixpoint value_eqb (a b : value) : bool :=
  match a, b with
  | Str s, Str t => s =? t
  | Dict d, Dict e =>
      (List.length d =? List.length e)%nat
      && forallb (fun kv => match dict_get e (fst kv) with
                            | Some w => value_eqb (snd kv) w
                            | None => false
                            end) d
  | _, _ => false
  end.

(** ** Change detection *)

(** A Python [set] of strings, represented by its elements, each once.
    The order of the list is not the order in which the set is iterated,
    which is left to [set_iter] below. *)
Definition set_of_list (l : list string) : list string := nodup string_dec l.

Definition option_eqb (a b : option string) : bool :=
  match a, b with
  | Some x, Some y => x =? y
  | None, None => true
  | _, _ => false
  end.

(** [detect_changes(current_dict, previous_dict)].  In the branch that
    compares [current_flat[key]] with [previous_flat[key]] both lookups
    succeed, so comparing the lookups compares the values. *)
Definition detect_changes (current_dict previous_dict : dict value) : list string :=
  let current_flat := flatten_dict current_dict "" bar in
  let previous_flat := flatten_dict previous_dict "" bar in
  let '(added_keys, changed_keys) :=
    fold_left
      (fun (acc : list string * list string) key =>
         if negb (dict_in key previous_flat) then (fst acc ++ [key], snd acc)
         else if negb (option_eqb (dict_get current_flat key) (dict_get previous_flat key))
              then (fst acc, snd acc ++ [key])
              else acc)
      (dict_keys current_flat) ([], []) in
  set_of_list (added_keys ++ changed_keys).

(** [{k[len(prefix):]: v for k, v in dictionary.items() if k.startswith(prefix)}] *)
Definition remove_en_prefix (dictionary : dict string) (prefix : string) : dict string :=
  dict_of_items
    (map (fun kv => (string_drop (String.length prefix) (fst kv), snd kv))
       (filter (fun kv => String.prefix prefix (fst kv)) dictionary)).

(** ** The outside world *)

(** A revision of the repository.  [blob_json path] is the value of the
    [try] block of [load_en_changes_from_last_commits] at this revision:
    the JSON value decoded from the blob at [path], or [None] when looking
    the path up in the tree, reading the blob or decoding it raises. *)
Record commit : Type := { blob_json : string -> option value }.

Record repository : Type := {
  (** [repo.git.fetch("--all")] returns ([true]) or raises ([false]). *)
  fetch_all : bool;
  (** [repo.iter_commits(paths=path)]: the revisions that modified the
      path, most recent first, or [None] when listing them raises. *)
  iter_commits : string -> option (list commit)
}.

(** What [open(path, "w")] followed by [json.dump] into the file does
    (lines 188-189). *)
Inductive write_result : Type :=
| Written
    (** the text is in the file *)
| Open_raises
    (** [open] raises: the file is as it was *)
| Dump_raises (partial : string).
    (** the file was truncated by [open] and [json.dump] raised, for
        instance on a character the encoding of the file does not have; the
        file is left holding [partial] *)

Record environment : Type := {
  (** [git.Repo(".")], [None] when it raises *)
  repo : option repository;
  (** [json.load] of the file at a path, [None] when opening or decoding raises *)
  json_file : string -> option value;
  (** what writing a text to the file at a path comes to *)
  write : string -> string -> write_result
}.

(** [v.items()] raises unless [v] is a dictionary. *)
Definition items_of (v : value) : option (dict value) :=
  match v with Dict d => Some d | Str _ => None end.

(** [load_en_changes_from_last_commits(input_file)]: opening the
    repository, fetching and listing the revisions are outside the [try]
    block and raise to the caller; [max_count=2] keeps the two most recent
    revisions. *)
Definition load_en_changes_from_last_commits (env : environment) (input_file : string)
  : option value :=
  match repo env with
  | None => None
  | Some r =>
      if fetch_all r then
        match iter_commits r input_file with
        | None => None
        | Some history =>
            match firstn 2 history with
            | _ :: previous_commit :: _ =>
                match blob_json previous_commit input_file with
                | Some previous_version => Some previous_version
                | None => Some (Dict [])
                end
            | _ => Some (Dict [])
            end
        end
      else None
  end.

Definition load_en_dict (env : environment) (file_path : string) : option value :=
  json_file env file_path.

(** What the script prints. *)
Inductive line : Type :=
| Error_during_translation (e : string)
| Skipping_re_translation (k : string)
| Translating (k v target_language new_translation : string).

(** What a run does that can be observed from outside: the requests it
    sends to the translation service, each with what came of it (the
    content returned or the exception raised), and the lines it prints. *)
Inductive event : Type :=
| Request (text target_language : string) (answer : string + string)
| Printed (l : line).

Fixpoint option_traverse (A B : Type) (f : A -> option B) (l : list A)
  : option (list B) :=
  match l with
  | [] => Some []
  | x :: rest =>
      match f x, option_traverse f rest with
      | Some y, Some ys => Some (y :: ys)
      | _, _ => None
      end
  end.

Section Pipeline.
(** The translation service: [chat text target_language w] is the value
    of the [try] block of [translate_text] when the service is in state
    [w], either the stripped content of the first choice or the exception
    raised, together with the next state of the service. *)
Variable World : Type.
Variable chat : string -> string -> World -> (string + string) * World.

(** The order in which a [set] built from a list is iterated. *)
Variable set_iter : list string -> list string.

Record run : Type := {
  translated_flat_dict : dict string;
  trace : list event;
  world : World
}.

(** [translate_text(text, target_language)]: what it returns, what it
    emits, and the next state of the service. *)
Definition translate_text (text target_language : string) (w : World)
  : string * list event * World :=
  match chat text target_language w with
  | (inl content, w') => (content, [Request text target_language (inl content)], w')
  | (inr e, w') =>
      (text,
       [Request text target_language (inr e); Printed (Error_during_translation e)],
       w')
  end.

(** [get_keys_to_translate(file_path)]: [detect_changes] flattens both
    documents and raises on one that is not a dictionary; the result is
    filled in the iteration order of the set of changed keys. *)
Definition get_keys_to_translate (env : environment) (file_path : string)
  : option (dict string) :=
  match load_en_dict env file_path with
  | None => None
  | Some current_en_dict =>
      match load_en_changes_from_last_commits env file_path with
      | None => None
      | Some previous_en_dict =>
          match items_of current_en_dict, items_of previous_en_dict with
          | Some current, Some previous =>
              let keys_to_translate := detect_changes current previous in
              let en_flat := flatten_dict current "" bar in
              option_map (@dict_of_items string)
                (option_traverse
                   (fun k => option_map (pair k) (dict_get en_flat k))
                   (set_iter keys_to_translate))
          | _, _ => None
          end
      end
  end.

(** [k in target_flat and target_flat[k]] *)
Definition already_translated (target_flat : dict string) (k : string) : bool :=
  match dict_get target_flat k with
  | Some s => truthy s
  | None => false
  end.

(** The body of the [for k, v in to_translate.items()] loop of [main]. *)
Definition main_loop_body (target_flat : dict string) (target_language : string)
  (st : run) (kv : string * string) : run :=
  let k := fst kv in
  let v := snd kv in
  if already_translated target_flat k then
    {| translated_flat_dict := translated_flat_dict st;
       trace := trace st ++ [Printed (Skipping_re_translation k)];
       world := world st |}
  else
    let '(new_translation, emitted, w') := translate_text v target_language (world st) in
    {| translated_flat_dict := dict_set (translated_flat_dict st) k new_translation;
       trace := trace st ++ emitted
                ++ [Printed (Translating k v target_language new_translation)];
       world := w' |}.

(** [translated_flat_dict = {}] followed by the loop. *)
Definition main_loop (target_flat : dict string) (target_language : string)
  (to_translate : dict string) (w : World) : run :=
  fold_left (main_loop_body target_flat target_language) to_translate
    {| translated_flat_dict := []; trace := []; world := w |}.

Definition target_path (language_code : string) : string :=
  ("ui/src/translations/" ++ language_code ++ ".json")%string.

(** The result of a call of [main] that returns: what it wrote to the
    target file, its requests and printed lines, and the state of the
    service. *)
Record outcome : Type := {
  written : string;
  events : list event;
  service : World
}.

(** How far a call of [main] that raises had got: the requests it had sent
    and the lines it had printed, the state of the service, and what had
    become of the target file, [None] when it is as it was, [Some text]
    when it was truncated and holds [text]. *)
Record failure : Type := {
  events_before : list event;
  service_before : World;
  target_after : option string
}.

(** [main(language_code, target_language, input_file)].  Reading the
    target file, indexing it with the language code, computing the keys to
    translate and flattening a target that is not a dictionary raise before
    the loop; unflattening the merged catalog raises after the loop and
    before the target file is opened; opening the target file for writing
    and dumping into it raise last. *)
Definition main (env : environment) (w : World)
  (language_code target_language input_file : string) : outcome + failure :=
  let before_the_loop :=
    inr {| events_before := []; service_before := w; target_after := None |} in
  match json_file env (target_path language_code) with
  | None => before_the_loop
  | Some document =>
      match items_of document with
      | None => before_the_loop
      | Some root =>
          match dict_get root language_code with
          | None => before_the_loop
          | Some target_dict =>
              match get_keys_to_translate env input_file with
              | None => before_the_loop
              | Some changed =>
                  let to_translate := remove_en_prefix changed "en|" in
                  match items_of target_dict with
                  | None => before_the_loop
                  | Some target =>
                      let target_flat := flatten_dict target "" bar in
                      let st := main_loop target_flat target_language to_translate w in
                      let target_flat' := dict_update target_flat (translated_flat_dict st) in
                      let after_the_loop := fun target =>
                        inr {| events_before := trace st;
                               service_before := world st;
                               target_after := target |} in
                      match unflatten_dict target_flat' bar with
                      | None => after_the_loop None
                      | Some updated_target_dict =>
                          let text :=
                            json_dumps (Dict [(language_code, Dict updated_target_dict)]) in
                          match write env (target_path language_code) text with
                          | Written =>
                              inl {| written := text;
                                     events := trace st;
                                     service := world st |}
                          | Open_raises => after_the_loop None
                          | Dump_raises partial => after_the_loop (Some partial)
                          end
                      end
                  end
              end
          end
      end
  end.
End Pipeline.

(** ** Shapes of catalogs *)

(** Induction on catalogs, with the hypothesis for every entry of a mapping. *)
Fixpoint value_ind' (P : value -> Prop)
  (HStr : forall s, P (Str s))
  (HDict : forall d, Forall (fun kv => P (snd kv)) d -> P (Dict d))
  (v : value) : P v :=
  match v with
  | Str s => HStr s
  | Dict d =>
      HDict d
        ((fix entries (l : list (string * value)) : Forall (fun kv => P (snd kv)) l :=
            match l with
            | [] => Forall_nil _
            | kv :: rest =>
                @Forall_cons _ _ kv rest (value_ind' P HStr HDict (snd kv)) (entries rest)
            end) d)
  end.

Fixpoint distinct (l : list string) : bool :=
  match l with
  | [] => true
  | x :: rest => negb (existsb (String.eqb x) rest) && distinct rest
  end.

(** The dictionary invariant at every level of a catalog. *)
Fixpoint unique_keys (v : value) : bool :=
  match v with
  | Str _ => true
  | Dict d => distinct (map fst d) && forallb (fun kv => unique_keys (snd kv)) d
  end.

Fixpoint has_char (c : ascii) (s : string) : bool :=
  match s with
  | EmptyString => false
  | String c' rest => Ascii.eqb c' c || has_char c rest
  end.

(** No key segment, at any level, contains the separator. *)
Fixpoint sep_free (sep : ascii) (v : value) : bool :=
  match v with
  | Str _ => true
  | Dict d => forallb (fun kv => negb (has_char sep (fst kv)) && sep_free sep (snd kv)) d
  end.

Definition is_empty_dict (v : value) : bool :=
  match v with Dict [] => true | _ => false end.

(** No key, at any level, holds an empty mapping. *)
Fixpoint no_empty_dict (v : value) : bool :=
  match v with
  | Str _ => true
  | Dict d => forallb (fun kv => negb (is_empty_dict (snd kv)) && no_empty_dict (snd kv)) d
  end.

(** The empty key, if the root has it, does not hold a mapping. *)
Definition root_ok (d : dict value) : bool :=
  match dict_get d "" with
  | Some (Dict _) => false
  | _ => true
  end.

(** A catalog without the subtrees that hold no leaf: [None] for a mapping
    all of whose entries are pruned away. *)
Fixpoint prune (v : value) : option value :=
  match v with
  | Str s => Some (Str s)
  | Dict d =>
      match flat_map (fun kv => match prune (snd kv) with
                                | Some v' => [(fst kv, v')]
                                | None => []
                                end) d with
      | [] => None
      | d' => Some (Dict d')
      end
  end.

Definition prune_entry (kv : string * value) : list (string * value) :=
  match prune (snd kv) with
  | Some v' => [(fst kv, v')]
  | None => []
  end.

Definition prune_dict (d : dict value) : dict value := flat_map prune_entry d.

(** The leaves of a catalog in traversal order, each with the key segments
    that lead to it. *)
Fixpoint leaves (v : value) : list (list string * string) :=
  match v with
  | Str s => [([], s)]
  | Dict d =>
      flat_map (fun kv => map (fun ps => (fst kv :: fst ps, snd ps)) (leaves (snd kv))) d
  end.

(** [sep + sep.join(segs)] for a non-empty [segs], the empty string otherwise *)
Fixpoint path_suffix (sep : ascii) (segs : list string) : string :=
  match segs with
  | [] => ""
  | s :: rest => String sep (s ++ path_suffix sep rest)
  end.

(** [sep.join(segs)] *)
Definition join (sep : ascii) (segs : list string) : string :=
  match segs with
  | [] => ""
  | s :: rest => s ++ path_suffix sep rest
  end.

(** The loop of [unflatten_dict] on keys that are already split. *)
Definition set_paths (result : option (dict value)) (ps : list (list string * string))
  : option (dict value) :=
  fold_left (fun r p => match r with
                        | None => None
                        | Some r' => set_path r' (fst p) (snd p)
                        end) ps result.

(** The catalogs on which [flatten_dict] and [unflatten_dict] undo each
    other, up to leafless subtrees. *)
Definition codec_ok (sep : ascii) (r : dict value) : Prop :=
  unique_keys (Dict r) = true /\ sep_free sep (Dict r) = true /\ root_ok r = true.

(** The leaf a catalog holds at the end of a path of key segments. *)
Fixpoint leaf_at (v : value) (p : list string) : option string :=
  match p with
  | [] => match v with Str s => Some s | Dict _ => None end
  | k :: q =>
      match v with
      | Str _ => None
      | Dict d =>
          match dict_get d k with
          | Some v' => leaf_at v' q
          | None => None
          end
      end
  end.

Fixpoint is_prefix (p q : list string) : bool :=
  match p, q with
  | [], _ => true
  | x :: p', y :: q' => (x =? y) && is_prefix p' q'
  | _ :: _, [] => false
  end.

(** One path runs through the other. *)
Definition comparable (p q : list string) : bool := is_prefix p q || is_prefix q p.

Definition starts_with (c : ascii) (s : string) : bool :=
  match s with
  | String c' _ => Ascii.eqb c' c
  | EmptyString => false
  end.

(** A flat catalog that [unflatten_dict] turns into a catalog with the same
    paths: no key runs through another key, and no key starts with the
    separator. *)
Definition collision_free (d : dict string) (sep : ascii) : bool :=
  forallb (fun k1 =>
             forallb (fun k2 => (k1 =? k2)
                                || negb (is_prefix (split k1 sep) (split k2 sep)))
               (dict_keys d))
    (dict_keys d)
  && forallb (fun k => negb (starts_with sep k)) (dict_keys d).

(** Lookup in a list of items keyed by paths. *)
Fixpoint path_get (L : list (list string * string)) (q : list string) : option string :=
  match L with
  | [] => None
  | (p, s) :: rest =>
      if list_eq_dec string_dec p q then Some s else path_get rest q
  end.

(** ** The script

    The [__main__] block runs [main] for a fixed list of languages, one
    after the other, each with the default [input_file]. *)

Definition languages : list (string * string) :=
  [("de", "German"); ("es", "Spanish"); ("fr", "French"); ("hi", "Hindi");
   ("it", "Italian"); ("ja", "Japanese"); ("ko", "Korean"); ("pl", "Polish");
   ("pt", "Portuguese"); ("ru", "Russian");
   ("zh_CN", "Simplified Chinese (Mandarin)")].

(** The default [input_file] of [main]. *)
Definition default_input_file : string := "ui/src/translations/en.json".

(** The files after [text] is written at [path]: [json.load] of that file
    is what the decoder makes of the text. *)
Definition write_file (json_loads : string -> option value) (env : environment)
  (path text : string) : environment :=
  {| repo := repo env;
     json_file := fun p => if p =? path then json_loads text else json_file env p;
     write := write env |}.

Section Script.
Variable World : Type.
Variable chat : string -> string -> World -> (string + string) * World.
Variable set_iter : list string -> list string.
(** [json.loads]: the value decoded from a text, [None] when it raises. *)
Variable json_loads : string -> option value.

(** Where a run of the script stands: the files, the state of the service,
    the outcomes of the calls of [main] that returned, and the call that
    raised, which ends the script. *)
Record script : Type := {
  files : environment;
  final_service : World;
  outcomes : list (outcome World);
  failed_call : option (failure World)
}.

Definition raised (s : script) : bool :=
  match failed_call s with Some _ => true | None => false end.

(** The files after a call of [main] for [language_code] has raised. *)
Definition files_after_failure (env : environment) (language_code : string)
  (f : failure World) : environment :=
  match target_after f with
  | None => env
  | Some text => write_file json_loads env (target_path language_code) text
  end.

Fixpoint run_languages (env : environment) (w : World) (ls : list (string * string))
  : script :=
  match ls with
  | [] => {| files := env; final_service := w; outcomes := []; failed_call := None |}
  | (language_code, target_language) :: rest =>
      match main chat set_iter env w language_code target_language default_input_file with
      | inr f =>
          {| files := files_after_failure env language_code f;
             final_service := service_before f;
             outcomes := [];
             failed_call := Some f |}
      | inl out =>
          let s := run_languages
                     (write_file json_loads env (target_path language_code) (written out))
                     (service out) rest in
          {| files := files s;
             final_service := final_service s;
             outcomes := out :: outcomes s;
             failed_call := failed_call s |}
      end
  end.

(** The same calls of [main], each on the files as they were before the
    script, only the state of the service going from one to the next. *)
Fixpoint run_on_initial_files (env : environment) (w : World)
  (ls : list (string * string)) : list (outcome World) * bool :=
  match ls with
  | [] => ([], false)
  | (language_code, target_language) :: rest =>
      match main chat set_iter env w language_code target_language default_input_file with
      | inr _ => ([], true)
      | inl out =>
          let '(outs, r) := run_on_initial_files env (service out) rest in
          (out :: outs, r)
      end
  end.
End Script.

(** The requests of a trace, in order: the text and the target language of
    each. *)
Definition requests_of (t : list event) : list (string * string) :=
  flat_map (fun e => match e with
                     | Request text target_language _ => [(text, target_language)]
                     | Printed _ => []
                     end) t.

(** What [translate_text] returns for a text, given the answer of the
    service. *)
Definition translation_of (text : string) (answer : string + string) : string :=
  match answer with
  | inl content => content
  | inr _ => text
  end.

(** ** Example data *)

(** A stub service: it fails on the text ["Bye"] and answers every other
    text by putting it between brackets; its state counts the calls. *)
Definition stub_chat (text target_language : string) (calls : nat)
  : (string + string) * nat :=
  if text =? "Bye" then (inr "quota", S calls)
  else (inl ("[" ++ text ++ "]")%string, S calls).

Definition ex_target_flat : dict string :=
  [("a", "Hallo"); ("e", ""); ("f", "Fest"); ("g", "")].

Definition ex_to_translate : dict string :=
  [("a", "Hello"); ("b", "Bye"); ("c|d", "Day"); ("e", "kept")].

Definition en_json : string := "ui/src/translations/en.json".

Definition ex_catalog : dict value :=
  [("en", Dict [("a", Str "Hello"); ("b", Dict [("c", Str "x"); ("d", Str "")])])].

(** One revision only: there is no previous snapshot. *)
Definition ex_env_new : environment :=
  {| repo := Some {| fetch_all := true;
                     iter_commits := fun _ => Some [ {| blob_json := fun _ => None |} ] |};
     json_file := fun path => if path =? en_json then Some (Dict ex_catalog) else None;
     write := fun _ _ => Written |}.

(** Two revisions, the older one holding a JSON document that is a string. *)
Definition ex_env_scalar : environment :=
  {| repo := Some {| fetch_all := true;
                     iter_commits := fun _ =>
                       Some [ {| blob_json := fun _ => Some (Dict ex_catalog) |};
                              {| blob_json := fun _ => Some (Str "oops") |} ] |};
     json_file := fun path => if path =? en_json then Some (Dict ex_catalog) else None;
     write := fun _ _ => Written |}.

(** One revision only, and the fetch fails. *)
Definition ex_env_offline : environment :=
  {| repo := Some {| fetch_all := false;
                     iter_commits := fun _ => Some [ {| blob_json := fun _ => None |} ] |};
     json_file := fun path => if path =? en_json then Some (Dict ex_catalog) else None;
     write := fun _ _ => Written |}.

(** The same content with the keys inserted in two different orders. *)
Definition ex_order_1 : value :=
  Dict [("b", Str "x"); ("a", Dict [("d", Str "y"); ("c", Str "")])].

Definition ex_order_2 : value :=
  Dict [("a", Dict [("c", Str ""); ("d", Str "y")]); ("b", Str "x")].

(** A run for German: since the previous revision the source gained
    ["b"], ["c"] and ["e"] and changed ["a"]; the target already translates
    ["a"] and holds an empty string for ["e"]. *)
Definition ex_env_run : environment :=
  {| repo := Some {| fetch_all := true;
                     iter_commits := fun _ =>
                       Some [ {| blob_json := fun _ => None |};
                              {| blob_json := fun _ =>
                                   Some (Dict [("en", Dict [("a", Str "Hi")])]) |} ] |};
     json_file := fun path =>
       if path =? en_json
       then Some (Dict [("en", Dict [("a", Str "Hello"); ("b", Str "Bye");
                                     ("c", Dict [("d", Str "Day")]); ("e", Str "kept")])])
       else if path =? "ui/src/translations/de.json"
       then Some (Dict [("de", Dict [("a", Str "Hallo"); ("e", Str "")])])
       else None;
     write := fun _ _ => Written |}.

(** The same run on a file system on which the dump fails after the target
    file has been truncated. *)
Definition ex_env_unwritable : environment :=
  {| repo := repo ex_env_run;
     json_file := json_file ex_env_run;
     write := fun _ _ => Dump_raises "" |}.

(** The same source with a target that also holds an empty string for
    ["g"], a key the source does not have. *)
Definition ex_env_frame : environment :=
  {| repo := repo ex_env_run;
     json_file := fun path =>
       if path =? "ui/src/translations/de.json"
       then Some (Dict [("de", Dict [("a", Str "Hallo"); ("e", Str ""); ("g", Str "")])])
       else json_file ex_env_run path;
     write := fun _ _ => Written |}.

(** The source turned the mapping ["a"] into a string; the target still
    translates ["a|b"]. *)
Definition ex_env_collision : environment :=
  {| repo := Some {| fetch_all := true;
                     iter_commits := fun _ =>
                       Some [ {| blob_json := fun _ => None |};
                              {| blob_json := fun _ =>
                                   Some (Dict [("en", Dict [("a", Dict [("b", Str "Hello")])])]) |} ] |};
     json_file := fun path =>
       if path =? en_json
       then Some (Dict [("en", Dict [("a", Str "Hello")])])
       else if path =? "ui/src/translations/de.json"
       then Some (Dict [("de", Dict [("a", Dict [("b", Str "Hallo")])])])
       else None;
     write := fun _ _ => Written |}.

(** A first revision of a source with the string ["m"]; the target holds a
    translation for ["a"], an empty string for ["m|n"] and an empty mapping
    for ["z"]. *)
Definition ex_env_dropped : environment :=
  {| repo := Some {| fetch_all := true;
                     iter_commits := fun _ => Some [ {| blob_json := fun _ => None |} ] |};
     json_file := fun path =>
       if path =? en_json
       then Some (Dict [("en", Dict [("m", Str "More")])])
       else if path =? "ui/src/translations/de.json"
       then Some (Dict [("de", Dict [("a", Str "Hallo");
                                     ("m", Dict [("n", Str "")]);
                                     ("z", Dict [])])])
       else None;
     write := fun _ _ => Written |}.

(** A first revision of a source with the string ["a|b"]; the German target
    is empty, the Spanish one holds a string for ["a"], and the other
    targets are missing. *)
Definition ex_env_script : environment :=
  {| repo := Some {| fetch_all := true;
                     iter_commits := fun _ => Some [ {| blob_json := fun _ => None |} ] |};
     json_file := fun path =>
       if path =? en_json
       then Some (Dict [("en", Dict [("a", Dict [("b", Str "Hello")])])])
       else if path =? "ui/src/translations/de.json"
       then Some (Dict [("de", Dict [])])
       else if path =? "ui/src/translations/es.json"
       then Some (Dict [("es", Dict [("a", Str "hola")])])
       else None;
     write := fun _ _ => Written |}.

(** A target with an empty mapping, and a source whose only change is
    already translated. *)
Definition ex_env_skipped : environment :=
  {| repo := Some {| fetch_all := true;
                     iter_commits := fun _ =>
                       Some [ {| blob_json := fun _ => None |};
                              {| blob_json := fun _ =>
                                   Some (Dict [("en", Dict [("a", Str "Hi")])]) |} ] |};
     json_file := fun path =>
       if path =? en_json
       then Some (Dict [("en", Dict [("a", Str "Hello")])])
       else Some (Dict [("de", Dict [("a", Str "Hallo"); ("z", Dict [])])]);
     write := fun _ _ => Written |}.

(** * Facts about dictionaries *)

Unset Implicit Arguments.

Section DictFacts.
Variable V : Type.
Implicit Types (d o : dict V) (k : string) (v : V).

Lemma dict_get_set_eq d k v : dict_get (dict_set d k v) k = Some v.
Proof.
  induction d as [|[k' v'] d IH]; simpl.
  - now rewrite String.eqb_refl.
  - destruct (String.eqb_spec k' k) as [->|Hne]; simpl.
    + now rewrite String.eqb_refl.
    + apply String.eqb_neq in Hne. now rewrite Hne.
Qed.

Lemma dict_get_set_ne d k k' v :
  k <> k' -> dict_get (dict_set d k v) k' = dict_get d k'.
Proof.
  intros Hne. induction d as [|[k0 v0] d IH]; simpl.
  - apply String.eqb_neq in Hne. now rewrite Hne.
  - destruct (String.eqb_spec k0 k) as [->|Hk]; simpl.
    + apply String.eqb_neq in Hne. now rewrite Hne.
    + now rewrite IH.
Qed.

Lemma dict_get_none d k : dict_get d k = None <-> ~ In k (dict_keys d).
Proof.
  induction d as [|[k' v'] d IH]; simpl.
  - tauto.
  - destruct (String.eqb_spec k' k) as [->|Hne].
    + split; [discriminate | intros H; exfalso; apply H; now left].
    + rewrite IH. tauto.
Qed.

Lemma dict_get_some_in d k v : dict_get d k = Some v -> In (k, v) d.
Proof.
  induction d as [|[k' v'] d IH]; simpl; [discriminate|].
  destruct (String.eqb_spec k' k) as [->|Hne].
  - intros [= ->]. now left.
  - intros H. right. auto.
Qed.

Lemma dict_get_some_key d k v : dict_get d k = Some v -> In k (dict_keys d).
Proof.
  intros H. apply dict_get_some_in in H.
  unfold dict_keys. change k with (fst (k, v)). now apply in_map.
Qed.

Lemma dict_in_keys d k : dict_in k d = true <-> In k (dict_keys d).
Proof.
  unfold dict_in. destruct (dict_get d k) eqn:E.
  - split; [intros _; eapply dict_get_some_key; eauto | reflexivity].
  - apply dict_get_none in E. split; [discriminate | tauto].
Qed.

Lemma dict_wf_get d k v : dict_wf d -> In (k, v) d -> dict_get d k = Some v.
Proof.
  unfold dict_wf. induction d as [|[k' v'] d IH]; simpl; [tauto|].
  intros Hnd [[= -> ->]|Hin].
  - now rewrite String.eqb_refl.
  - inversion Hnd as [|? ? Hk Hd]; subst.
    destruct (String.eqb_spec k' k) as [->|Hne]; [|auto].
    exfalso. apply Hk. change k with (fst (k, v)). now apply in_map.
Qed.

(** Writing the value a key already has changes nothing. *)
Lemma dict_set_same d k v : dict_get d k = Some v -> dict_set d k v = d.
Proof.
  induction d as [|[k' v'] d IH]; simpl; [discriminate|].
  destruct (String.eqb_spec k' k) as [->|Hne].
  - now intros [= ->].
  - intros H. now rewrite IH.
Qed.

(** Writing a new key appends it. *)
Lemma dict_set_new d k v : dict_get d k = None -> dict_set d k v = d ++ [(k, v)].
Proof.
  induction d as [|[k' v'] d IH]; simpl; [reflexivity|].
  destruct (String.eqb_spec k' k) as [->|Hne]; [discriminate|].
  intros H. now rewrite IH.
Qed.

Lemma dict_keys_set d k v k' :
  In k' (dict_keys (dict_set d k v)) <-> k' = k \/ In k' (dict_keys d).
Proof.
  induction d as [|[k0 v0] d IH]; simpl.
  - intuition.
  - destruct (String.eqb_spec k0 k) as [->|Hne]; simpl.
    + intuition.
    + rewrite IH. intuition.
Qed.

Lemma dict_set_wf d k v : dict_wf d -> dict_wf (dict_set d k v).
Proof.
  unfold dict_wf. induction d as [|[k0 v0] d IH]; simpl; intros Hnd.
  - constructor; [tauto | constructor].
  - inversion Hnd as [|? ? Hk Hd]; subst.
    destruct (String.eqb_spec k0 k) as [->|Hne]; simpl.
    + now constructor.
    + constructor; [|auto].
      intros Hin. apply dict_keys_set in Hin. destruct Hin; [congruence | tauto].
Qed.

Lemma dict_update_wf o d : dict_wf d -> dict_wf (dict_update d o).
Proof.
  unfold dict_update. revert d.
  induction o as [|[k v] o IH]; simpl; intros d Hd; [assumption|].
  apply IH. now apply dict_set_wf.
Qed.

Lemma dict_of_items_wf (items : list (string * V)) : dict_wf (dict_of_items items).
Proof. apply dict_update_wf. constructor. Qed.

Lemma dict_update_cons d k v o :
  dict_update d ((k, v) :: o) = dict_update (dict_set d k v) o.
Proof. reflexivity. Qed.

(** [update] leaves a key that [other] does not have alone. *)
Lemma dict_get_update_notin o d k :
  ~ In k (dict_keys o) -> dict_get (dict_update d o) k = dict_get d k.
Proof.
  revert d. induction o as [|[k' v'] o IH]; intros d Hk; [reflexivity|].
  rewrite dict_update_cons, IH.
  - apply dict_get_set_ne. intros ->. apply Hk. now left.
  - intros Hin. apply Hk. now right.
Qed.

(** [update] is right-biased. *)
Lemma dict_get_update_in o d k v :
  dict_wf o -> dict_get o k = Some v -> dict_get (dict_update d o) k = Some v.
Proof.
  unfold dict_wf. revert d.
  induction o as [|[k' v'] o IH]; intros d Hnd Hget; [discriminate|].
  simpl in Hnd, Hget. inversion Hnd as [|? ? Hk Hd]; subst.
  rewrite dict_update_cons.
  destruct (String.eqb_spec k' k) as [->|Hne].
  - injection Hget as ->. rewrite dict_get_update_notin by assumption.
    apply dict_get_set_eq.
  - now apply IH.
Qed.

Lemma dict_in_update o d k :
  dict_in k d = true -> dict_in k (dict_update d o) = true.
Proof.
  revert d. induction o as [|[k' v'] o IH]; intros d H; [assumption|].
  rewrite dict_update_cons. apply IH.
  apply dict_in_keys, dict_keys_set. right. now apply dict_in_keys.
Qed.

(** Items with pairwise distinct fresh keys are appended as they are. *)
Lemma dict_update_fresh o d :
  NoDup (dict_keys d ++ dict_keys o) -> dict_update d o = d ++ o.
Proof.
  revert d. induction o as [|[k v] o IH]; intros d Hnd.
  - now rewrite app_nil_r.
  - rewrite dict_update_cons.
    assert (Hk : dict_get d k = None).
    { apply dict_get_none. intros Hin. simpl in Hnd.
      apply NoDup_remove_2 in Hnd. apply Hnd. apply in_or_app. now left. }
    rewrite dict_set_new by exact Hk. rewrite IH.
    + now rewrite <- app_assoc.
    + unfold dict_keys in *. rewrite map_app, <- app_assoc. exact Hnd.
Qed.

Lemma dict_of_items_id (items : list (string * V)) :
  NoDup (map fst items) -> dict_of_items items = items.
Proof. intros H. unfold dict_of_items. now rewrite dict_update_fresh. Qed.

Lemma dict_get_split d k v :
  dict_get d k = Some v ->
  exists pre rest, d = pre ++ (k, v) :: rest /\ ~ In k (dict_keys pre).
Proof.
  induction d as [|[k' v'] d IH]; simpl; [discriminate|].
  destruct (String.eqb_spec k' k) as [->|Hne].
  - intros [= ->]. exists [], d. split; [reflexivity | simpl; tauto].
  - intros H. destruct (IH H) as (pre & rest & -> & Hpre).
    exists ((k', v') :: pre), rest. split; [reflexivity|].
    simpl. intros [?|?]; [congruence | tauto].
Qed.

(** Once every item of [other] is in [d], [update] is the identity. *)
Lemma dict_update_absorb o d :
  (forall k v, In (k, v) o -> dict_get d k = Some v) -> dict_update d o = d.
Proof.
  induction o as [|[k v] o IH]; intros H; [reflexivity|].
  rewrite dict_update_cons, dict_set_same by (apply H; now left).
  apply IH. intros k' v' Hin. apply H. now right.
Qed.
End DictFacts.

(** * Change detection *)

Section DetectChanges.
Variables current_flat previous_flat : dict string.

Let is_added (key : string) : bool := negb (dict_in key previous_flat).
Let is_changed (key : string) : bool :=
  dict_in key previous_flat
  && negb (option_eqb (dict_get current_flat key) (dict_get previous_flat key)).

Lemma detect_loop keys added changed :
  fold_left
    (fun (acc : list string * list string) key =>
       if negb (dict_in key previous_flat) then (fst acc ++ [key], snd acc)
       else if negb (option_eqb (dict_get current_flat key) (dict_get previous_flat key))
            then (fst acc, snd acc ++ [key])
            else acc)
    keys (added, changed)
  = (added ++ filter is_added keys, changed ++ filter is_changed keys).
Proof.
  revert added changed.
  induction keys as [|key keys IH]; intros added changed; simpl.
  - now rewrite !app_nil_r.
  - unfold is_added, is_changed.
    destruct (dict_in key previous_flat); simpl.
    + destruct (option_eqb (dict_get current_flat key) (dict_get previous_flat key));
        simpl; rewrite IH; [reflexivity|].
      now rewrite <- app_assoc.
    + rewrite IH. now rewrite <- app_assoc.
Qed.
End DetectChanges.

Lemma option_eqb_neq (v v' : string) :
  option_eqb (Some v) (Some v') = false <-> v <> v'.
Proof. simpl. apply String.eqb_neq. Qed.

Lemma detect_changes_unfold current previous :
  let current_flat := flatten_dict current "" bar in
  let previous_flat := flatten_dict previous "" bar in
  detect_changes current previous =
  set_of_list
    (filter (fun key => negb (dict_in key previous_flat)) (dict_keys current_flat)
     ++ filter (fun key => dict_in key previous_flat
                           && negb (option_eqb (dict_get current_flat key)
                                               (dict_get previous_flat key)))
          (dict_keys current_flat)).
Proof.
  intros current_flat previous_flat. unfold detect_changes.
  fold current_flat previous_flat. now rewrite detect_loop.
Qed.

(** Membership in the change set, by lookups in the flattened catalogs. *)
Lemma detect_changes_iff (current previous : dict value) (k : string) :
  In k (detect_changes current previous) <->
  exists v, dict_get (flatten_dict current "" bar) k = Some v /\
            (dict_get (flatten_dict previous "" bar) k = None \/
             exists v', dict_get (flatten_dict previous "" bar) k = Some v' /\ v <> v').
Proof.
  rewrite detect_changes_unfold.
  set (current_flat := flatten_dict current "" bar).
  set (previous_flat := flatten_dict previous "" bar).
  unfold set_of_list. rewrite nodup_In, in_app_iff, !filter_In.
  rewrite <- dict_in_keys. unfold dict_in.
  destruct (dict_get current_flat k) as [v|] eqn:Ec;
    destruct (dict_get previous_flat k) as [v'|] eqn:Ep; simpl.
  - destruct (String.eqb_spec v v') as [->|Hne]; simpl.
    + split; [intros [[_ [=]]|[_ [=]]]|].
      intros (v0 & [= <-] & [[=]|(v1 & [= <-] & Hd)]). congruence.
    + split; [|tauto]. intros _. exists v. split; [reflexivity|].
      right. now exists v'.
  - split; [|tauto]. intros _. exists v. split; [reflexivity | now left].
  - split; [intros [[[=] _]|[[=] _]] | intros (v0 & [=] & _)].
  - split; [intros [[[=] _]|[[=] _]] | intros (v0 & [=] & _)].
Qed.

(** C2. A path is in [detect_changes(current, previous)] exactly when the
    flattened current catalog has it and the flattened previous catalog
    either lacks it or holds a different string for it.  Hence a path that
    neither catalog has is not reported, nor is a path that both have with
    the same value. *)
Theorem detect_changes_spec :
  forall (current previous : dict value) (k : string),
    let current_flat := flatten_dict current "" bar in
    let previous_flat := flatten_dict previous "" bar in
    (In k (detect_changes current previous) <->
     exists v, dict_get current_flat k = Some v /\
               (dict_get previous_flat k = None \/
                exists v', dict_get previous_flat k = Some v' /\ v <> v'))
    /\ (dict_get current_flat k = None -> dict_get previous_flat k = None ->
        ~ In k (detect_changes current previous))
    /\ (forall v, dict_get current_flat k = Some v -> dict_get previous_flat k = Some v ->
        ~ In k (detect_changes current previous)).
Proof.
  intros current previous k current_flat previous_flat.
  pose proof (detect_changes_iff current previous k) as Hiff.
  fold current_flat previous_flat in Hiff.
  split; [exact Hiff|]. split.
  - intros Hc _ Hin. apply Hiff in Hin. destruct Hin as (v & Hv & _). congruence.
  - intros v Hc Hp Hin. apply Hiff in Hin.
    destruct Hin as (v0 & Hv0 & [Hn|(v1 & Hv1 & Hd)]); congruence.
Qed.

Lemma detect_changes_spec_witness :
  let current := [("en", Dict [("a", Str "Hello"); ("b", Str "Bye")])] in
  let previous := [("en", Dict [("a", Str "Hello")])] in
  dict_get (flatten_dict current "" bar) "en|a" = Some "Hello"
  /\ dict_get (flatten_dict previous "" bar) "en|a" = Some "Hello"
  /\ ~ In "en|a" (detect_changes current previous).
Proof.
  split; [reflexivity|]. split; [reflexivity|].
  destruct (detect_changes_spec
              [("en", Dict [("a", Str "Hello"); ("b", Str "Bye")])]
              [("en", Dict [("a", Str "Hello")])] "en|a") as (_ & _ & H).
  apply (H "Hello"); reflexivity.
Defined.

(** Scenarios A, B and C of the specification. *)
Example scenario_A :
  detect_changes [("en", Dict [("a", Str "Hello")])] [] = ["en|a"].
Proof. reflexivity. Qed.

Example scenario_B :
  detect_changes [("en", Dict [("a", Str "Hello"); ("b", Str "Bye")])]
    [("en", Dict [("a", Str "Hello")])] = ["en|b"].
Proof. reflexivity. Qed.

Example scenario_C :
  detect_changes [("en", Dict [("a", Str "Hello")])]
    [("en", Dict [("a", Str "Hi")])] = ["en|a"].
Proof. reflexivity. Qed.

(** * Merge *)

(** C5. Merging the same translations into the flattened target a second
    time changes nothing, in the flat catalog and in the nested catalog
    rebuilt from it. *)
Theorem merge_idempotent :
  forall (target_flat translations : dict string),
    dict_wf translations ->
    dict_update (dict_update target_flat translations) translations
    = dict_update target_flat translations
    /\ unflatten_dict (dict_update (dict_update target_flat translations) translations) bar
       = unflatten_dict (dict_update target_flat translations) bar.
Proof.
  intros target_flat translations Hwf.
  assert (H : dict_update (dict_update target_flat translations) translations
              = dict_update target_flat translations).
  { apply dict_update_absorb. intros k v Hin.
    apply dict_get_update_in; [assumption|]. now apply dict_wf_get. }
  split; [exact H | now rewrite H].
Qed.

(** * The translation loop *)

Section LoopFacts.
Variable World : Type.
Variable chat : string -> string -> World -> (string + string) * World.
Variable target_flat : dict string.
Variable target_language : string.

Let body := main_loop_body chat target_flat target_language.
Let loop (l : dict string) (st : run World) : run World := fold_left body l st.

Lemma translate_text_cases text w :
  (exists content w',
      chat text target_language w = (inl content, w') /\
      translate_text chat text target_language w
      = (content, [Request text target_language (inl content)], w'))
  \/ (exists e w',
      chat text target_language w = (inr e, w') /\
      translate_text chat text target_language w
      = (text, [Request text target_language (inr e); Printed (Error_during_translation e)],
         w')).
Proof.
  unfold translate_text.
  destruct (chat text target_language w) as [[content|e] w'].
  - left. now exists content, w'.
  - right. now exists e, w'.
Qed.

Lemma body_skip st k v :
  already_translated target_flat k = true ->
  body st (k, v)
  = {| translated_flat_dict := translated_flat_dict st;
       trace := trace st ++ [Printed (Skipping_re_translation k)];
       world := world st |}.
Proof. intros H. unfold body, main_loop_body. simpl. now rewrite H. Qed.

Lemma body_translate st k v new emitted w' :
  already_translated target_flat k = false ->
  translate_text chat v target_language (world st) = (new, emitted, w') ->
  body st (k, v)
  = {| translated_flat_dict := dict_set (translated_flat_dict st) k new;
       trace := trace st ++ emitted ++ [Printed (Translating k v target_language new)];
       world := w' |}.
Proof. intros H E. unfold body, main_loop_body. simpl. now rewrite H, E. Qed.

(** What one iteration does, whichever branch it takes. *)
Lemma body_cases st k v :
  (already_translated target_flat k = true /\
   body st (k, v)
   = {| translated_flat_dict := translated_flat_dict st;
        trace := trace st ++ [Printed (Skipping_re_translation k)];
        world := world st |})
  \/ (already_translated target_flat k = false /\
      exists new emitted w',
        translate_text chat v target_language (world st) = (new, emitted, w') /\
        body st (k, v)
        = {| translated_flat_dict := dict_set (translated_flat_dict st) k new;
             trace := trace st ++ emitted ++ [Printed (Translating k v target_language new)];
             world := w' |}).
Proof.
  destruct (already_translated target_flat k) eqn:E.
  - left. split; [reflexivity | now apply body_skip].
  - right. split; [reflexivity|].
    destruct (translate_text chat v target_language (world st)) as [[new emitted] w'] eqn:T.
    exists new, emitted, w'. split; [reflexivity | now apply body_translate].
Qed.

Lemma translate_text_prints text w new emitted w' k v tl nw :
  translate_text chat text target_language w = (new, emitted, w') ->
  ~ In (Printed (Translating k v tl nw)) emitted.
Proof.
  intros E Hin.
  destruct (translate_text_cases text w) as [(c & w1 & _ & E1)|(e & w1 & _ & E1)];
    rewrite E1 in E; injection E as <- <- <-; simpl in Hin; intuition discriminate.
Qed.

(** The loop writes only keys it iterates over. *)
Lemma loop_get_notin l st k :
  ~ In k (dict_keys l) ->
  dict_get (translated_flat_dict (loop l st)) k = dict_get (translated_flat_dict st) k.
Proof.
  revert st. induction l as [|[k' v'] l IH]; intros st Hk; [reflexivity|].
  simpl in Hk. change (loop ((k', v') :: l) st) with (loop l (body st (k', v'))).
  rewrite IH by tauto.
  destruct (body_cases st k' v') as [[_ ->]|[_ (new & em & w' & _ & ->)]]; simpl.
  - reflexivity.
  - apply dict_get_set_ne. intros ->. tauto.
Qed.

(** The loop never writes a key the target already translates. *)
Lemma loop_get_skipped l st k :
  already_translated target_flat k = true ->
  dict_get (translated_flat_dict (loop l st)) k = dict_get (translated_flat_dict st) k.
Proof.
  intros Hk. revert st. induction l as [|[k' v'] l IH]; intros st; [reflexivity|].
  change (loop ((k', v') :: l) st) with (loop l (body st (k', v'))).
  rewrite IH.
  destruct (body_cases st k' v') as [[_ ->]|[Hk' (new & em & w' & _ & ->)]]; simpl.
  - reflexivity.
  - apply dict_get_set_ne. intros ->. congruence.
Qed.

Lemma loop_trace_mono l st x : In x (trace st) -> In x (trace (loop l st)).
Proof.
  revert st. induction l as [|[k' v'] l IH]; intros st Hx; [assumption|].
  change (loop ((k', v') :: l) st) with (loop l (body st (k', v'))).
  apply IH.
  destruct (body_cases st k' v') as [[_ ->]|[_ (new & em & w' & _ & ->)]]; simpl;
    apply in_or_app; now left.
Qed.

(** No provider call is made for a key that is skipped or not iterated. *)
Lemma loop_no_call l st k :
  already_translated target_flat k = true \/ ~ In k (dict_keys l) ->
  (forall v tl new, ~ In (Printed (Translating k v tl new)) (trace st)) ->
  forall v tl new, ~ In (Printed (Translating k v tl new)) (trace (loop l st)).
Proof.
  revert st. induction l as [|[k' v'] l IH]; intros st Hk Hst; [assumption|].
  change (loop ((k', v') :: l) st) with (loop l (body st (k', v'))).
  apply IH.
  - destruct Hk as [Hk|Hk]; [now left | right]. simpl in Hk. tauto.
  - intros v tl new.
    destruct (body_cases st k' v') as [[_ ->]|[Hk' (nw & em & w' & T & ->)]]; simpl;
      rewrite ?in_app_iff; simpl.
    + intros [H|[H|[]]]; [now apply Hst in H | discriminate].
    + intros [H|[H|[H|[]]]].
      * now apply Hst in H.
      * eapply translate_text_prints; eassumption.
      * injection H as -> _ _ _.
        destruct Hk as [Hk|Hk]; [congruence | simpl in Hk; tauto].
Qed.

Lemma loop_wf l st :
  dict_wf (translated_flat_dict st) -> dict_wf (translated_flat_dict (loop l st)).
Proof.
  revert st. induction l as [|[k' v'] l IH]; intros st Hst; [assumption|].
  change (loop ((k', v') :: l) st) with (loop l (body st (k', v'))).
  apply IH.
  destruct (body_cases st k' v') as [[_ ->]|[_ (new & em & w' & _ & ->)]]; simpl;
    [assumption | now apply dict_set_wf].
Qed.

(** Every key iterated over leaves its line on the output. *)
Lemma loop_processed l st k :
  In k (dict_keys l) ->
  In (Printed (Skipping_re_translation k)) (trace (loop l st))
  \/ exists v new, In (k, v) l /\
                   In (Printed (Translating k v target_language new)) (trace (loop l st)).
Proof.
  revert st. induction l as [|[k' v'] l IH]; intros st Hk; [destruct Hk|].
  change (loop ((k', v') :: l) st) with (loop l (body st (k', v'))).
  simpl in Hk. destruct Hk as [->|Hk].
  - destruct (body_cases st k v') as [[_ E]|[_ (new & em & w' & _ & E)]].
    + left. apply loop_trace_mono. rewrite E. simpl. apply in_or_app. right. now left.
    + right. exists v', new. split; [now left|].
      apply loop_trace_mono. rewrite E. simpl.
      apply in_or_app. right. apply in_or_app. right. now left.
  - destruct (IH (body st (k', v')) Hk) as [H|(v & new & Hin & H)].
    + now left.
    + right. exists v, new. split; [now right | exact H].
Qed.

Lemma loop_app l1 l2 st : loop (l1 ++ l2) st = loop l2 (loop l1 st).
Proof. apply fold_left_app. Qed.

Lemma main_loop_is_loop to_translate w :
  main_loop chat target_flat target_language to_translate w
  = loop to_translate {| translated_flat_dict := []; trace := []; world := w |}.
Proof. reflexivity. Qed.

Lemma already_translated_true k :
  already_translated target_flat k = true <->
  exists s, dict_get target_flat k = Some s /\ s <> "".
Proof.
  unfold already_translated, truthy.
  destruct (dict_get target_flat k) as [s|].
  - destruct (String.eqb_spec s "") as [->|Hne]; simpl.
    + split; [discriminate | intros (s & [= <-] & H); congruence].
    + split; [intros _; now exists s | reflexivity].
  - split; [discriminate | intros (s & [=] & _)].
Qed.

Lemma already_translated_false k :
  already_translated target_flat k = false <->
  dict_get target_flat k = Some "" \/ dict_get target_flat k = None.
Proof.
  unfold already_translated, truthy.
  destruct (dict_get target_flat k) as [s|].
  - destruct (String.eqb_spec s "") as [->|Hne]; simpl.
    + split; [now left | reflexivity].
    + split; [discriminate | intros [[= ->]|[=]]; congruence].
  - split; [now right | reflexivity].
Qed.

(** The iteration for a key [k] of [to_translate] that is not skipped:
    the state before it, the call, and what the loop ends with. *)
Lemma loop_at_key pre k v rest w :
  dict_wf (pre ++ (k, v) :: rest) ->
  already_translated target_flat k = false ->
  let before := main_loop chat target_flat target_language pre w in
  let after := main_loop chat target_flat target_language (pre ++ (k, v) :: rest) w in
  forall new emitted w',
    translate_text chat v target_language (world before) = (new, emitted, w') ->
    after = loop rest
              {| translated_flat_dict := dict_set (translated_flat_dict before) k new;
                 trace := trace before ++ emitted ++ [Printed (Translating k v target_language new)];
                 world := w' |}
    /\ dict_get (translated_flat_dict after) k = Some new
    /\ dict_get (dict_update target_flat (translated_flat_dict after)) k = Some new
    /\ In (Printed (Translating k v target_language new)) (trace after)
    /\ (forall x, In x emitted -> In x (trace after)).
Proof.
  intros Hwf Hk before after new emitted w' T.
  assert (E : after = loop rest
              {| translated_flat_dict := dict_set (translated_flat_dict before) k new;
                 trace := trace before ++ emitted ++ [Printed (Translating k v target_language new)];
                 world := w' |}).
  { unfold after. rewrite main_loop_is_loop, loop_app.
    change (loop ((k, v) :: rest) ?s) with (loop rest (body s (k, v))).
    rewrite <- main_loop_is_loop. fold before.
    f_equal. now apply body_translate. }
  assert (Hrest : ~ In k (dict_keys rest)).
  { unfold dict_wf, dict_keys in Hwf. rewrite map_app in Hwf. simpl in Hwf.
    apply NoDup_remove_2 in Hwf. intros Hin. apply Hwf. apply in_or_app. now right. }
  assert (G : dict_get (translated_flat_dict after) k = Some new).
  { rewrite E, loop_get_notin by assumption. simpl. apply dict_get_set_eq. }
  split; [exact E|]. split; [exact G|]. split; [|split].
  - apply dict_get_update_in; [|exact G].
    unfold after. rewrite main_loop_is_loop. apply loop_wf. constructor.
  - rewrite E. apply loop_trace_mono. simpl.
    apply in_or_app. right. apply in_or_app. right. now left.
  - intros x Hx. rewrite E. apply loop_trace_mono. simpl.
    apply in_or_app. right. apply in_or_app. now left.
Qed.
End LoopFacts.

Lemma merge_idempotent_witness :
  dict_wf [("b", "Bye"); ("e", "[kept]")]
  /\ dict_update (dict_update ex_target_flat [("b", "Bye"); ("e", "[kept]")])
       [("b", "Bye"); ("e", "[kept]")]
     = dict_update ex_target_flat [("b", "Bye"); ("e", "[kept]")].
Proof.
  assert (Hwf : dict_wf [("b", "Bye"); ("e", "[kept]")]).
  { unfold dict_wf. simpl.
    repeat (constructor; [simpl; intuition discriminate|]). constructor. }
  split; [exact Hwf|].
  apply (merge_idempotent ex_target_flat [("b", "Bye"); ("e", "[kept]")] Hwf).
Defined.

(** A key that holds a non-empty string in the flattened target before the
    loop holds the same string after the update of line 184.  Whenever the
    loop reaches such a key it only prints that it skips it: it sends no
    request, records nothing and leaves the service as it is; so the trace
    of the loop has no [Translating] line for the key, and has its
    [Skipping] line when the key is among the keys to translate. *)
Lemma update_keeps_translated :
  forall (World : Type) (chat : string -> string -> World -> (string + string) * World)
         (target_flat to_translate : dict string) (target_language : string)
         (w : World) (k s : string),
    dict_get target_flat k = Some s ->
    s <> "" ->
    let st := main_loop chat target_flat target_language to_translate w in
    dict_get (dict_update target_flat (translated_flat_dict st)) k = Some s
    /\ (forall (before : run World) (v : string),
           main_loop_body chat target_flat target_language before (k, v)
           = {| translated_flat_dict := translated_flat_dict before;
                trace := trace before ++ [Printed (Skipping_re_translation k)];
                world := world before |})
    /\ (forall v tl new, ~ In (Printed (Translating k v tl new)) (trace st))
    /\ (dict_in k to_translate = true -> In (Printed (Skipping_re_translation k)) (trace st)).
Proof.
  intros World chat target_flat to_translate target_language w k s Hget Hs st.
  assert (Hk : already_translated target_flat k = true).
  { apply already_translated_true. now exists s. }
  assert (Hno : forall v tl new, ~ In (Printed (Translating k v tl new)) (trace st)).
  { apply loop_no_call; [now left | intros v tl new []]. }
  split; [|split; [|split]].
  - rewrite dict_get_update_notin; [assumption|].
    apply dict_get_none. unfold st. rewrite main_loop_is_loop.
    now rewrite loop_get_skipped.
  - intros before v. now apply body_skip.
  - exact Hno.
  - intros Hin. apply dict_in_keys in Hin.
    destruct (loop_processed World chat target_flat target_language to_translate
                {| translated_flat_dict := []; trace := []; world := w |} k Hin)
      as [H|(v & new & _ & H)]; [exact H|].
    now apply Hno in H.
Qed.

(** A key of the flattened target that the loop does not translate, because
    it is not among the keys to translate or because it is skipped, keeps
    its value through the update of line 184, the empty string included. *)
Lemma update_keeps_untranslated :
  forall (World : Type) (chat : string -> string -> World -> (string + string) * World)
         (target_flat to_translate : dict string) (target_language : string)
         (w : World) (k s : string),
    dict_get target_flat k = Some s ->
    dict_get to_translate k = None \/ already_translated target_flat k = true ->
    let st := main_loop chat target_flat target_language to_translate w in
    dict_get (dict_update target_flat (translated_flat_dict st)) k = Some s.
Proof.
  intros World chat target_flat to_translate target_language w k s Hget Hk st.
  rewrite dict_get_update_notin; [assumption|].
  apply dict_get_none. unfold st. rewrite main_loop_is_loop.
  destruct Hk as [Hk|Hk].
  - apply dict_get_none in Hk. now rewrite loop_get_notin.
  - now rewrite loop_get_skipped.
Qed.

(** C10. A key to translate that the flattened target holds with the empty
    string, or does not hold, is sent to the provider: when the loop reaches
    it, it requests the translation of its source text, prints the
    [Translating] line, and after the merge the target holds for the key
    what [translate_text] made of the answer, the content returned or, on a
    failure, the source text. *)
Theorem empty_value_retranslated :
  forall (World : Type) (chat : string -> string -> World -> (string + string) * World)
         (target_flat to_translate : dict string) (target_language : string)
         (w : World) (k v : string),
    dict_wf to_translate ->
    dict_get to_translate k = Some v ->
    dict_get target_flat k = Some "" \/ dict_get target_flat k = None ->
    let st := main_loop chat target_flat target_language to_translate w in
    exists (pre rest : dict string) (answer : string + string) (w' : World),
      to_translate = pre ++ (k, v) :: rest
      /\ chat v target_language
           (world (main_loop chat target_flat target_language pre w)) = (answer, w')
      /\ let new := match answer with inl content => content | inr _ => v end in
         In (Request v target_language answer) (trace st)
         /\ In (Printed (Translating k v target_language new)) (trace st)
         /\ dict_get (dict_update target_flat (translated_flat_dict st)) k = Some new.
Proof.
  intros World chat target_flat to_translate target_language w k v Hwf Hget Hk st.
  apply already_translated_false in Hk.
  destruct (dict_get_split _ _ _ _ Hget) as (pre & rest & E & _).
  subst to_translate.
  set (before := main_loop chat target_flat target_language pre w).
  destruct (chat v target_language (world before)) as [answer w'] eqn:Hchat.
  exists pre, rest, answer, w'. split; [reflexivity|].
  split; [exact Hchat|].
  set (new := match answer with inl content => content | inr _ => v end).
  assert (T : exists emitted,
             translate_text chat v target_language (world before) = (new, emitted, w')
             /\ In (Request v target_language answer) emitted).
  { unfold translate_text. fold before. rewrite Hchat. unfold new.
    destruct answer as [content|e]; eexists; (split; [reflexivity | now left]). }
  destruct T as (emitted & T & Hreq).
  destruct (loop_at_key World chat target_flat target_language pre k v rest w Hwf Hk
              new emitted w' T) as (_ & _ & Hm & Hl & Hem).
  cbv zeta. split; [now apply Hem|]. split; assumption.
Qed.

Lemma empty_value_retranslated_witness :
  dict_wf ex_to_translate
  /\ dict_get ex_to_translate "e" = Some "kept"
  /\ dict_get ex_target_flat "e" = Some ""
  /\ let st := main_loop stub_chat ex_target_flat "German" ex_to_translate 0 in
     exists (pre rest : dict string) (answer : string + string) (w' : nat),
       ex_to_translate = pre ++ ("e", "kept") :: rest
       /\ stub_chat "kept" "German"
            (world (main_loop stub_chat ex_target_flat "German" pre 0)) = (answer, w')
       /\ let new := match answer with inl content => content | inr _ => "kept" end in
          In (Request "kept" "German" answer) (trace st)
          /\ In (Printed (Translating "e" "kept" "German" new)) (trace st)
          /\ dict_get (dict_update ex_target_flat (translated_flat_dict st)) "e" = Some new.
Proof.
  assert (Hwf : dict_wf ex_to_translate).
  { unfold dict_wf. simpl.
    repeat (constructor; [simpl; intuition discriminate|]). constructor. }
  split; [exact Hwf|]. split; [reflexivity|]. split; [reflexivity|].
  apply (empty_value_retranslated nat stub_chat ex_target_flat ex_to_translate
           "German" 0 "e" "kept" Hwf eq_refl (or_introl eq_refl)).
Defined.

(** C4. When the request made for a key raises, [translate_text] prints the
    error and returns the source text, the loop records it for the key and
    goes on with the keys that remain: each of them gets its [Skipping] or
    [Translating] line, and after the merge the target holds the source
    text for the failed key. *)
Theorem provider_failure_fallback :
  forall (World : Type) (chat : string -> string -> World -> (string + string) * World)
         (target_flat : dict string) (target_language : string)
         (pre : dict string) (k v : string) (rest : dict string)
         (w : World) (e : string) (w' : World),
    dict_wf (pre ++ (k, v) :: rest) ->
    already_translated target_flat k = false ->
    let before := main_loop chat target_flat target_language pre w in
    chat v target_language (world before) = (inr e, w') ->
    let after := main_loop chat target_flat target_language (pre ++ (k, v) :: rest) w in
    translate_text chat v target_language (world before)
    = (v, [Request v target_language (inr e); Printed (Error_during_translation e)], w')
    /\ after
       = fold_left (main_loop_body chat target_flat target_language) rest
           {| translated_flat_dict := dict_set (translated_flat_dict before) k v;
              trace := trace before
                       ++ [Request v target_language (inr e);
                           Printed (Error_during_translation e);
                           Printed (Translating k v target_language v)];
              world := w' |}
    /\ dict_get (translated_flat_dict after) k = Some v
    /\ dict_get (dict_update target_flat (translated_flat_dict after)) k = Some v
    /\ (forall k', In k' (dict_keys rest) ->
          In (Printed (Skipping_re_translation k')) (trace after)
          \/ exists v' new, In (Printed (Translating k' v' target_language new)) (trace after)).
Proof.
  intros World chat target_flat target_language pre k v rest w e w' Hwf Hk before Hchat after.
  set (emitted := [Request v target_language (inr e); Printed (Error_during_translation e)]).
  assert (T : translate_text chat v target_language (world before) = (v, emitted, w')).
  { unfold translate_text. now rewrite Hchat. }
  destruct (loop_at_key World chat target_flat target_language pre k v rest w Hwf Hk
              v emitted w' T) as (E & G & Hm & _).
  fold before after in E, G, Hm.
  split; [exact T|]. split; [exact E|]. split; [exact G|]. split; [exact Hm|].
  intros k' Hin. rewrite E.
  destruct (loop_processed World chat target_flat target_language rest
              {| translated_flat_dict := dict_set (translated_flat_dict before) k v;
                 trace := trace before
                          ++ [Request v target_language (inr e);
                              Printed (Error_during_translation e);
                              Printed (Translating k v target_language v)];
                 world := w' |} k' Hin) as [H|(v' & new & _ & H)].
  - now left.
  - right. now exists v', new.
Qed.

Lemma provider_failure_fallback_witness :
  dict_wf ([("a", "Hello")] ++ ("b", "Bye") :: [("c|d", "Day"); ("e", "kept")])
  /\ already_translated ex_target_flat "b" = false
  /\ stub_chat "Bye" "German"
       (world (main_loop stub_chat ex_target_flat "German" [("a", "Hello")] 0))
     = (inr "quota", 1)
  /\ dict_get
       (dict_update ex_target_flat
          (translated_flat_dict
             (main_loop stub_chat ex_target_flat "German" ex_to_translate 0))) "b"
     = Some "Bye".
Proof.
  assert (Hwf : dict_wf ([("a", "Hello")] ++ ("b", "Bye") :: [("c|d", "Day"); ("e", "kept")])).
  { unfold dict_wf. simpl.
    repeat (constructor; [simpl; intuition discriminate|]). constructor. }
  split; [exact Hwf|]. split; [reflexivity|]. split; [reflexivity|].
  apply (provider_failure_fallback nat stub_chat ex_target_flat "German"
           [("a", "Hello")] "b" "Bye" [("c|d", "Day"); ("e", "kept")] 0 "quota" 1
           Hwf eq_refl eq_refl).
Defined.

(** * Path codec *)

Section Codec.
Variable sep : ascii.

Lemma append_empty_r (s : string) : (s ++ "")%string = s.
Proof. induction s as [|c s IH]; simpl; [reflexivity | now rewrite IH]. Qed.

Lemma append_assoc (a b c : string) : ((a ++ b) ++ c)%string = (a ++ b ++ c)%string.
Proof. induction a as [|x a IH]; simpl; [reflexivity | now rewrite IH]. Qed.

Lemma append_cancel_l (a x y : string) : (a ++ x)%string = (a ++ y)%string -> x = y.
Proof. induction a as [|c a IH]; simpl; [tauto | intros [= H]; auto]. Qed.

Lemma truthy_append (a b : string) : truthy a = true -> truthy (a ++ b) = true.
Proof. destruct a; [discriminate | reflexivity]. Qed.

Lemma truthy_true (s : string) : truthy s = true <-> s <> "".
Proof.
  unfold truthy. destruct (String.eqb_spec s ""); simpl; split; congruence.
Qed.

Lemma new_key_nonempty (parent_key k : string) :
  truthy parent_key = true ->
  new_key parent_key sep k = (parent_key ++ String sep k)%string.
Proof. unfold new_key. now intros ->. Qed.

Lemma new_key_root (k : string) : new_key "" sep k = k.
Proof. reflexivity. Qed.

(** [split] undoes [join] on segments without the separator. *)
Lemma split_join (rest : list string) :
  Forall (fun s => has_char sep s = false) rest ->
  forall s, has_char sep s = false ->
            split (s ++ path_suffix sep rest) sep = s :: rest.
Proof.
  induction 1 as [|r rest Hr Hrest IH].
  - simpl path_suffix. induction s as [|c s IHs]; simpl; [reflexivity|].
    intros H. apply orb_false_iff in H. destruct H as [Hc Hs].
    rewrite Hc, (IHs Hs). reflexivity.
  - simpl path_suffix. induction s as [|c s IHs]; simpl.
    + intros _. rewrite Ascii.eqb_refl. now rewrite (IH r Hr).
    + intros H. apply orb_false_iff in H. destruct H as [Hc Hs].
      rewrite Hc. now rewrite (IHs Hs).
Qed.

Lemma split_join_path (p : list string) :
  p <> [] -> Forall (fun s => has_char sep s = false) p ->
  split (join sep p) sep = p.
Proof.
  destruct p as [|s rest]; [congruence|].
  intros _ H. inversion H; subst. now apply split_join.
Qed.

Lemma path_suffix_inj (p q : list string) :
  Forall (fun s => has_char sep s = false) p ->
  Forall (fun s => has_char sep s = false) q ->
  path_suffix sep p = path_suffix sep q -> p = q.
Proof.
  intros Hp Hq E.
  assert (H : split ("" ++ path_suffix sep p) sep = split ("" ++ path_suffix sep q) sep)
    by (simpl; now rewrite E).
  rewrite !split_join in H by (assumption || reflexivity).
  now injection H.
Qed.

Lemma path_suffix_cons (key k : string) (p : list string) :
  ((key ++ String sep k) ++ path_suffix sep p)%string
  = (key ++ path_suffix sep (k :: p))%string.
Proof. now rewrite append_assoc. Qed.

(** ** Leaves *)

Lemma leaves_cons (kv : string * value) (d : dict value) :
  leaves (Dict (kv :: d))
  = map (fun ps => (fst kv :: fst ps, snd ps)) (leaves (snd kv)) ++ leaves (Dict d).
Proof. reflexivity. Qed.

Lemma leaves_dict_head (d : dict value) (p : list string) (s : string) :
  In (p, s) (leaves (Dict d)) ->
  exists k q v, p = k :: q /\ In (k, v) d /\ In (q, s) (leaves v).
Proof.
  simpl. rewrite in_flat_map. intros ([k v] & Hin & Hp).
  apply in_map_iff in Hp. destruct Hp as ([q s'] & [= <- <-] & Hq).
  exists k, q, v. simpl in *. auto.
Qed.

Lemma distinct_NoDup (l : list string) : distinct l = true <-> NoDup l.
Proof.
  induction l as [|x l IH]; simpl.
  - split; [constructor | reflexivity].
  - rewrite andb_true_iff, negb_true_iff, IH, NoDup_cons_iff.
    assert (H : existsb (String.eqb x) l = false <-> ~ In x l).
    { split.
      - intros E Hin. assert (existsb (String.eqb x) l = true); [|congruence].
        apply existsb_exists. exists x. split; [assumption | apply String.eqb_refl].
      - intros Hn. destruct (existsb (String.eqb x) l) eqn:E; [|reflexivity].
        apply existsb_exists in E. destruct E as (y & Hy & Exy).
        apply String.eqb_eq in Exy. subst. tauto. }
    now rewrite H.
Qed.

Lemma unique_keys_dict (d : dict value) :
  unique_keys (Dict d) = true <->
  dict_wf d /\ Forall (fun kv => unique_keys (snd kv) = true) d.
Proof.
  simpl. rewrite andb_true_iff, distinct_NoDup, forallb_forall, Forall_forall.
  reflexivity.
Qed.

Lemma sep_free_dict (d : dict value) :
  sep_free sep (Dict d) = true <->
  Forall (fun kv => has_char sep (fst kv) = false /\ sep_free sep (snd kv) = true) d.
Proof.
  simpl. rewrite forallb_forall, Forall_forall.
  split; intros H kv Hin; specialize (H kv Hin).
  - apply andb_true_iff in H. now rewrite negb_true_iff in H.
  - apply andb_true_iff. now rewrite negb_true_iff.
Qed.

(** The segment lists of the leaves are pairwise distinct. *)
Lemma leaves_NoDup (v : value) :
  unique_keys v = true -> NoDup (map fst (leaves v)).
Proof.
  induction v as [s|d IH] using value_ind'; intros Hu.
  - simpl. constructor; [tauto | constructor].
  - apply unique_keys_dict in Hu. destruct Hu as [Hwf Hch].
    unfold dict_wf in Hwf.
    induction d as [|[k v] d IHd]; [constructor|].
    inversion IH as [|? ? IHv IHrest]; subst.
    inversion Hch as [|? ? Hv Hrest]; subst.
    simpl in Hwf. inversion Hwf as [|? ? Hk Hnd]; subst.
    rewrite leaves_cons, map_app. simpl fst.
    apply NoDup_app.
    + rewrite map_map. simpl.
      rewrite <- (map_map fst (cons k)).
      apply NoDup_map_NoDup_ForallPairs; [|now apply IHv].
      intros x y _ _ [= E]. exact E.
    + now apply IHd.
    + intros p Hp Hq. rewrite map_map in Hp. simpl in Hp.
      apply in_map_iff in Hp. destruct Hp as ([q s] & <- & _).
      apply in_map_iff in Hq. destruct Hq as ([q' s'] & E & Hq').
      simpl in E. subst q'. apply leaves_dict_head in Hq'.
      destruct Hq' as (k' & q0 & v' & [= <- <-] & Hin & _).
      apply Hk. change k with (fst (k, v')). now apply in_map.
Qed.

(** The segments of the leaves carry no separator. *)
Lemma leaves_sep_free (v : value) :
  sep_free sep v = true ->
  Forall (fun ps => Forall (fun s => has_char sep s = false) (fst ps)) (leaves v).
Proof.
  induction v as [s|d IH] using value_ind'; intros Hs.
  - simpl. constructor; [constructor | constructor].
  - apply sep_free_dict in Hs.
    induction d as [|[k v] d IHd]; [constructor|].
    inversion IH as [|? ? IHv IHrest]; subst.
    inversion Hs as [|? ? [Hk Hv] Hrest]; subst.
    rewrite leaves_cons. apply Forall_app. split; [|now apply IHd].
    apply Forall_map. simpl in *.
    eapply Forall_impl; [|apply (IHv Hv)].
    intros [q s] Hq. simpl in *. now constructor.
Qed.

Lemma leaves_dict_nonempty (d : dict value) :
  Forall (fun ps => fst ps <> []) (leaves (Dict d)).
Proof.
  apply Forall_forall. intros [p s] Hin.
  apply leaves_dict_head in Hin. destruct Hin as (k & q & v & -> & _).
  simpl. discriminate.
Qed.
End Codec.

Section RoundTrip.
Variable sep : ascii.

Let path_ok (p : list string) : Prop := Forall (fun s => has_char sep s = false) p.

(** ** What [flatten_dict] produces *)

Lemma flatten_entry_dict (d : dict value) (key : string) :
  flatten_entry (Dict d) key sep = flatten_dict d key sep.
Proof. reflexivity. Qed.

Lemma flatten_dict_unfold (d : dict value) (parent_key : string) :
  flatten_dict d parent_key sep
  = dict_of_items
      (flat_map (fun kv => flatten_entry (snd kv) (new_key parent_key sep (fst kv)) sep) d).
Proof. reflexivity. Qed.

Lemma NoDup_map_on (A B : Type) (f : A -> B) (l : list A) :
  (forall x y, In x l -> In y l -> f x = f y -> x = y) ->
  NoDup l -> NoDup (map f l).
Proof.
  intros Hinj Hl. apply NoDup_map_NoDup_ForallPairs; [|assumption].
  intros x y Hx Hy. now apply Hinj.
Qed.

Lemma map_fst_keyed (A B C : Type) (g : A -> C) (L : list (A * B)) :
  map fst (map (fun ps => (g (fst ps), snd ps)) L) = map g (map fst L).
Proof. rewrite !map_map. reflexivity. Qed.

(** Below a non-empty path, the items of an entry are its leaves, each
    under the path extended with the segments that lead to it. *)
Lemma flatten_entry_leaves (v : value) :
  unique_keys v = true -> sep_free sep v = true ->
  forall key, truthy key = true ->
    flatten_entry v key sep
    = map (fun ps => ((key ++ path_suffix sep (fst ps))%string, snd ps)) (leaves v).
Proof.
  induction v as [s|d IH] using value_ind'; intros Hu Hs key Hkey.
  - simpl. now rewrite append_empty_r.
  - rewrite flatten_entry_dict, flatten_dict_unfold.
    assert (E : flat_map
                  (fun kv => flatten_entry (snd kv) (new_key key sep (fst kv)) sep) d
                = map (fun ps => ((key ++ path_suffix sep (fst ps))%string, snd ps))
                    (leaves (Dict d))).
    { apply unique_keys_dict in Hu. destruct Hu as [_ Hch].
      apply sep_free_dict in Hs.
      induction d as [|[k v] d IHd]; [reflexivity|].
      inversion IH as [|? ? IHv IHrest]; subst.
      inversion Hch as [|? ? Hv Hrest]; subst.
      inversion Hs as [|? ? [Hk Hsv] Hsrest]; subst.
      rewrite leaves_cons, map_app. simpl flat_map. simpl in *.
      rewrite (IHd IHrest Hrest Hsrest). f_equal.
      rewrite (IHv Hv Hsv) by (rewrite new_key_nonempty by assumption;
                               now apply truthy_append).
      rewrite map_map. apply map_ext. intros [q s]. simpl.
      rewrite new_key_nonempty by assumption. now rewrite path_suffix_cons. }
    rewrite E. apply dict_of_items_id.
    rewrite (map_fst_keyed _ _ _ (fun p => (key ++ path_suffix sep p)%string)).
    apply NoDup_map_on; [|now apply leaves_NoDup].
    intros p q Hp Hq Epq. apply append_cancel_l in Epq.
    pose proof (leaves_sep_free sep (Dict d) Hs) as Hfree.
    rewrite Forall_forall in Hfree.
    apply in_map_iff in Hp. destruct Hp as (x & <- & Hx).
    apply in_map_iff in Hq. destruct Hq as (y & <- & Hy).
    apply (path_suffix_inj sep); auto.
Qed.

Lemma root_ok_entries (d : dict value) :
  dict_wf d -> root_ok d = true ->
  Forall (fun kv => fst kv = "" -> exists s, snd kv = Str s) d.
Proof.
  intros Hwf Hroot. apply Forall_forall. intros [k v] Hin Hk. simpl in *. subst k.
  unfold root_ok in Hroot. rewrite (dict_wf_get _ _ _ _ Hwf Hin) in Hroot.
  destruct v as [s|d']; [now exists s | discriminate].
Qed.

(** At the root, the keys are the joined segments. *)
Lemma flatten_dict_leaves (d : dict value) :
  unique_keys (Dict d) = true -> sep_free sep (Dict d) = true -> root_ok d = true ->
  flatten_dict d "" sep
  = map (fun ps => (join sep (fst ps), snd ps)) (leaves (Dict d)).
Proof.
  intros Hu Hs Hroot. rewrite flatten_dict_unfold.
  assert (E : flat_map
                (fun kv => flatten_entry (snd kv) (new_key "" sep (fst kv)) sep) d
              = map (fun ps => (join sep (fst ps), snd ps)) (leaves (Dict d))).
  { pose proof Hu as Hu'. apply unique_keys_dict in Hu'. destruct Hu' as [Hwf Hch].
    pose proof (root_ok_entries d Hwf Hroot) as Hr.
    pose proof Hs as Hs'. apply sep_free_dict in Hs'.
    clear Hu Hs Hroot Hwf.
    induction d as [|[k v] d IHd]; [reflexivity|].
    inversion Hch as [|? ? Hv Hrest]; subst.
    inversion Hs' as [|? ? [Hk Hsv] Hsrest]; subst.
    inversion Hr as [|? ? Hrk Hrrest]; subst.
    rewrite leaves_cons, map_app. simpl flat_map. simpl in *.
    rewrite (IHd Hrest Hrrest Hsrest). f_equal.
    rewrite new_key_root, map_map. simpl.
    destruct (String.eqb_spec k "") as [->|Hne].
    - destruct (Hrk eq_refl) as [s ->]. reflexivity.
    - apply flatten_entry_leaves; try assumption. now apply truthy_true. }
  rewrite E. apply dict_of_items_id.
  rewrite (map_fst_keyed _ _ _ (join sep)).
  apply NoDup_map_on; [|now apply leaves_NoDup].
  intros p q Hp Hq Epq.
  pose proof (leaves_sep_free sep (Dict d) Hs) as Hfree.
  pose proof (leaves_dict_nonempty d) as Hne.
  rewrite Forall_forall in Hfree, Hne.
  apply in_map_iff in Hp. destruct Hp as (x & <- & Hx).
  apply in_map_iff in Hq. destruct Hq as (y & <- & Hy).
  rewrite <- (split_join_path sep (fst x)), <- (split_join_path sep (fst y)); auto.
  now rewrite Epq.
Qed.

(** ** What [unflatten_dict] does with such keys *)

Lemma unflatten_joined (L : list (list string * string)) :
  Forall (fun ps => fst ps <> [] /\ path_ok (fst ps)) L ->
  forall r, fold_left (unflatten_step sep)
              (map (fun ps => (join sep (fst ps), snd ps)) L) r
            = set_paths r L.
Proof.
  induction 1 as [|[p s] L [Hne Hp] HL IH]; intros r; [reflexivity|].
  simpl. rewrite IH. unfold set_paths at 2. simpl. fold (set_paths).
  unfold unflatten_step at 1. simpl in *.
  now rewrite split_join_path.
Qed.

Lemma set_paths_none (L : list (list string * string)) : set_paths None L = None.
Proof. induction L as [|p L IH]; [reflexivity | exact IH]. Qed.

Lemma set_paths_cons r p (L : list (list string * string)) :
  set_paths (Some r) (p :: L) = set_paths (set_path r (fst p) (snd p)) L.
Proof. reflexivity. Qed.

Lemma set_paths_app r (L1 L2 : list (list string * string)) :
  set_paths r (L1 ++ L2) = set_paths (set_paths r L1) L2.
Proof. apply fold_left_app. Qed.

Lemma set_path_cons (cur : dict value) (k : string) (q : list string) (s : string) :
  q <> [] ->
  set_path cur (k :: q) s
  = match dict_get cur k with
    | None => option_map (fun sub => dict_set cur k (Dict sub)) (set_path [] q s)
    | Some (Dict sub) =>
        option_map (fun sub' => dict_set cur k (Dict sub')) (set_path sub q s)
    | Some (Str _) => None
    end.
Proof. destruct q; [congruence | reflexivity]. Qed.

Lemma dict_set_set (V : Type) (d : dict V) (k : string) (a b : V) :
  dict_set (dict_set d k a) k b = dict_set d k b.
Proof.
  induction d as [|[k' v'] d IH]; simpl.
  - now rewrite String.eqb_refl.
  - destruct (String.eqb_spec k' k) as [->|Hne]; simpl.
    + now rewrite String.eqb_refl.
    + apply String.eqb_neq in Hne. rewrite Hne. now rewrite IH.
Qed.

Lemma dict_set_nonempty (V : Type) (d : dict V) (k : string) (v : V) :
  dict_set d k v <> [].
Proof. destruct d as [|[k' v'] d]; simpl; [|destruct (k' =? k)]; discriminate. Qed.

Lemma set_path_nonempty (cur : dict value) (q : list string) (s : string) r :
  set_path cur q s = Some r -> r <> [].
Proof.
  destruct q as [|k q]; [discriminate|].
  destruct q as [|k' q].
  - simpl. intros [= <-]. apply dict_set_nonempty.
  - rewrite set_path_cons by discriminate.
    destruct (dict_get cur k) as [[?|sub]|]; [discriminate| |];
      destruct (set_path _ (k' :: q) s); simpl; try discriminate;
      intros [= <-]; apply dict_set_nonempty.
Qed.

Lemma set_paths_nonempty (L : list (list string * string)) :
  forall r0 r, r0 <> [] -> set_paths (Some r0) L = Some r -> r <> [].
Proof.
  induction L as [|p L IH]; intros r0 r Hr0.
  - now intros [= <-].
  - rewrite set_paths_cons.
    destruct (set_path r0 (fst p) (snd p)) as [r1|] eqn:E.
    + apply IH. eapply set_path_nonempty; eassumption.
    + now rewrite set_paths_none.
Qed.

(** Paths below a key that holds a mapping are set inside that mapping. *)
Lemma set_paths_below (L : list (list string * string)) :
  Forall (fun ps => fst ps <> []) L ->
  forall cur sub k,
    dict_get cur k = Some (Dict sub) ->
    set_paths (Some cur) (map (fun ps => (k :: fst ps, snd ps)) L)
    = option_map (fun sub' => dict_set cur k (Dict sub')) (set_paths (Some sub) L).
Proof.
  induction 1 as [|[q s] L Hq HL IH]; intros cur sub k Hget.
  - simpl. now rewrite dict_set_same.
  - simpl map. rewrite !set_paths_cons. simpl fst. simpl snd. simpl in Hq.
    rewrite set_path_cons, Hget by assumption.
    destruct (set_path sub q s) as [sub1|]; simpl.
    + rewrite (IH (dict_set cur k (Dict sub1)) sub1 k) by apply dict_get_set_eq.
      destruct (set_paths (Some sub1) L); simpl; [|reflexivity].
      now rewrite dict_set_set.
    + now rewrite !set_paths_none.
Qed.

(** Paths below a new key create its mapping at the end. *)
Lemma set_paths_new (L : list (list string * string)) :
  L <> [] -> Forall (fun ps => fst ps <> []) L ->
  forall cur k,
    dict_get cur k = None ->
    set_paths (Some cur) (map (fun ps => (k :: fst ps, snd ps)) L)
    = option_map (fun sub' => cur ++ [(k, Dict sub')]) (set_paths (Some []) L).
Proof.
  intros HL Hall cur k Hget.
  destruct L as [|[q s] L]; [congruence|].
  inversion Hall as [|? ? Hq Hrest]; subst. simpl in Hq.
  simpl map. rewrite !set_paths_cons. simpl fst. simpl snd.
  rewrite set_path_cons, Hget by assumption.
  destruct (set_path [] q s) as [sub1|]; simpl.
  - rewrite (set_paths_below L Hrest (dict_set cur k (Dict sub1)) sub1 k)
      by apply dict_get_set_eq.
    destruct (set_paths (Some sub1) L); simpl; [|reflexivity].
    rewrite dict_set_set. now rewrite dict_set_new.
  - now rewrite !set_paths_none.
Qed.
End RoundTrip.

Section Prune.
Variable sep : ascii.

Lemma prune_dict_unfold (d : dict value) :
  prune (Dict d) = match prune_dict d with
                   | [] => None
                   | d' => Some (Dict d')
                   end.
Proof. reflexivity. Qed.

Lemma prune_dict_cons (kv : string * value) (d : dict value) :
  prune_dict (kv :: d) = prune_entry kv ++ prune_dict d.
Proof. reflexivity. Qed.

Lemma no_empty_dict_entries (d : dict value) :
  no_empty_dict (Dict d) = true <->
  Forall (fun kv => is_empty_dict (snd kv) = false /\ no_empty_dict (snd kv) = true) d.
Proof.
  simpl. rewrite forallb_forall, Forall_forall.
  split; intros H kv Hin; specialize (H kv Hin).
  - apply andb_true_iff in H. now rewrite negb_true_iff in H.
  - apply andb_true_iff. now rewrite negb_true_iff.
Qed.

(** Pruning changes nothing where there is no empty mapping. *)
Lemma prune_id (v : value) :
  no_empty_dict v = true -> is_empty_dict v = false -> prune v = Some v.
Proof.
  induction v as [s|d IH] using value_ind'; intros Hn He; [reflexivity|].
  assert (E : prune_dict d = d).
  { apply no_empty_dict_entries in Hn. clear He.
    induction d as [|[k v] d IHd]; [reflexivity|].
    inversion IH as [|? ? IHv IHrest]; subst.
    inversion Hn as [|? ? [He Hv] Hrest]; subst. simpl in He, Hv, IHv.
    rewrite prune_dict_cons, (IHd IHrest Hrest).
    unfold prune_entry. simpl. now rewrite (IHv Hv He). }
  rewrite prune_dict_unfold, E. destruct d; [discriminate | reflexivity].
Qed.

Lemma prune_dict_id (d : dict value) :
  no_empty_dict (Dict d) = true -> prune_dict d = d.
Proof.
  intros Hn. destruct d as [|kv d]; [reflexivity|].
  pose proof (prune_id (Dict (kv :: d)) Hn eq_refl) as H.
  rewrite prune_dict_unfold in H.
  destruct (prune_dict (kv :: d)); [discriminate | congruence].
Qed.

(** ** Rebuilding from the leaves *)

Lemma dict_get_app_none (V : Type) (d1 d2 : dict V) (k : string) :
  dict_get d1 k = None -> dict_get d2 k = None -> dict_get (d1 ++ d2) k = None.
Proof.
  rewrite !dict_get_none. unfold dict_keys. rewrite map_app, in_app_iff. tauto.
Qed.

Lemma prune_entry_key (k k' : string) (v : value) :
  k <> k' -> dict_get (prune_entry (k, v)) k' = None.
Proof.
  intros Hne. unfold prune_entry. simpl. destruct (prune v); [|reflexivity].
  simpl. apply String.eqb_neq in Hne. now rewrite Hne.
Qed.

(** Setting the leaves of the entries of a mapping, one after the other,
    appends the pruned entries. *)
Lemma set_paths_entries (d : dict value) :
  Forall (fun kv => forall cur k,
              dict_get cur k = None ->
              set_paths (Some cur)
                (map (fun ps => (k :: fst ps, snd ps)) (leaves (snd kv)))
              = Some (cur ++ prune_entry (k, snd kv))) d ->
  dict_wf d ->
  forall cur,
    (forall k, In k (dict_keys d) -> dict_get cur k = None) ->
    set_paths (Some cur) (leaves (Dict d)) = Some (cur ++ prune_dict d).
Proof.
  unfold dict_wf.
  induction 1 as [|[k v] d Hv Hd IH]; intros Hwf cur Hcur.
  - simpl. now rewrite app_nil_r.
  - simpl in Hwf. inversion Hwf as [|? ? Hk Hnd]; subst.
    rewrite leaves_cons, set_paths_app. simpl fst. simpl snd.
    simpl in Hv. rewrite (Hv cur k) by (apply Hcur; now left).
    rewrite (IH Hnd).
    + now rewrite prune_dict_cons, app_assoc.
    + intros k' Hk'. apply dict_get_app_none.
      * apply Hcur. now right.
      * apply prune_entry_key. intros ->. contradiction.
Qed.

(** Setting the leaves of one entry under a new key appends the pruned
    entry. *)
Lemma set_paths_entry (v : value) :
  unique_keys v = true ->
  forall cur k,
    dict_get cur k = None ->
    set_paths (Some cur) (map (fun ps => (k :: fst ps, snd ps)) (leaves v))
    = Some (cur ++ prune_entry (k, v)).
Proof.
  induction v as [s|d IH] using value_ind'; intros Hu cur k Hget.
  - simpl. unfold set_paths. simpl. now rewrite dict_set_new.
  - apply unique_keys_dict in Hu. destruct Hu as [Hwf Hch].
    assert (HL : set_paths (Some []) (leaves (Dict d)) = Some (prune_dict d)).
    { apply (set_paths_entries d); [|assumption | reflexivity].
      rewrite Forall_forall in *. intros kv Hin. now apply IH, Hch. }
    unfold prune_entry. simpl fst. simpl snd. rewrite prune_dict_unfold.
    destruct (leaves (Dict d)) as [|p L] eqn:EL.
    + injection HL as <-. simpl. now rewrite app_nil_r.
    + rewrite set_paths_new; [| discriminate | rewrite <- EL; apply leaves_dict_nonempty
                              | assumption].
      rewrite HL. simpl.
      assert (Hne : prune_dict d <> []).
      { rewrite set_paths_cons in HL.
        destruct (set_path [] (fst p) (snd p)) as [r1|] eqn:E1;
          [|now rewrite set_paths_none in HL].
        eapply set_paths_nonempty; [|exact HL].
        eapply set_path_nonempty; eassumption. }
      destruct (prune_dict d); [congruence | reflexivity].
Qed.

(** The round trip returns the catalog without its leafless subtrees. *)
Lemma round_trip_prune (C : dict value) :
  unique_keys (Dict C) = true -> sep_free sep (Dict C) = true -> root_ok C = true ->
  unflatten_dict (flatten_dict C "" sep) sep = Some (prune_dict C).
Proof.
  intros Hu Hs Hroot.
  rewrite flatten_dict_leaves by assumption.
  unfold unflatten_dict. rewrite unflatten_joined.
  - pose proof Hu as Hu'. apply unique_keys_dict in Hu'. destruct Hu' as [Hwf Hch].
    apply (set_paths_entries C); [|assumption | reflexivity].
    rewrite Forall_forall in *. intros kv Hin. now apply set_paths_entry, Hch.
  - pose proof (leaves_sep_free sep (Dict C) Hs) as Hfree.
    pose proof (leaves_dict_nonempty C) as Hne.
    rewrite Forall_forall in *. intros ps Hin. split; auto.
Qed.

(** ** [unflatten_dict] creates no empty mapping *)

Lemma forallb_dict_set (V : Type) (f : string * V -> bool) (d : dict V) k v :
  forallb f d = true -> f (k, v) = true -> forallb f (dict_set d k v) = true.
Proof.
  intros Hd Hf. induction d as [|[k' v'] d IH]; simpl in *.
  - now rewrite Hf.
  - apply andb_true_iff in Hd. destruct Hd as [H1 H2].
    destruct (String.eqb_spec k' k) as [->|Hne]; simpl.
    + now rewrite Hf, H2.
    + now rewrite H1, IH.
Qed.

Lemma set_path_no_empty (keys : list string) :
  forall cur s r,
    no_empty_dict (Dict cur) = true ->
    set_path cur keys s = Some r -> no_empty_dict (Dict r) = true.
Proof.
  induction keys as [|k q IH]; intros cur s r Hcur; [discriminate|].
  destruct q as [|k' q].
  - simpl set_path. intros [= <-]. now apply forallb_dict_set.
  - rewrite set_path_cons by discriminate.
    destruct (dict_get cur k) as [[?|sub]|] eqn:Hget; [discriminate| |].
    + destruct (set_path sub (k' :: q) s) as [sub'|] eqn:E; [|discriminate].
      simpl option_map. intros [= <-].
      apply forallb_dict_set; [assumption|].
      change (negb (is_empty_dict (Dict sub')) && no_empty_dict (Dict sub') = true).
      assert (Hsub : no_empty_dict (Dict sub) = true).
      { apply dict_get_some_in in Hget.
        apply no_empty_dict_entries in Hcur. rewrite Forall_forall in Hcur.
        now apply (Hcur _ Hget). }
      rewrite (IH sub s sub' Hsub E).
      pose proof (set_path_nonempty _ _ _ _ E) as Hne.
      destruct sub'; [congruence | reflexivity].
    + destruct (set_path [] (k' :: q) s) as [sub'|] eqn:E; [|discriminate].
      simpl option_map. intros [= <-].
      apply forallb_dict_set; [assumption|].
      change (negb (is_empty_dict (Dict sub')) && no_empty_dict (Dict sub') = true).
      rewrite (IH [] s sub' eq_refl E).
      pose proof (set_path_nonempty _ _ _ _ E) as Hne.
      destruct sub'; [congruence | reflexivity].
Qed.

Lemma unflatten_no_empty (flat : dict string) :
  forall r0 r,
    no_empty_dict (Dict r0) = true ->
    fold_left (unflatten_step sep) flat (Some r0) = Some r ->
    no_empty_dict (Dict r) = true.
Proof.
  induction flat as [|[k s] flat IH]; intros r0 r Hr0.
  - now intros [= <-].
  - simpl fold_left.
    destruct (set_path r0 (split k sep) s) as [r1|] eqn:E.
    + apply IH. eapply set_path_no_empty; eassumption.
    + assert (Hnone : forall l, fold_left (unflatten_step sep) l None = None)
        by (induction l; [reflexivity | assumption]).
      now rewrite Hnone.
Qed.

Lemma flatten_dict_drop_empty (pre post : dict value) (k parent_key : string) :
  flatten_dict (pre ++ (k, Dict []) :: post) parent_key sep
  = flatten_dict (pre ++ post) parent_key sep.
Proof.
  unfold flatten_dict. now rewrite !flat_map_app.
Qed.
End Prune.

(** C3, as amended. For a catalog with pairwise distinct keys in every
    mapping, no separator in any key, no empty mapping under any key and no
    mapping under an empty root key, unflattening the flattened catalog
    gives the catalog back, keys in the same order. *)
Theorem round_trip :
  forall (sep : ascii) (C : dict value),
    unique_keys (Dict C) = true ->
    sep_free sep (Dict C) = true ->
    no_empty_dict (Dict C) = true ->
    root_ok C = true ->
    unflatten_dict (flatten_dict C "" sep) sep = Some C.
Proof.
  intros sep C Hu Hs Hn Hroot.
  rewrite round_trip_prune by assumption.
  now rewrite prune_dict_id.
Qed.

(** C8. An entry that holds an empty mapping adds nothing to the flattened
    catalog, at the root or below any path.  Hence whatever
    [unflatten_dict] rebuilds from a flattened catalog has no empty mapping
    under any key, and for a catalog with distinct keys, no separator in a
    key and no mapping under an empty root key it rebuilds the catalog
    without its leafless subtrees. *)
Theorem empty_mappings_discarded :
  forall (sep : ascii),
    (forall (pre post : dict value) (k parent_key : string),
        flatten_dict (pre ++ (k, Dict []) :: post) parent_key sep
        = flatten_dict (pre ++ post) parent_key sep)
    /\ (forall (C r : dict value),
           no_empty_dict (Dict C) = false ->
           unflatten_dict (flatten_dict C "" sep) sep = Some r ->
           no_empty_dict (Dict r) = true /\ r <> C)
    /\ (forall (C : dict value),
           unique_keys (Dict C) = true -> sep_free sep (Dict C) = true ->
           root_ok C = true ->
           unflatten_dict (flatten_dict C "" sep) sep = Some (prune_dict C)).
Proof.
  intros sep. split; [|split].
  - intros pre post k parent_key. apply flatten_dict_drop_empty.
  - intros C r HC Hr.
    assert (H : no_empty_dict (Dict r) = true).
    { eapply unflatten_no_empty; [|exact Hr]. reflexivity. }
    split; [exact H | congruence].
  - intros C. apply round_trip_prune.
Qed.

Lemma round_trip_witness :
  unique_keys (Dict ex_catalog) = true
  /\ sep_free bar (Dict ex_catalog) = true
  /\ no_empty_dict (Dict ex_catalog) = true
  /\ root_ok ex_catalog = true
  /\ unflatten_dict (flatten_dict ex_catalog "" bar) bar = Some ex_catalog.
Proof.
  repeat (split; [reflexivity|]).
  apply (round_trip bar ex_catalog); reflexivity.
Defined.

(** The round trip as C3 states it fails on a catalog that holds an empty
    mapping, and on one that holds a mapping under an empty root key: in
    both no key has the separator, and what comes back is not equal to the
    catalog, whatever the order of the keys. *)
Lemma round_trip_counterexample :
  (sep_free bar (Dict [("a", Dict [])]) = true
   /\ unflatten_dict (flatten_dict [("a", Dict [])] "" bar) bar = Some []
   /\ value_eqb (Dict []) (Dict [("a", Dict [])]) = false)
  /\ (sep_free bar (Dict [("", Dict [("b", Str "x")])]) = true
      /\ unflatten_dict (flatten_dict [("", Dict [("b", Str "x")])] "" bar) bar
         = Some [("b", Str "x")]
      /\ value_eqb (Dict [("b", Str "x")]) (Dict [("", Dict [("b", Str "x")])]) = false).
Proof. repeat split; reflexivity. Qed.

Lemma empty_mappings_discarded_witness :
  no_empty_dict (Dict [("a", Dict []); ("b", Str "x")]) = false
  /\ unflatten_dict (flatten_dict [("a", Dict []); ("b", Str "x")] "" bar) bar
     = Some [("b", Str "x")]
  /\ no_empty_dict (Dict [("b", Str "x")]) = true
  /\ [("b", Str "x")] <> [("a", Dict []); ("b", Str "x")].
Proof.
  split; [reflexivity|]. split; [reflexivity|].
  destruct (empty_mappings_discarded bar) as (_ & H & _).
  apply (H [("a", Dict []); ("b", Str "x")] [("b", Str "x")]); reflexivity.
Defined.

(** * The previous snapshot *)

Lemma option_traverse_lookup (m : dict string) (l : list string) :
  (forall k, In k l -> dict_in k m = true) ->
  exists items,
    option_traverse (fun k => option_map (pair k) (dict_get m k)) l = Some items
    /\ dict_keys items = l
    /\ forall k v, In (k, v) items -> dict_get m k = Some v.
Proof.
  induction l as [|k l IH]; intros Hl.
  - exists []. repeat split. intros k v [].
  - destruct IH as (items & E & Hkeys & Hitems); [intros k' Hk'; apply Hl; now right|].
    assert (Hk : dict_in k m = true) by (apply Hl; now left).
    unfold dict_in in Hk. destruct (dict_get m k) as [v|] eqn:Ev; [|discriminate].
    exists ((k, v) :: items). simpl. rewrite Ev, E. simpl.
    split; [reflexivity|]. split; [now rewrite Hkeys|].
    intros k' v' [[= <- <-]|Hin]; auto.
Qed.

(** Writing items taken from a mapping gives its value to every key written. *)
Lemma dict_get_update_from (m : dict string) (o : dict string) :
  (forall k v, In (k, v) o -> dict_get m k = Some v) ->
  forall d k, In k (dict_keys o) -> dict_get (dict_update d o) k = dict_get m k.
Proof.
  induction o as [|[k' v'] o IH]; intros Ho d k Hin; [destruct Hin|].
  rewrite dict_update_cons.
  destruct (in_dec string_dec k (dict_keys o)) as [Hk|Hk].
  - apply IH; [|assumption]. intros k0 v0 H0. apply Ho. now right.
  - rewrite dict_get_update_notin by assumption.
    simpl in Hin. destruct Hin as [->|Hin]; [|contradiction].
    rewrite dict_get_set_eq. symmetry. apply Ho. now left.
Qed.

Lemma detect_changes_all_new (current : dict value) (k : string) :
  In k (detect_changes current []) <-> dict_in k (flatten_dict current "" bar) = true.
Proof.
  rewrite (detect_changes_iff current [] k).
  unfold dict_in. destruct (dict_get (flatten_dict current "" bar) k) as [v|].
  - split; [reflexivity|]. intros _. exists v. split; [reflexivity | now left].
  - split; [intros (v & [=] & _) | discriminate].
Qed.

(** C7, as amended. When the repository opens, the fetch succeeds and the
    revisions of the file are listed: the previous snapshot is the empty
    catalog if fewer than two revisions touched the file, or if reading or
    decoding the file at the second most recent one raises, and with a
    current catalog that is a mapping [get_keys_to_translate] then returns
    every flattened path of the current catalog with its value; and when
    the file at the second most recent revision decodes, to a mapping or to
    a string, the previous snapshot is what it decodes to. *)
Theorem snapshot_degrades :
  forall (env : environment) (r : repository) (input_file : string)
         (history : list commit),
    repo env = Some r ->
    fetch_all r = true ->
    iter_commits r input_file = Some history ->
    ((List.length history < 2
      \/ exists c0 c1 rest,
           history = c0 :: c1 :: rest /\ blob_json c1 input_file = None) ->
     load_en_changes_from_last_commits env input_file = Some (Dict [])
     /\ forall (set_iter : list string -> list string) (current : dict value),
          (forall l k, In k (set_iter l) <-> In k l) ->
          json_file env input_file = Some (Dict current) ->
          exists to_translate,
            get_keys_to_translate set_iter env input_file = Some to_translate
            /\ forall k, dict_get to_translate k = dict_get (flatten_dict current "" bar) k)
    /\ (forall (c0 c1 : commit) (rest : list commit) (previous_version : value),
          history = c0 :: c1 :: rest ->
          blob_json c1 input_file = Some previous_version ->
          load_en_changes_from_last_commits env input_file = Some previous_version).
Proof.
  intros env r input_file history Hrepo Hfetch Hlist.
  split.
  2:{ intros c0 c1 rest previous_version -> Hblob.
      unfold load_en_changes_from_last_commits. rewrite Hrepo, Hfetch, Hlist.
      simpl. now rewrite Hblob. }
  intros Hhist.
  assert (Hload : load_en_changes_from_last_commits env input_file = Some (Dict [])).
  { unfold load_en_changes_from_last_commits. rewrite Hrepo, Hfetch, Hlist.
    destruct Hhist as [Hlen|(c0 & c1 & rest & -> & Hblob)].
    - destruct history as [|c0 [|c1 rest]]; simpl in *;
        [reflexivity | reflexivity | lia].
    - simpl. now rewrite Hblob. }
  split; [exact Hload|].
  intros set_iter current Hiter Hfile.
  unfold get_keys_to_translate, load_en_dict. rewrite Hfile, Hload. simpl items_of.
  set (en_flat := flatten_dict current "" bar).
  destruct (option_traverse_lookup en_flat (set_iter (detect_changes current [])))
    as (items & E & Hkeys & Hitems).
  { intros k Hk. apply (proj1 (Hiter _ _)) in Hk.
    now apply (proj1 (detect_changes_all_new current k)). }
  cbv zeta. fold en_flat. rewrite E. simpl option_map.
  exists (dict_of_items items). split; [reflexivity|].
  intros k. unfold dict_of_items.
  destruct (dict_get en_flat k) as [v|] eqn:Ev.
  - rewrite (dict_get_update_from en_flat items Hitems); [assumption|].
    rewrite Hkeys. apply (proj2 (Hiter _ _)).
    apply (proj2 (detect_changes_all_new current k)).
    unfold dict_in. fold en_flat. now rewrite Ev.
  - rewrite dict_get_update_notin; [reflexivity|].
    rewrite Hkeys. intros Hin. apply (proj1 (Hiter _ _)) in Hin.
    apply (proj1 (detect_changes_all_new current k)) in Hin.
    unfold dict_in in Hin. fold en_flat in Hin. now rewrite Ev in Hin.
Qed.

Lemma snapshot_degrades_witness :
  (repo ex_env_new
   = Some {| fetch_all := true;
             iter_commits := fun _ => Some [ {| blob_json := fun _ => None |} ] |}
   /\ List.length [ {| blob_json := fun _ : string => @None value |} ] < 2
   /\ load_en_changes_from_last_commits ex_env_new en_json = Some (Dict [])
   /\ exists to_translate,
        get_keys_to_translate (fun l => l) ex_env_new en_json = Some to_translate
        /\ forall k, dict_get to_translate k = dict_get (flatten_dict ex_catalog "" bar) k)
  /\ load_en_changes_from_last_commits ex_env_run en_json
     = Some (Dict [("en", Dict [("a", Str "Hi")])]).
Proof.
  split.
  - split; [reflexivity|]. split; [simpl; lia|].
    destruct (snapshot_degrades ex_env_new
                {| fetch_all := true;
                   iter_commits := fun _ => Some [ {| blob_json := fun _ => None |} ] |}
                en_json [ {| blob_json := fun _ => None |} ] eq_refl eq_refl eq_refl)
      as [Hempty _].
    destruct Hempty as [Hload Hkeys]; [left; simpl; lia|].
    split; [exact Hload|].
    apply (Hkeys (fun l => l) ex_catalog); [tauto | reflexivity].
  - destruct (snapshot_degrades ex_env_run
                {| fetch_all := true;
                   iter_commits := fun _ =>
                     Some [ {| blob_json := fun _ => None |};
                            {| blob_json := fun _ =>
                                 Some (Dict [("en", Dict [("a", Str "Hi")])]) |} ] |}
                en_json
                [ {| blob_json := fun _ => None |};
                  {| blob_json := fun _ => Some (Dict [("en", Dict [("a", Str "Hi")])]) |} ]
                eq_refl eq_refl eq_refl) as [_ Hdecoded].
    apply (Hdecoded {| blob_json := fun _ => None |}
             {| blob_json := fun _ => Some (Dict [("en", Dict [("a", Str "Hi")])]) |}
             []); reflexivity.
Defined.

(** The snapshot retrieval as C7 states it fails in two ways.  A second most
    recent revision whose content decodes to a JSON value that is not a
    mapping is returned as it is, and [get_keys_to_translate] raises on it;
    and with fewer than two revisions the retrieval raises when the fetch
    fails. *)
Lemma snapshot_counterexample :
  (load_en_changes_from_last_commits ex_env_scalar en_json = Some (Str "oops")
   /\ get_keys_to_translate (fun l => l) ex_env_scalar en_json = None)
  /\ (option_map (@List.length commit)
        (match repo ex_env_offline with
         | Some r => iter_commits r en_json
         | None => None
         end) = Some 1
      /\ load_en_changes_from_last_commits ex_env_offline en_json = None
      /\ get_keys_to_translate (fun l => l) ex_env_offline en_json = None).
Proof. repeat split; reflexivity. Qed.

(** * Serialization *)

Section KeyOrder.
Lemma leb_compare (a b : string) :
  String.leb a b = true <-> String.compare a b <> Gt.
Proof.
  unfold String.leb. destruct (String.compare a b); split; congruence.
Qed.

Lemma leb_trans (a b c : string) :
  String.leb a b = true -> String.leb b c = true -> String.leb a c = true.
Proof.
  rewrite !leb_compare. intros Hab Hbc Hac.
  assert (Hca : String_as_OT.lt c a).
  { apply String_as_OT.cmp_lt. unfold String_as_OT.cmp.
    rewrite String.compare_antisym, Hac. reflexivity. }
  destruct (String.compare a b) eqn:Eab; [| |congruence].
  - apply String.compare_eq_iff in Eab. subst b. congruence.
  - assert (Hlab : String_as_OT.lt a b) by now apply String_as_OT.cmp_lt.
    pose proof (@String_as_OT.lt_trans c a b Hca Hlab) as Hcb.
    apply String_as_OT.cmp_lt in Hcb. unfold String_as_OT.cmp in Hcb.
    rewrite String.compare_antisym, Hcb in Hbc. now apply Hbc.
Qed.

Lemma leb_false_flip (a b : string) :
  String.leb a b = false -> String.leb b a = true.
Proof.
  intros H. destruct (String.leb_total a b) as [E|E]; [congruence | exact E].
Qed.

Variable V : Type.
Implicit Types (x y : string * V) (l : list (string * V)).

Let key_le x y : Prop := String.leb (fst x) (fst y) = true.

Lemma insert_sorted_comm x y l :
  fst x <> fst y ->
  insert_sorted x (insert_sorted y l) = insert_sorted y (insert_sorted x l).
Proof.
  intros Hne. induction l as [|z l IH]; simpl.
  - destruct (String.leb (fst x) (fst y)) eqn:Exy;
      destruct (String.leb (fst y) (fst x)) eqn:Eyx; try reflexivity.
    + exfalso. apply Hne. now apply String.leb_antisym.
    + apply leb_false_flip in Exy. congruence.
  - destruct (String.leb (fst y) (fst z)) eqn:Eyz;
      destruct (String.leb (fst x) (fst z)) eqn:Exz; simpl;
      rewrite ?Eyz, ?Exz.
    + destruct (String.leb (fst x) (fst y)) eqn:Exy;
        destruct (String.leb (fst y) (fst x)) eqn:Eyx; simpl;
        rewrite ?Eyz, ?Exz; try reflexivity.
      * exfalso. apply Hne. now apply String.leb_antisym.
      * apply leb_false_flip in Exy. congruence.
    + destruct (String.leb (fst x) (fst y)) eqn:Exy; simpl; rewrite ?Exz.
      * rewrite (leb_trans _ _ _ Exy Eyz) in Exz. discriminate.
      * reflexivity.
    + destruct (String.leb (fst y) (fst x)) eqn:Eyx; simpl; rewrite ?Eyz.
      * rewrite (leb_trans _ _ _ Eyx Exz) in Eyz. discriminate.
      * reflexivity.
    + now rewrite IH.
Qed.

Lemma sorted_items_cons x l :
  sorted_items (x :: l) = insert_sorted x (sorted_items l).
Proof. reflexivity. Qed.

(** Items in any two orders are put in the same order. *)
Lemma sorted_items_perm l1 l2 :
  Permutation l1 l2 -> NoDup (map fst l1) -> sorted_items l1 = sorted_items l2.
Proof.
  induction 1 as [|x l1 l2 Hp IH|x y l|l1 l2 l3 H12 IH12 H23 IH23]; intros Hnd.
  - reflexivity.
  - rewrite !sorted_items_cons, IH; [reflexivity|].
    simpl in Hnd. now inversion Hnd.
  - rewrite !sorted_items_cons. apply insert_sorted_comm.
    simpl in Hnd. inversion Hnd as [|? ? Hin _]; subst.
    intros E. apply Hin. now left.
  - rewrite IH12 by assumption. apply IH23.
    eapply Permutation_NoDup; [|exact Hnd]. now apply Permutation_map.
Qed.

Lemma insert_sorted_perm x l : Permutation (x :: l) (insert_sorted x l).
Proof.
  induction l as [|z l IH]; simpl; [reflexivity|].
  destruct (String.leb (fst x) (fst z)); [reflexivity|].
  rewrite perm_swap. now apply perm_skip.
Qed.

Lemma sorted_items_permutation l : Permutation l (sorted_items l).
Proof.
  induction l as [|x l IH]; [reflexivity|].
  rewrite sorted_items_cons, <- insert_sorted_perm. now apply perm_skip.
Qed.

Lemma insert_sorted_sorted x l : Sorted key_le l -> Sorted key_le (insert_sorted x l).
Proof.
  induction 1 as [|z l Hl IH Hz]; simpl.
  - repeat constructor.
  - destruct (String.leb (fst x) (fst z)) eqn:Exz.
    + constructor; [now constructor | now constructor].
    + constructor; [exact IH|].
      destruct l as [|z' l]; simpl.
      * constructor. now apply leb_false_flip.
      * destruct (String.leb (fst x) (fst z')); constructor;
          [now apply leb_false_flip | now inversion Hz].
Qed.

Lemma sorted_items_sorted l : Sorted key_le (sorted_items l).
Proof.
  induction l as [|x l IH]; [constructor|].
  rewrite sorted_items_cons. now apply insert_sorted_sorted.
Qed.

(** Items already in key order stay as they are. *)
Lemma sorted_items_id l : Sorted key_le l -> sorted_items l = l.
Proof.
  induction 1 as [|x l Hl IH Hx]; [reflexivity|].
  rewrite sorted_items_cons, IH.
  destruct Hx as [|y l Hxy]; [reflexivity|].
  simpl. unfold key_le in Hxy. now rewrite Hxy.
Qed.

Lemma dict_get_app_skip (pre rest : list (string * V)) k k' (v : V) :
  k <> k' -> dict_get (pre ++ (k, v) :: rest) k' = dict_get (pre ++ rest) k'.
Proof.
  intros Hne. induction pre as [|[k0 v0] pre IHp]; simpl.
  - apply String.eqb_neq in Hne. now rewrite Hne.
  - now rewrite IHp.
Qed.

(** Two dictionaries with the same lookups hold the same items. *)
Lemma dict_same_lookup_perm l1 :
  forall l2, dict_wf l1 -> dict_wf l2 ->
             (forall k, dict_get l1 k = dict_get l2 k) -> Permutation l1 l2.
Proof.
  unfold dict_wf.
  induction l1 as [|[k v] l1 IH]; intros l2 H1 H2 Hget.
  - destruct l2 as [|[k v] l2]; [reflexivity|].
    specialize (Hget k). simpl in Hget. rewrite String.eqb_refl in Hget. discriminate.
  - simpl in H1. inversion H1 as [|? ? Hk Hnd]; subst.
    assert (Hv : dict_get l2 k = Some v).
    { rewrite <- Hget. simpl. now rewrite String.eqb_refl. }
    destruct (dict_get_split _ _ _ _ Hv) as (pre & rest & -> & Hpre).
    apply Permutation_cons_app. apply IH; [assumption | |].
    + unfold dict_keys in *. rewrite map_app in *. simpl in H2.
      now apply NoDup_remove_1 in H2.
    + intros k'. specialize (Hget k'). simpl in Hget.
      destruct (String.eqb_spec k k') as [E|Hne].
      * subst k'. assert (E1 : dict_get l1 k = None) by now apply dict_get_none.
        rewrite E1. symmetry. apply dict_get_none.
        unfold dict_keys in *. rewrite map_app in *. simpl in H2.
        now apply NoDup_remove_2 in H2.
      * rewrite Hget. now apply dict_get_app_skip.
Qed.
End KeyOrder.

Lemma render_keys (level : nat) (d : dict value) :
  dict_keys (render iterencode level d) = dict_keys d.
Proof. unfold render, dict_keys. rewrite map_map. reflexivity. Qed.

Lemma dict_get_render (level : nat) (d : dict value) (k : string) :
  dict_get (render iterencode level d) k
  = option_map (fun v => iterencode v (S level)) (dict_get d k).
Proof.
  induction d as [|[k' v'] d IH]; simpl; [reflexivity|].
  destruct (k' =? k); [reflexivity | exact IH].
Qed.

Lemma iterencode_dict (d : dict value) (level : nat) :
  d <> [] ->
  iterencode (Dict d) level
  = encode_object level (sorted_items (render iterencode level d)).
Proof. destruct d; [congruence | reflexivity]. Qed.

Lemma value_eqb_dict (d e : dict value) :
  value_eqb (Dict d) (Dict e) = true <->
  List.length d = List.length e
  /\ Forall (fun kv => exists w, dict_get e (fst kv) = Some w
                                 /\ value_eqb (snd kv) w = true) d.
Proof.
  simpl. rewrite andb_true_iff, Nat.eqb_eq, forallb_forall, Forall_forall.
  split; intros [Hlen H]; (split; [exact Hlen|]); intros kv Hin; specialize (H kv Hin).
  - destruct (dict_get e (fst kv)) as [w|]; [now exists w | discriminate].
  - destruct H as (w & -> & Hw). exact Hw.
Qed.

(** Equal dictionaries have the same keys. *)
Lemma value_eqb_keys (d e : dict value) (k : string) :
  dict_wf d -> value_eqb (Dict d) (Dict e) = true ->
  dict_get d k = None -> dict_get e k = None.
Proof.
  intros Hd Heq Hk. apply value_eqb_dict in Heq. destruct Heq as [Hlen Hall].
  apply dict_get_none. apply dict_get_none in Hk. intros Hin. apply Hk.
  apply (NoDup_length_incl Hd (l' := dict_keys e)); [| |exact Hin].
  - unfold dict_keys. rewrite !length_map. lia.
  - intros k' Hk'. unfold dict_keys in Hk'. apply in_map_iff in Hk'.
    destruct Hk' as (kv & <- & Hkv).
    rewrite Forall_forall in Hall. destruct (Hall kv Hkv) as (w & Hw & _).
    eapply dict_get_some_key; eassumption.
Qed.

(** Catalogs that are equal for Python are written the same. *)
Lemma iterencode_eq (a : value) :
  forall (b : value) (level : nat),
    unique_keys a = true -> unique_keys b = true -> value_eqb a b = true ->
    iterencode a level = iterencode b level.
Proof.
  induction a as [s|d IH] using value_ind'; intros b level Ha Hb Heq.
  - destruct b as [t|e]; [|discriminate].
    simpl in Heq. apply String.eqb_eq in Heq. now subst.
  - destruct b as [t|e]; [discriminate|].
    pose proof Heq as Heq'. apply value_eqb_dict in Heq'. destruct Heq' as [Hlen Hall].
    destruct d as [|kv d'].
    { destruct e; [reflexivity | discriminate]. }
    assert (He : e <> []) by (destruct e; [discriminate | congruence]).
    remember (kv :: d') as d eqn:Ed.
    assert (Hd : d <> []) by (subst d; discriminate). clear Ed.
    rewrite !iterencode_dict by assumption. f_equal.
    apply unique_keys_dict in Ha. destruct Ha as [Hwfd Hud].
    apply unique_keys_dict in Hb. destruct Hb as [Hwfe Hue].
    assert (Hwfrd : dict_wf (render iterencode level d))
      by (unfold dict_wf; now rewrite render_keys).
    apply sorted_items_perm; [|exact Hwfrd].
    apply dict_same_lookup_perm; [exact Hwfrd | |].
    { unfold dict_wf. now rewrite render_keys. }
    intros k. rewrite !dict_get_render.
    destruct (dict_get d k) as [v|] eqn:Ev.
    + apply dict_get_some_in in Ev.
      rewrite Forall_forall in IH, Hall, Hud, Hue.
      destruct (Hall _ Ev) as (w & Hw & Hvw). simpl in Hw, Hvw.
      rewrite Hw. simpl. f_equal.
      apply (IH _ Ev); [now apply (Hud _ Ev) | | exact Hvw].
      apply dict_get_some_in in Hw. now apply (Hue _ Hw).
    + now rewrite (value_eqb_keys d e k Hwfd Heq Ev).
Qed.

Lemma render_sorted (level : nat) (items : dict value) :
  Sorted (fun x y : string * value => String.leb (fst x) (fst y) = true) items ->
  Sorted (fun x y : string * string => String.leb (fst x) (fst y) = true)
    (render iterencode level items).
Proof.
  induction 1 as [|x l Hl IH Hx]; simpl; constructor; [exact IH|].
  destruct Hx as [|y l Hxy]; simpl; constructor. exact Hxy.
Qed.

Lemma escape_char_plain (c : ascii) :
  32 <= nat_of_ascii c -> nat_of_ascii c <> 34 -> nat_of_ascii c <> 92 ->
  escape_char c = String c "".
Proof.
  intros H H34 H92. unfold escape_char.
  repeat match goal with
         | |- context [(?a =? ?b)%nat] => destruct (Nat.eqb_spec a b); [lia|]
         end.
  destruct (Nat.ltb_spec (nat_of_ascii c) 32); [lia | reflexivity].
Qed.

Lemma escape_app (a b : string) : escape (a ++ b) = (escape a ++ escape b)%string.
Proof.
  induction a as [|c a IH]; simpl; [reflexivity|].
  now rewrite IH, append_assoc.
Qed.

Lemma spaces_repeat (n : nat) : spaces n = string_of_list_ascii (repeat " "%char n).
Proof. induction n as [|n IH]; simpl; [reflexivity | now rewrite IH]. Qed.

(** The text of a non-empty mapping, from its items in key order. *)
Lemma iterencode_sorted (d items : dict value) (level : nat) :
  d <> [] -> dict_wf d -> Permutation d items ->
  Sorted (fun x y : string * value => String.leb (fst x) (fst y) = true) items ->
  iterencode (Dict d) level = encode_object level (render iterencode level items).
Proof.
  intros Hd Hwf Hperm Hsorted.
  rewrite iterencode_dict by assumption. f_equal.
  rewrite (sorted_items_perm _ (render iterencode level d) (render iterencode level items)).
  - apply sorted_items_id. now apply render_sorted.
  - unfold render. now apply Permutation_map.
  - fold (dict_keys (render iterencode level d)). now rewrite render_keys.
Qed.

(** C6. Catalogs with the same content, whatever the insertion order of
    their keys, are written as the same text, which is this one.  A string
    is written between quotes and an empty mapping as two braces.  A
    non-empty mapping at depth [level] is written as an opening brace, its
    items in ascending order of their keys, whatever the order they were
    inserted in, each on a line of its own that starts with [2 * (level + 1)]
    spaces, a comma after each but the last, and a closing brace on a line
    that starts with [2 * level] spaces; an item is its key between quotes,
    a colon, a space and its value written at depth [level + 1].  So the
    document that [main] writes is the language code and the catalog at
    depth 1 between two braces at depth 0.  Inside a
    string every byte from 0x20 on, so every byte of a non-ASCII character,
    is written as it is wherever it stands, the quote and the backslash
    apart. *)
Theorem serialization_deterministic :
  let indent := fun level : nat => string_of_list_ascii (repeat " "%char (2 * level)) in
  let line_break := fun level : nat => String "010"%char (indent level) in
  let quoted := fun s : string => String "034"%char (escape s ++ String "034"%char "") in
  (forall a b : value,
      unique_keys a = true -> unique_keys b = true -> value_eqb a b = true ->
      json_dumps a = json_dumps b)
  /\ (forall v : value, json_dumps v = iterencode v 0)
  /\ (forall (s : string) (level : nat), iterencode (Str s) level = quoted s)
  /\ (forall level : nat, iterencode (Dict []) level = "{}"%string)
  /\ (forall (d items : dict value) (level : nat),
         d <> [] ->
         dict_wf d ->
         Permutation d items ->
         Sorted (fun x y : string * value => String.leb (fst x) (fst y) = true) items ->
         iterencode (Dict d) level
         = ("{" ++ line_break (S level)
              ++ String.concat (String "," (line_break (S level)))
                   (map (fun kv : string * value =>
                           quoted (fst kv) ++ ": " ++ iterencode (snd kv) (S level))
                      items)
              ++ line_break level ++ "}")%string)
  /\ (forall (language_code : string) (updated_target_dict : dict value),
         json_dumps (Dict [(language_code, Dict updated_target_dict)])
         = ("{" ++ line_break 1
              ++ quoted language_code ++ ": " ++ iterencode (Dict updated_target_dict) 1
              ++ line_break 0 ++ "}")%string)
  /\ (forall a b : string, escape (a ++ b) = (escape a ++ escape b)%string)
  /\ (forall c : ascii,
         32 <= nat_of_ascii c -> nat_of_ascii c <> 34 -> nat_of_ascii c <> 92 ->
         escape (String c "") = String c "").
Proof.
  intros indent line_break quoted.
  split; [|split; [|split; [|split; [|split; [|split; [|split]]]]]].
  - intros a b Ha Hb Heq. now apply iterencode_eq.
  - reflexivity.
  - reflexivity.
  - reflexivity.
  - intros d items level Hd Hwf Hperm Hsorted.
    rewrite (iterencode_sorted d items level Hd Hwf Hperm Hsorted).
    unfold encode_object, render, line_break, indent.
    rewrite map_map, !spaces_repeat. reflexivity.
  - intros language_code updated_target_dict.
    unfold json_dumps.
    change (iterencode (Dict [(language_code, Dict updated_target_dict)]) 0)
      with (encode_object 0
              [(language_code, iterencode (Dict updated_target_dict) 1)]).
    unfold encode_object. cbn [map String.concat fst snd].
    rewrite !append_assoc. reflexivity.
  - apply escape_app.
  - intros c H H34 H92. simpl. now rewrite escape_char_plain.
Qed.

Lemma serialization_deterministic_witness :
  (unique_keys ex_order_1 = true
   /\ unique_keys ex_order_2 = true
   /\ value_eqb ex_order_1 ex_order_2 = true
   /\ json_dumps ex_order_1 = json_dumps ex_order_2)
  /\ (32 <= nat_of_ascii "195"%char
      /\ escape (String "195"%char "") = String "195"%char "")
  /\ json_dumps ex_order_1
     = ("{" ++ String "010"%char "  "
          ++ String "034"%char ("a" ++ String "034"%char "")
          ++ ": " ++ iterencode (Dict [("d", Str "y"); ("c", Str "")]) 1
          ++ String "," (String "010"%char "  ")
          ++ String "034"%char ("b" ++ String "034"%char "")
          ++ ": " ++ iterencode (Str "x") 1
          ++ String "010"%char "" ++ "}")%string.
Proof.
  pose proof serialization_deterministic as H. cbv zeta in H.
  destruct H as (Heq & _ & _ & _ & Hobject & _ & _ & Hplain).
  split; [|split].
  - repeat (split; [reflexivity|]).
    apply (Heq ex_order_1 ex_order_2); reflexivity.
  - split; [vm_compute; lia|]. apply Hplain; vm_compute; lia.
  - unfold json_dumps, ex_order_1.
    rewrite (Hobject [("b", Str "x"); ("a", Dict [("d", Str "y"); ("c", Str "")])]
               [("a", Dict [("d", Str "y"); ("c", Str "")]); ("b", Str "x")] 0).
    + reflexivity.
    + discriminate.
    + unfold dict_wf. simpl.
      repeat (constructor; [simpl; intuition discriminate|]). constructor.
    + apply perm_swap.
    + repeat constructor.
Defined.

(** The text written for a small document, as Python writes it. *)
Example json_dumps_text :
  let q := String "034"%char "" in
  let nl := String "010"%char "" in
  json_dumps (Dict [("b", Str "x");
                    ("a", Dict [("d", Str ("é" ++ q ++ "y")); ("c", Str "")])])
  = ("{" ++ nl
       ++ "  " ++ q ++ "a" ++ q ++ ": {" ++ nl
       ++ "    " ++ q ++ "c" ++ q ++ ": " ++ q ++ q ++ "," ++ nl
       ++ "    " ++ q ++ "d" ++ q ++ ": " ++ q ++ "é\" ++ q ++ "y" ++ q ++ nl
       ++ "  }," ++ nl
       ++ "  " ++ q ++ "b" ++ q ++ ": " ++ q ++ "x" ++ q ++ nl
       ++ "}")%string.
Proof. reflexivity. Qed.

(** * Rebuilding a catalog from a flat catalog *)

Section Rebuild.
Variable sep : ascii.

Lemma is_prefix_refl (p : list string) : is_prefix p p = true.
Proof. induction p as [|k p IH]; simpl; [reflexivity | now rewrite String.eqb_refl]. Qed.

Lemma comparable_sym (p q : list string) : comparable p q = comparable q p.
Proof. unfold comparable. apply orb_comm. Qed.

Lemma comparable_cons (k : string) (p q : list string) :
  comparable (k :: p) (k :: q) = comparable p q.
Proof. unfold comparable. simpl. now rewrite String.eqb_refl. Qed.

Lemma comparable_cons_ne (k k' : string) (p q : list string) :
  k <> k' -> comparable (k :: p) (k' :: q) = false.
Proof.
  intros Hne. unfold comparable. simpl.
  assert (H1 : (k =? k') = false) by now apply String.eqb_neq.
  assert (H2 : (k' =? k) = false) by (apply String.eqb_neq; congruence).
  now rewrite H1, H2.
Qed.

Lemma comparable_nil_r (p : list string) : comparable p [] = true.
Proof. unfold comparable. simpl. apply orb_true_r. Qed.

Lemma is_prefix_comparable (q p : list string) :
  is_prefix q p = true -> comparable p q = true.
Proof. intros H. unfold comparable. rewrite H. apply orb_true_r. Qed.

Lemma leaf_at_dict_cons (d : dict value) (k : string) (q : list string) :
  leaf_at (Dict d) (k :: q)
  = match dict_get d k with
    | Some v' => leaf_at v' q
    | None => None
    end.
Proof. reflexivity. Qed.

Lemma leaf_at_empty (q : list string) : leaf_at (Dict []) q = None.
Proof. destruct q; reflexivity. Qed.

(** What [set_path] changes: the leaf at the path is the value set, the
    leaves at the paths that run through it are gone, the others stay. *)
Lemma set_path_leaf_at (p : list string) :
  forall cur s r,
    set_path cur p s = Some r ->
    leaf_at (Dict r) p = Some s
    /\ forall q, q <> p ->
                 leaf_at (Dict r) q
                 = if comparable p q then None else leaf_at (Dict cur) q.
Proof.
  induction p as [|k p IH]; intros cur s r H; [discriminate|].
  destruct p as [|k2 p].
  - simpl in H. injection H as <-. split.
    + now rewrite leaf_at_dict_cons, dict_get_set_eq.
    + intros q Hq. destruct q as [|k' q]; [reflexivity|].
      destruct (String.eqb_spec k k') as [<-|Hne].
      * rewrite comparable_cons, leaf_at_dict_cons, dict_get_set_eq.
        destruct q; [congruence | reflexivity].
      * rewrite comparable_cons_ne by assumption.
        now rewrite !leaf_at_dict_cons, dict_get_set_ne by assumption.
  - rewrite set_path_cons in H by discriminate.
    assert (Hsub : exists sub sub',
               set_path sub (k2 :: p) s = Some sub'
               /\ r = dict_set cur k (Dict sub')
               /\ forall q, leaf_at (Dict cur) (k :: q) = leaf_at (Dict sub) q).
    { destruct (dict_get cur k) as [[x|sub]|] eqn:Hget; [discriminate| |].
      - destruct (set_path sub (k2 :: p) s) as [sub'|] eqn:E; [|discriminate].
        injection H as <-. exists sub, sub'.
        split; [exact E|]. split; [reflexivity|].
        intros q. now rewrite leaf_at_dict_cons, Hget.
      - destruct (set_path [] (k2 :: p) s) as [sub'|] eqn:E; [|discriminate].
        injection H as <-. exists [], sub'.
        split; [exact E|]. split; [reflexivity|].
        intros q. now rewrite leaf_at_dict_cons, Hget, leaf_at_empty. }
    destruct Hsub as (sub & sub' & Hset & -> & Hcur).
    destruct (IH sub s sub' Hset) as [IH1 IH2]. split.
    + now rewrite leaf_at_dict_cons, dict_get_set_eq.
    + intros q Hq. destruct q as [|k' q]; [reflexivity|].
      destruct (String.eqb_spec k k') as [<-|Hne].
      * rewrite comparable_cons, leaf_at_dict_cons, dict_get_set_eq.
        rewrite IH2 by congruence. now rewrite Hcur.
      * rewrite comparable_cons_ne by assumption.
        now rewrite !leaf_at_dict_cons, dict_get_set_ne by assumption.
Qed.

(** [set_path] raises only when the catalog holds a leaf on the way. *)
Lemma set_path_fails (p : list string) :
  forall cur s,
    p <> [] -> set_path cur p s = None ->
    exists q, is_prefix q p = true /\ leaf_at (Dict cur) q <> None.
Proof.
  induction p as [|k p IH]; intros cur s Hp H; [congruence|].
  destruct p as [|k2 p]; [discriminate|].
  rewrite set_path_cons in H by discriminate.
  destruct (dict_get cur k) as [[x|sub]|] eqn:Hget.
  - exists [k]. split.
    + simpl. now rewrite String.eqb_refl.
    + rewrite leaf_at_dict_cons, Hget. discriminate.
  - destruct (set_path sub (k2 :: p) s) eqn:E; [discriminate|].
    destruct (IH sub s ltac:(discriminate) E) as (q & Hq & Hleaf).
    exists (k :: q). split.
    + simpl is_prefix. now rewrite String.eqb_refl.
    + now rewrite leaf_at_dict_cons, Hget.
  - destruct (set_path [] (k2 :: p) s) eqn:E; [discriminate|].
    destruct (IH [] s ltac:(discriminate) E) as (q & _ & Hleaf).
    now rewrite leaf_at_empty in Hleaf.
Qed.

Lemma path_get_none (L : list (list string * string)) (p : list string) :
  Forall (fun b => comparable p (fst b) = false) L -> path_get L p = None.
Proof.
  induction 1 as [|[p' s'] L Hp HL IH]; simpl; [reflexivity|].
  destruct (list_eq_dec string_dec p' p) as [->|Hne]; [|exact IH].
  simpl in Hp. unfold comparable in Hp. now rewrite is_prefix_refl in Hp.
Qed.

(** Setting paths none of which runs through another, in a catalog none of
    whose leaves they run through, succeeds and adds exactly these leaves. *)
Lemma set_paths_leaf_at (L : list (list string * string)) :
  Forall (fun ps => fst ps <> []) L ->
  ForallOrdPairs (fun a b => comparable (fst a) (fst b) = false) L ->
  forall r0,
    (forall ps q, In ps L -> leaf_at (Dict r0) q <> None ->
                  comparable (fst ps) q = false) ->
    exists r,
      set_paths (Some r0) L = Some r
      /\ forall q, leaf_at (Dict r) q
                   = match path_get L q with
                     | Some s => Some s
                     | None => leaf_at (Dict r0) q
                     end.
Proof.
  intros Hne Hfop. induction Hfop as [|[p s] L Hp Hfop IH]; intros r0 H0.
  - exists r0. split; reflexivity.
  - inversion Hne as [|? ? Hpne HneL]; subst. simpl in Hpne, Hp.
    destruct (set_path r0 p s) as [r1|] eqn:E.
    + destruct (set_path_leaf_at p r0 s r1 E) as [H1 H2].
      destruct (IH HneL r1) as (r & Hr & Hleaf).
      { intros ps q Hin Hq.
        destruct (list_eq_dec string_dec q p) as [->|Hqp].
        - rewrite comparable_sym. rewrite Forall_forall in Hp. now apply Hp.
        - rewrite (H2 q Hqp) in Hq.
          destruct (comparable p q); [congruence|].
          apply H0; [now right | exact Hq]. }
      exists r. split; [now rewrite set_paths_cons; simpl; rewrite E|].
      intros q. simpl path_get.
      destruct (list_eq_dec string_dec p q) as [<-|Hpq].
      * rewrite Hleaf, (path_get_none L p Hp). exact H1.
      * rewrite Hleaf. destruct (path_get L q); [reflexivity|].
        rewrite H2 by congruence.
        destruct (comparable p q) eqn:Ecmp; [|reflexivity].
        destruct (leaf_at (Dict r0) q) eqn:El; [|reflexivity].
        assert (Hc : comparable p q = false).
        { apply (H0 (p, s) q); [now left | congruence]. }
        congruence.
    + exfalso. destruct (set_path_fails p r0 s Hpne E) as (q & Hq & Hleaf).
      assert (Hc : comparable p q = false) by (apply (H0 (p, s) q); [now left | exact Hleaf]).
      rewrite (is_prefix_comparable q p Hq) in Hc. discriminate.
Qed.
End Rebuild.

Section FlatRoundTrip.
Variable sep : ascii.

Let seg_ok (s : string) : Prop := has_char sep s = false.

Lemma split_nonempty (s : string) : split s sep <> [].
Proof.
  destruct s as [|c s]; simpl; [discriminate|].
  destruct (Ascii.eqb c sep); [discriminate|].
  destruct (split s sep); discriminate.
Qed.

Lemma split_sep_free (s : string) : Forall seg_ok (split s sep).
Proof.
  induction s as [|c s IH]; simpl.
  - constructor; [reflexivity | constructor].
  - destruct (Ascii.eqb c sep) eqn:Ec.
    + constructor; [reflexivity | exact IH].
    + destruct (split s sep) as [|h t].
      * constructor; [|constructor]. unfold seg_ok. simpl. now rewrite Ec.
      * inversion IH; subst. constructor; [|assumption].
        unfold seg_ok in *. simpl. now rewrite Ec.
Qed.

Lemma join_split (s : string) : join sep (split s sep) = s.
Proof.
  induction s as [|c s IH]; [reflexivity|].
  simpl split. destruct (Ascii.eqb_spec c sep) as [->|Hne].
  - simpl. destruct (split s sep) as [|h t] eqn:E.
    + now destruct (split_nonempty s).
    + simpl in IH. simpl. now rewrite IH.
  - destruct (split s sep) as [|h t] eqn:E.
    + now destruct (split_nonempty s).
    + simpl in IH. simpl. now rewrite IH.
Qed.

Lemma split_inj (a b : string) : split a sep = split b sep -> a = b.
Proof. intros H. rewrite <- (join_split a), <- (join_split b). now rewrite H. Qed.

(** A key that does not start with the separator has a non-empty first
    segment, unless it is a single segment. *)
Lemma split_head (key k : string) (q : list string) :
  starts_with sep key = false -> split key sep = k :: q -> q <> [] -> k <> "".
Proof.
  destruct key as [|c key]; simpl.
  - intros _ [= <- <-]. congruence.
  - intros Hc. rewrite Hc. destruct (split key sep); intros [= <- <-] _; discriminate.
Qed.

(** ** The leaves of a catalog and the leaf at a path *)

Lemma leaves_leaf_at (v : value) :
  unique_keys v = true ->
  forall p s, In (p, s) (leaves v) <-> leaf_at v p = Some s.
Proof.
  induction v as [s0|d IH] using value_ind'; intros Hu p s.
  - simpl. destruct p; simpl; split.
    + intros [[= <-]|[]]. reflexivity.
    + intros [= <-]. now left.
    + intros [[=]|[]].
    + discriminate.
  - apply unique_keys_dict in Hu. destruct Hu as [Hwf Hch].
    rewrite Forall_forall in IH, Hch. split.
    + intros Hin. apply leaves_dict_head in Hin.
      destruct Hin as (k & q & v & -> & Hkv & Hq).
      rewrite leaf_at_dict_cons, (dict_wf_get _ _ _ _ Hwf Hkv).
      apply (IH _ Hkv); [now apply (Hch _ Hkv) | exact Hq].
    + destruct p as [|k q]; [discriminate|].
      rewrite leaf_at_dict_cons.
      destruct (dict_get d k) as [v|] eqn:Hget; [|discriminate].
      intros Hleaf. apply dict_get_some_in in Hget.
      simpl. apply in_flat_map. exists (k, v). split; [exact Hget|].
      apply in_map_iff. exists (q, s). split; [reflexivity|].
      apply (IH _ Hget); [now apply (Hch _ Hget) | exact Hleaf].
Qed.

(** ** What [set_path] preserves *)

Lemma unique_keys_dict_set (d : dict value) (k : string) (v : value) :
  unique_keys (Dict d) = true -> unique_keys v = true ->
  unique_keys (Dict (dict_set d k v)) = true.
Proof.
  intros Hd Hv. simpl in *. apply andb_true_iff in Hd. destruct Hd as [H1 H2].
  apply andb_true_iff. split.
  - apply distinct_NoDup. apply dict_set_wf. now apply distinct_NoDup.
  - now apply forallb_dict_set.
Qed.

Lemma sep_free_dict_set (d : dict value) (k : string) (v : value) :
  sep_free sep (Dict d) = true -> has_char sep k = false -> sep_free sep v = true ->
  sep_free sep (Dict (dict_set d k v)) = true.
Proof.
  intros Hd Hk Hv. simpl in *. apply forallb_dict_set; [assumption|].
  simpl. now rewrite Hk, Hv.
Qed.

Lemma unique_keys_get (d : dict value) (k : string) (v : value) :
  unique_keys (Dict d) = true -> dict_get d k = Some v -> unique_keys v = true.
Proof.
  intros Hd Hget. apply unique_keys_dict in Hd. destruct Hd as [_ Hch].
  rewrite Forall_forall in Hch. apply dict_get_some_in in Hget.
  now apply (Hch _ Hget).
Qed.

Lemma sep_free_get (d : dict value) (k : string) (v : value) :
  sep_free sep (Dict d) = true -> dict_get d k = Some v -> sep_free sep v = true.
Proof.
  intros Hd Hget. apply sep_free_dict in Hd.
  rewrite Forall_forall in Hd. apply dict_get_some_in in Hget.
  now apply (Hd _ Hget).
Qed.

Lemma set_path_unique_keys (p : list string) :
  forall cur s r,
    unique_keys (Dict cur) = true -> set_path cur p s = Some r ->
    unique_keys (Dict r) = true.
Proof.
  induction p as [|k p IH]; intros cur s r Hcur H; [discriminate|].
  destruct p as [|k2 p].
  - simpl in H. injection H as <-. now apply unique_keys_dict_set.
  - rewrite set_path_cons in H by discriminate.
    destruct (dict_get cur k) as [[x|sub]|] eqn:Hget; [discriminate| |].
    + destruct (set_path sub (k2 :: p) s) as [sub'|] eqn:E; [|discriminate].
      injection H as <-. apply unique_keys_dict_set; [assumption|].
      apply (IH sub s sub'); [|exact E]. eapply unique_keys_get; eassumption.
    + destruct (set_path [] (k2 :: p) s) as [sub'|] eqn:E; [|discriminate].
      injection H as <-. apply unique_keys_dict_set; [assumption|].
      now apply (IH [] s sub').
Qed.

Lemma set_path_sep_free (p : list string) :
  Forall seg_ok p ->
  forall cur s r,
    sep_free sep (Dict cur) = true -> set_path cur p s = Some r ->
    sep_free sep (Dict r) = true.
Proof.
  induction 1 as [|k p Hk Hp IH]; intros cur s r Hcur H; [discriminate|].
  destruct p as [|k2 p].
  - simpl in H. injection H as <-. now apply sep_free_dict_set.
  - rewrite set_path_cons in H by discriminate.
    destruct (dict_get cur k) as [[x|sub]|] eqn:Hget; [discriminate| |].
    + destruct (set_path sub (k2 :: p) s) as [sub'|] eqn:E; [|discriminate].
      injection H as <-. apply sep_free_dict_set; [assumption | exact Hk |].
      apply (IH sub s sub'); [|exact E]. eapply sep_free_get; eassumption.
    + destruct (set_path [] (k2 :: p) s) as [sub'|] eqn:E; [|discriminate].
      injection H as <-. apply sep_free_dict_set; [assumption | exact Hk |].
      now apply (IH [] s sub').
Qed.

Lemma root_ok_dict_set (d : dict value) (k : string) (v : value) :
  root_ok d = true -> (k = "" -> exists s, v = Str s) ->
  root_ok (dict_set d k v) = true.
Proof.
  unfold root_ok. intros Hd Hk.
  destruct (String.eqb_spec k "") as [->|Hne].
  - rewrite dict_get_set_eq. destruct (Hk eq_refl) as [s ->]. reflexivity.
  - now rewrite dict_get_set_ne.
Qed.

Lemma set_path_root_ok (p : list string) (cur : dict value) (s : string) r :
  (forall k q, p = k :: q -> q <> [] -> k <> "") ->
  root_ok cur = true -> set_path cur p s = Some r -> root_ok r = true.
Proof.
  intros Hp Hcur H. destruct p as [|k p]; [discriminate|].
  destruct p as [|k2 p].
  - simpl in H. injection H as <-. apply root_ok_dict_set; [assumption|].
    intros _. now exists s.
  - assert (Hk : k <> "") by (apply (Hp k (k2 :: p)); [reflexivity | discriminate]).
    rewrite set_path_cons in H by discriminate.
    destruct (dict_get cur k) as [[x|sub]|]; [discriminate| |].
    + destruct (set_path sub (k2 :: p) s); [|discriminate].
      injection H as <-. apply root_ok_dict_set; [assumption | congruence].
    + destruct (set_path [] (k2 :: p) s); [|discriminate].
      injection H as <-. apply root_ok_dict_set; [assumption | congruence].
Qed.

Lemma unflatten_codec_ok (flat : dict string) :
  Forall (fun kv => starts_with sep (fst kv) = false) flat ->
  forall r0 r,
    codec_ok sep r0 ->
    fold_left (unflatten_step sep) flat (Some r0) = Some r -> codec_ok sep r.
Proof.
  induction 1 as [|[k s] flat Hk Hflat IH]; intros r0 r Hr0.
  - now intros [= <-].
  - simpl fold_left.
    destruct (set_path r0 (split k sep) s) as [r1|] eqn:E.
    + apply IH. destruct Hr0 as (Hu & Hs & Hroot). split; [|split].
      * eapply set_path_unique_keys; eassumption.
      * eapply set_path_sep_free; [apply split_sep_free | |]; eassumption.
      * eapply set_path_root_ok; [| |exact E]; [|assumption].
        intros k0 q Hsplit Hq. eapply split_head; eassumption.
    + assert (Hnone : forall l, fold_left (unflatten_step sep) l None = None)
        by (induction l; [reflexivity | assumption]).
      now rewrite Hnone.
Qed.

(** On such a catalog, a flattened key holds the leaf at its path. *)
Lemma flatten_leaf_at (r : dict value) (k : string) :
  codec_ok sep r ->
  dict_get (flatten_dict r "" sep) k = leaf_at (Dict r) (split k sep).
Proof.
  intros (Hu & Hs & Hroot).
  assert (Hwf : dict_wf (flatten_dict r "" sep)) by apply dict_of_items_wf.
  pose proof (flatten_dict_leaves sep r Hu Hs Hroot) as Hflat.
  destruct (leaf_at (Dict r) (split k sep)) as [s|] eqn:Hleaf.
  - apply dict_wf_get; [assumption|]. rewrite Hflat.
    apply in_map_iff. exists (split k sep, s). split.
    + simpl. now rewrite join_split.
    + now apply leaves_leaf_at.
  - destruct (dict_get (flatten_dict r "" sep) k) as [s|] eqn:Hget; [|reflexivity].
    apply dict_get_some_in in Hget. rewrite Hflat in Hget.
    apply in_map_iff in Hget. destruct Hget as ([p s'] & [= Hp ->] & Hin).
    simpl in Hp.
    assert (Hsplit : split k sep = p).
    { rewrite <- Hp. apply split_join_path.
      - pose proof (leaves_dict_nonempty r) as Hne. rewrite Forall_forall in Hne.
        apply (Hne _ Hin).
      - pose proof (leaves_sep_free sep (Dict r) Hs) as Hfree.
        rewrite Forall_forall in Hfree. apply (Hfree _ Hin). }
    apply leaves_leaf_at in Hin; [|assumption]. congruence.
Qed.

(** ** From keys to paths *)

Let paths_of (flat : dict string) : list (list string * string) :=
  map (fun kv => (split (fst kv) sep, snd kv)) flat.

Lemma unflatten_as_set_paths (flat : dict string) :
  forall r, fold_left (unflatten_step sep) flat r = set_paths r (paths_of flat).
Proof.
  induction flat as [|[k s] flat IH]; intros r; [reflexivity|].
  simpl. rewrite IH. reflexivity.
Qed.

Lemma path_get_split (flat : dict string) (k : string) :
  path_get (paths_of flat) (split k sep) = dict_get flat k.
Proof.
  induction flat as [|[k0 s0] flat IH]; [reflexivity|].
  simpl. destruct (list_eq_dec string_dec (split k0 sep) (split k sep)) as [E|Hne].
  - apply split_inj in E. subst. now rewrite String.eqb_refl.
  - destruct (String.eqb_spec k0 k) as [->|_]; [congruence | exact IH].
Qed.

Lemma collision_free_spec (flat : dict string) :
  collision_free flat sep = true <->
  (forall k1 k2, In k1 (dict_keys flat) -> In k2 (dict_keys flat) -> k1 <> k2 ->
                 is_prefix (split k1 sep) (split k2 sep) = false)
  /\ (forall k, In k (dict_keys flat) -> starts_with sep k = false).
Proof.
  unfold collision_free. rewrite andb_true_iff, !forallb_forall. split.
  - intros [H1 H2]. split.
    + intros k1 k2 Hk1 Hk2 Hne. specialize (H1 k1 Hk1).
      rewrite forallb_forall in H1. specialize (H1 k2 Hk2).
      apply orb_true_iff in H1. destruct H1 as [H1|H1].
      * apply String.eqb_eq in H1. congruence.
      * now apply negb_true_iff in H1.
    + intros k Hk. apply negb_true_iff. now apply H2.
  - intros [H1 H2]. split.
    + intros k1 Hk1. apply forallb_forall. intros k2 Hk2.
      destruct (String.eqb_spec k1 k2) as [E|Hne]; [reflexivity|].
      simpl. apply negb_true_iff. now apply H1.
    + intros k Hk. apply negb_true_iff. now apply H2.
Qed.

Lemma collision_free_pairs (flat : dict string) :
  dict_wf flat ->
  (forall k1 k2, In k1 (dict_keys flat) -> In k2 (dict_keys flat) -> k1 <> k2 ->
                 is_prefix (split k1 sep) (split k2 sep) = false) ->
  ForallOrdPairs (fun a b => comparable (fst a) (fst b) = false) (paths_of flat).
Proof.
  unfold dict_wf. induction flat as [|[k s] flat IH]; intros Hwf H; [constructor|].
  simpl in Hwf. inversion Hwf as [|? ? Hk Hnd]; subst.
  simpl. constructor.
  - apply Forall_forall. intros [p s'] Hin.
    apply in_map_iff in Hin. destruct Hin as ([k' s''] & [= <- <-] & Hin).
    assert (Hk' : In k' (dict_keys flat)).
    { change k' with (fst (k', s'')). now apply in_map. }
    assert (Hne : k <> k') by (intros ->; contradiction).
    simpl. unfold comparable.
    rewrite (H k k'), (H k' k); simpl; auto; congruence.
  - apply IH; [assumption|]. intros k1 k2 H1 H2. apply H; now right.
Qed.

(** Flattening what [unflatten_dict] builds from a flat catalog without
    collisions gives every key its value back. *)
Lemma flat_round_trip (flat : dict string) :
  dict_wf flat -> collision_free flat sep = true ->
  exists r,
    unflatten_dict flat sep = Some r
    /\ codec_ok sep r
    /\ forall k, dict_get (flatten_dict r "" sep) k = dict_get flat k.
Proof.
  intros Hwf Hfree. apply collision_free_spec in Hfree. destruct Hfree as [Hpre Hstart].
  destruct (set_paths_leaf_at (paths_of flat)) with (r0 := @nil (string * value))
    as (r & Hr & Hleaf).
  - apply Forall_forall. intros [p s] Hin.
    apply in_map_iff in Hin. destruct Hin as (kv & [= <- <-] & _).
    apply split_nonempty.
  - now apply collision_free_pairs.
  - intros ps q _ Hq. now rewrite leaf_at_empty in Hq.
  - assert (Hun : unflatten_dict flat sep = Some r).
    { unfold unflatten_dict. now rewrite unflatten_as_set_paths. }
    assert (Hok : codec_ok sep r).
    { apply (unflatten_codec_ok flat) with (r0 := []); [| |exact Hun].
      - apply Forall_forall. intros kv Hin. apply Hstart.
        unfold dict_keys. now apply in_map.
      - repeat split. }
    exists r. split; [exact Hun|]. split; [exact Hok|].
    intros k. rewrite flatten_leaf_at by assumption.
    rewrite Hleaf, leaf_at_empty, path_get_split.
    now destruct (dict_get flat k).
Qed.
End FlatRoundTrip.

(** * A whole run *)

Lemma remove_en_prefix_wf (dictionary : dict string) (prefix : string) :
  dict_wf (remove_en_prefix dictionary prefix).
Proof. apply dict_of_items_wf. Qed.

Lemma flatten_dict_wf (d : dict value) (parent_key : string) (sep : ascii) :
  dict_wf (flatten_dict d parent_key sep).
Proof. apply dict_of_items_wf. Qed.

(** Once its inputs are read, [main] runs the loop; how it ends is decided
    by [unflatten_dict] and by the write. *)
Lemma main_after_loop :
  forall (World : Type) (chat : string -> string -> World -> (string + string) * World)
         (set_iter : list string -> list string) (env : environment) (w : World)
         (language_code target_language input_file : string)
         (root target : dict value) (changed : dict string),
    json_file env (target_path language_code) = Some (Dict root) ->
    dict_get root language_code = Some (Dict target) ->
    get_keys_to_translate set_iter env input_file = Some changed ->
    let target_flat := flatten_dict target "" bar in
    let st := main_loop chat target_flat target_language
                (remove_en_prefix changed "en|") w in
    let merged := dict_update target_flat (translated_flat_dict st) in
    main chat set_iter env w language_code target_language input_file
    = match unflatten_dict merged bar with
      | None =>
          inr {| events_before := trace st;
                 service_before := world st;
                 target_after := None |}
      | Some updated =>
          match write env (target_path language_code)
                  (json_dumps (Dict [(language_code, Dict updated)])) with
          | Written =>
              inl {| written := json_dumps (Dict [(language_code, Dict updated)]);
                     events := trace st;
                     service := world st |}
          | Open_raises =>
              inr {| events_before := trace st;
                     service_before := world st;
                     target_after := None |}
          | Dump_raises partial =>
              inr {| events_before := trace st;
                     service_before := world st;
                     target_after := Some partial |}
          end
      end.
Proof.
  intros World chat set_iter env w language_code target_language input_file
         root target changed Hfile Hroot Hkeys target_flat st merged.
  unfold main. rewrite Hfile. cbn [items_of]. rewrite Hroot, Hkeys.
  cbn [items_of]. cbv zeta. fold target_flat. fold st. fold merged.
  reflexivity.
Qed.

(** X12. When the inputs have the expected shapes and no key of the merged
    flat catalog runs through another, [unflatten_dict] does not raise, the
    catalog it builds holds, flattened, key by key what the merged flat
    catalog holds, and [main] ends as the write of that catalog does: it
    returns when the text is written, and raises when opening the file or
    dumping into it raises, the file being truncated in the second case.
    However it ends, its events are those of the loop. *)
Theorem main_writes_merge :
  forall (World : Type) (chat : string -> string -> World -> (string + string) * World)
         (set_iter : list string -> list string) (env : environment) (w : World)
         (language_code target_language input_file : string)
         (root target : dict value) (changed : dict string),
    json_file env (target_path language_code) = Some (Dict root) ->
    dict_get root language_code = Some (Dict target) ->
    get_keys_to_translate set_iter env input_file = Some changed ->
    let target_flat := flatten_dict target "" bar in
    let st := main_loop chat target_flat target_language
                (remove_en_prefix changed "en|") w in
    let merged := dict_update target_flat (translated_flat_dict st) in
    collision_free merged bar = true ->
    exists updated,
      unflatten_dict merged bar = Some updated
      /\ (forall k, dict_get (flatten_dict updated "" bar) k = dict_get merged k)
      /\ main chat set_iter env w language_code target_language input_file
         = match write env (target_path language_code)
                   (json_dumps (Dict [(language_code, Dict updated)])) with
           | Written =>
               inl {| written := json_dumps (Dict [(language_code, Dict updated)]);
                      events := trace st;
                      service := world st |}
           | Open_raises =>
               inr {| events_before := trace st;
                      service_before := world st;
                      target_after := None |}
           | Dump_raises partial =>
               inr {| events_before := trace st;
                      service_before := world st;
                      target_after := Some partial |}
           end.
Proof.
  intros World chat set_iter env w language_code target_language input_file
         root target changed Hfile Hroot Hkeys target_flat st merged Hfree.
  destruct (flat_round_trip bar merged) as (updated & Hun & _ & Hget).
  - apply dict_update_wf. apply flatten_dict_wf.
  - exact Hfree.
  - exists updated. split; [exact Hun|]. split; [exact Hget|].
    rewrite (main_after_loop World chat set_iter env w language_code target_language
               input_file root target changed Hfile Hroot Hkeys).
    fold target_flat. fold st. fold merged. now rewrite Hun.
Qed.

Lemma main_writes_merge_witness :
  exists updated,
    main stub_chat (fun l => l) ex_env_run 0 "de" "German" en_json
    = inl {| written := json_dumps (Dict [("de", Dict updated)]);
             events := trace (main_loop stub_chat
                                (flatten_dict [("a", Str "Hallo"); ("e", Str "")] "" bar)
                                "German"
                                (remove_en_prefix
                                   [("en|b", "Bye"); ("en|c|d", "Day");
                                    ("en|e", "kept"); ("en|a", "Hello")] "en|") 0);
             service := 3 |}
    /\ dict_get (flatten_dict updated "" bar) "a" = Some "Hallo".
Proof.
  destruct (main_writes_merge nat stub_chat (fun l => l) ex_env_run 0 "de" "German" en_json
              [("de", Dict [("a", Str "Hallo"); ("e", Str "")])]
              [("a", Str "Hallo"); ("e", Str "")]
              [("en|b", "Bye"); ("en|c|d", "Day"); ("en|e", "kept"); ("en|a", "Hello")]
              eq_refl eq_refl eq_refl eq_refl) as (updated & _ & Hget & Hmain).
  exists updated. split; [exact Hmain|]. now rewrite Hget.
Defined.

(** C1, as amended. Take a key that holds a non-empty string in the
    flattened target catalog before a run.  The loop never asks the provider
    for it: whenever it reaches the key it only prints that it skips it,
    sending no request, recording nothing and leaving the service as it is,
    so its trace has no [Translating] line for the key, and has its
    [Skipping] line when the key is among the keys to translate; the update
    of line 184 leaves the key its string; and however [main] ends, its
    events are the trace of the loop.  When moreover no key of
    the merged flat catalog runs through another or starts with the
    separator, [unflatten_dict] does not raise and the catalog it builds
    holds the same string at the key; and when the write succeeds, [main]
    returns having written that catalog. *)
Theorem non_overwrite :
  forall (World : Type) (chat : string -> string -> World -> (string + string) * World)
         (set_iter : list string -> list string) (env : environment) (w : World)
         (language_code target_language input_file : string)
         (root target : dict value) (changed : dict string) (k s : string),
    json_file env (target_path language_code) = Some (Dict root) ->
    dict_get root language_code = Some (Dict target) ->
    get_keys_to_translate set_iter env input_file = Some changed ->
    let target_flat := flatten_dict target "" bar in
    let to_translate := remove_en_prefix changed "en|" in
    let st := main_loop chat target_flat target_language to_translate w in
    let merged := dict_update target_flat (translated_flat_dict st) in
    dict_get target_flat k = Some s ->
    s <> "" ->
    (dict_get merged k = Some s
     /\ (forall (before : run World) (v : string),
            main_loop_body chat target_flat target_language before (k, v)
            = {| translated_flat_dict := translated_flat_dict before;
                 trace := trace before ++ [Printed (Skipping_re_translation k)];
                 world := world before |})
     /\ (forall v tl new, ~ In (Printed (Translating k v tl new)) (trace st))
     /\ (dict_in k to_translate = true ->
         In (Printed (Skipping_re_translation k)) (trace st)))
    /\ match main chat set_iter env w language_code target_language input_file with
       | inl out => events out = trace st
       | inr f => events_before f = trace st
       end
    /\ (collision_free merged bar = true ->
        exists updated,
          unflatten_dict merged bar = Some updated
          /\ dict_get (flatten_dict updated "" bar) k = Some s
          /\ (write env (target_path language_code)
                (json_dumps (Dict [(language_code, Dict updated)])) = Written ->
              main chat set_iter env w language_code target_language input_file
              = inl {| written := json_dumps (Dict [(language_code, Dict updated)]);
                       events := trace st;
                       service := world st |})).
Proof.
  intros World chat set_iter env w language_code target_language input_file
         root target changed k s Hfile Hroot Hkeys target_flat to_translate st merged
         Hget Hs.
  pose proof (update_keeps_translated World chat target_flat to_translate target_language
                w k s Hget Hs) as Hloop.
  split; [exact Hloop|].
  split.
  { rewrite (main_after_loop World chat set_iter env w language_code target_language
               input_file root target changed Hfile Hroot Hkeys).
    fold target_flat. fold to_translate. fold st. fold merged.
    destruct (unflatten_dict merged bar) as [updated|]; [|reflexivity].
    now destruct (write env (target_path language_code)
                    (json_dumps (Dict [(language_code, Dict updated)]))). }
  intros Hfree.
  destruct (flat_round_trip bar merged) as (updated & Hun & _ & Hflat).
  - apply dict_update_wf. apply flatten_dict_wf.
  - exact Hfree.
  - exists updated. split; [exact Hun|]. split.
    + rewrite Hflat. exact (proj1 Hloop).
    + intros Hwrite.
      rewrite (main_after_loop World chat set_iter env w language_code target_language
                 input_file root target changed Hfile Hroot Hkeys).
      fold target_flat. fold to_translate. fold st. fold merged.
      now rewrite Hun, Hwrite.
Qed.

Lemma non_overwrite_witness :
  dict_get (flatten_dict [("a", Str "Hallo"); ("e", Str "")] "" bar) "a" = Some "Hallo"
  /\ "Hallo" <> ""
  /\ exists updated,
       main stub_chat (fun l => l) ex_env_run 0 "de" "German" en_json
       = inl {| written := json_dumps (Dict [("de", Dict updated)]);
                events := trace (main_loop stub_chat
                                   (flatten_dict [("a", Str "Hallo"); ("e", Str "")] "" bar)
                                   "German"
                                   (remove_en_prefix
                                      [("en|b", "Bye"); ("en|c|d", "Day");
                                       ("en|e", "kept"); ("en|a", "Hello")] "en|") 0);
                service := 3 |}
       /\ dict_get (flatten_dict updated "" bar) "a" = Some "Hallo"
       /\ In (Printed (Skipping_re_translation "a"))
            (trace (main_loop stub_chat
                      (flatten_dict [("a", Str "Hallo"); ("e", Str "")] "" bar)
                      "German"
                      (remove_en_prefix
                         [("en|b", "Bye"); ("en|c|d", "Day");
                          ("en|e", "kept"); ("en|a", "Hello")] "en|") 0)).
Proof.
  split; [reflexivity|]. split; [discriminate|].
  destruct (non_overwrite nat stub_chat (fun l => l) ex_env_run 0 "de" "German" en_json
              [("de", Dict [("a", Str "Hallo"); ("e", Str "")])]
              [("a", Str "Hallo"); ("e", Str "")]
              [("en|b", "Bye"); ("en|c|d", "Day"); ("en|e", "kept"); ("en|a", "Hello")]
              "a" "Hallo" eq_refl eq_refl eq_refl eq_refl ltac:(discriminate))
    as ((_ & _ & _ & Hskip) & _ & Hfile).
  destruct (Hfile eq_refl) as (updated & Hun & Hget & Hmain).
  exists updated. split; [apply Hmain; reflexivity|].
  split; [exact Hget|]. apply Hskip. reflexivity.
Defined.

(** C1 as stated fails on the written catalog.  The target translates
    ["a|b"] and the source has turned ["a"] into a string: the run
    translates ["a"], [unflatten_dict] puts the new string where the mapping
    was, and the catalog written has no ["a|b"] any more.  And when the dump
    raises after the target file has been opened for writing, the file is
    left truncated, the translation of ["a"] it held gone with the rest. *)
Lemma non_overwrite_counterexample :
  (json_file ex_env_collision (target_path "de")
   = Some (Dict [("de", Dict [("a", Dict [("b", Str "Hallo")])])])
   /\ dict_get (flatten_dict [("a", Dict [("b", Str "Hallo")])] "" bar) "a|b" = Some "Hallo"
   /\ main stub_chat (fun l => l) ex_env_collision 0 "de" "German" en_json
      = inl {| written := json_dumps (Dict [("de", Dict [("a", Str "[Hello]")])]);
               events := [Request "Hello" "German" (inl "[Hello]");
                          Printed (Translating "a" "Hello" "German" "[Hello]")];
               service := 1 |}
   /\ dict_get (flatten_dict [("a", Str "[Hello]")] "" bar) "a|b" = None)
  /\ (json_file ex_env_unwritable (target_path "de")
      = Some (Dict [("de", Dict [("a", Str "Hallo"); ("e", Str "")])])
      /\ dict_get (flatten_dict [("a", Str "Hallo"); ("e", Str "")] "" bar) "a" = Some "Hallo"
      /\ match main stub_chat (fun l => l) ex_env_unwritable 0 "de" "German" en_json with
         | inl _ => False
         | inr f => target_after f = Some ""%string
         end).
Proof. repeat split; reflexivity. Qed.

(** C9, as amended. The update of line 184 deletes no key of the flattened
    target catalog, and leaves its value, the empty string included, to
    every key that the run does not translate, because it is not among the
    keys to translate or because it is skipped.  When moreover no key of the
    merged flat catalog runs through another or starts with the separator,
    [unflatten_dict] does not raise and the catalog it builds, flattened,
    has every key of the flattened target catalog, with the value it had
    for every key that the run does not translate; and when the write
    succeeds, [main] returns having written that catalog. *)
Theorem merge_frame :
  forall (World : Type) (chat : string -> string -> World -> (string + string) * World)
         (set_iter : list string -> list string) (env : environment) (w : World)
         (language_code target_language input_file : string)
         (root target : dict value) (changed : dict string),
    json_file env (target_path language_code) = Some (Dict root) ->
    dict_get root language_code = Some (Dict target) ->
    get_keys_to_translate set_iter env input_file = Some changed ->
    let target_flat := flatten_dict target "" bar in
    let to_translate := remove_en_prefix changed "en|" in
    let st := main_loop chat target_flat target_language to_translate w in
    let merged := dict_update target_flat (translated_flat_dict st) in
    (forall k, dict_in k target_flat = true -> dict_in k merged = true)
    /\ (forall k s,
           dict_get target_flat k = Some s ->
           dict_get to_translate k = None \/ already_translated target_flat k = true ->
           dict_get merged k = Some s)
    /\ (collision_free merged bar = true ->
        exists updated,
          unflatten_dict merged bar = Some updated
          /\ (forall k, dict_in k target_flat = true ->
                        dict_in k (flatten_dict updated "" bar) = true)
          /\ (forall k s,
                 dict_get target_flat k = Some s ->
                 dict_get to_translate k = None \/ already_translated target_flat k = true ->
                 dict_get (flatten_dict updated "" bar) k = Some s)
          /\ (write env (target_path language_code)
                (json_dumps (Dict [(language_code, Dict updated)])) = Written ->
              main chat set_iter env w language_code target_language input_file
              = inl {| written := json_dumps (Dict [(language_code, Dict updated)]);
                       events := trace st;
                       service := world st |})).
Proof.
  intros World chat set_iter env w language_code target_language input_file
         root target changed Hfile Hroot Hkeys target_flat to_translate st merged.
  assert (Hin : forall k, dict_in k target_flat = true -> dict_in k merged = true).
  { intros k. apply dict_in_update. }
  assert (Hkeep : forall k s,
             dict_get target_flat k = Some s ->
             dict_get to_translate k = None \/ already_translated target_flat k = true ->
             dict_get merged k = Some s).
  { intros k s Hget Hk.
    exact (update_keeps_untranslated World chat target_flat to_translate target_language
             w k s Hget Hk). }
  split; [exact Hin|]. split; [exact Hkeep|].
  intros Hfree.
  destruct (flat_round_trip bar merged) as (updated & Hun & _ & Hflat).
  - apply dict_update_wf. apply flatten_dict_wf.
  - exact Hfree.
  - exists updated. split; [exact Hun|]. split; [|split].
    + intros k Hk. unfold dict_in. rewrite Hflat. now apply Hin.
    + intros k s Hget Hk. rewrite Hflat. now apply Hkeep.
    + intros Hwrite.
      rewrite (main_after_loop World chat set_iter env w language_code target_language
                 input_file root target changed Hfile Hroot Hkeys).
      fold target_flat. fold to_translate. fold st. fold merged.
      now rewrite Hun, Hwrite.
Qed.

Lemma merge_frame_witness :
  exists updated,
    main stub_chat (fun l => l) ex_env_frame 0 "de" "German" en_json
    = inl {| written := json_dumps (Dict [("de", Dict updated)]);
             events := trace (main_loop stub_chat
                                (flatten_dict
                                   [("a", Str "Hallo"); ("e", Str ""); ("g", Str "")] "" bar)
                                "German"
                                (remove_en_prefix
                                   [("en|b", "Bye"); ("en|c|d", "Day");
                                    ("en|e", "kept"); ("en|a", "Hello")] "en|") 0);
             service := 3 |}
    /\ dict_get (flatten_dict updated "" bar) "g" = Some ""%string
    /\ dict_in "e" (flatten_dict updated "" bar) = true.
Proof.
  destruct (merge_frame nat stub_chat (fun l => l) ex_env_frame 0 "de" "German" en_json
              [("de", Dict [("a", Str "Hallo"); ("e", Str ""); ("g", Str "")])]
              [("a", Str "Hallo"); ("e", Str ""); ("g", Str "")]
              [("en|b", "Bye"); ("en|c|d", "Day"); ("en|e", "kept"); ("en|a", "Hello")]
              eq_refl eq_refl eq_refl) as (_ & _ & Hfile).
  destruct (Hfile eq_refl) as (updated & _ & Hin & Hkeep & Hmain).
  exists updated. split; [apply Hmain; reflexivity|]. split.
  - apply (Hkeep "g" ""%string); [reflexivity | left; reflexivity].
  - apply Hin. reflexivity.
Defined.

(** C9 as stated fails on the written catalog.  The target holds the empty
    string for ["m|n"] and an empty mapping for ["z"], and ["m"] is a new
    string of the source: the run translates ["m"] only, and the catalog it
    writes has neither ["m|n"], which [unflatten_dict] replaced with the new
    string, nor ["z"], which [flatten_dict] left out. *)
Lemma merge_frame_counterexample :
  json_file ex_env_dropped (target_path "de")
  = Some (Dict [("de", Dict [("a", Str "Hallo"); ("m", Dict [("n", Str "")]); ("z", Dict [])])])
  /\ dict_get (flatten_dict [("a", Str "Hallo"); ("m", Dict [("n", Str "")]); ("z", Dict [])]
                 "" bar) "m|n" = Some ""%string
  /\ option_map (fun changed => dict_get (remove_en_prefix changed "en|") "m|n")
       (get_keys_to_translate (fun l => l) ex_env_dropped en_json) = Some None
  /\ main stub_chat (fun l => l) ex_env_dropped 0 "de" "German" en_json
     = inl {| written := json_dumps (Dict [("de", Dict [("a", Str "Hallo");
                                                        ("m", Str "[More]")])]);
              events := [Request "More" "German" (inl "[More]");
                         Printed (Translating "m" "More" "German" "[More]")];
              service := 1 |}
  /\ dict_get (flatten_dict [("a", Str "Hallo"); ("m", Str "[More]")] "" bar) "m|n" = None
  /\ dict_get [("a", Str "Hallo"); ("m", Dict [("n", Str "")]); ("z", Dict [])] "z"
     = Some (Dict [])
  /\ dict_get [("a", Str "Hallo"); ("m", Str "[More]")] "z" = None.
Proof. repeat split; reflexivity. Qed.

(** Scenarios D and E of the specification in one run of [main], the set
    of changed keys being iterated in the order added keys, changed keys:
    the provider fails on ["b"], the loop goes on with ["c|d"] and ["e"],
    and ["a"], which changed in the source but is already translated, is
    skipped. *)
Example main_run :
  main stub_chat (fun l => l) ex_env_run 0 "de" "German" en_json
  = inl {| written := json_dumps
                        (Dict [("de", Dict [("a", Str "Hallo"); ("b", Str "Bye");
                                            ("c", Dict [("d", Str "[Day]")]);
                                            ("e", Str "[kept]")])]);
           events := [Request "Bye" "German" (inr "quota");
                      Printed (Error_during_translation "quota");
                      Printed (Translating "b" "Bye" "German" "Bye");
                      Request "Day" "German" (inl "[Day]");
                      Printed (Translating "c|d" "Day" "German" "[Day]");
                      Request "kept" "German" (inl "[kept]");
                      Printed (Translating "e" "kept" "German" "[kept]");
                      Printed (Skipping_re_translation "a")];
           service := 3 |}.
Proof. reflexivity. Qed.

(** A target that holds a string where the source has a mapping: the loop
    asks for the translation of ["a|b"], then [unflatten_dict] raises; the
    request has been sent and the target file is as it was. *)
Example main_raises_after_the_loop :
  main stub_chat (fun l => l) ex_env_script 0 "es" "Spanish" en_json
  = inr {| events_before := [Request "Hello" "Spanish" (inl "[Hello]");
                             Printed (Translating "a|b" "Hello" "Spanish" "[Hello]")];
           service_before := 1;
           target_after := None |}.
Proof. reflexivity. Qed.

(** A target that holds a leaf where the source now has a mapping makes
    [unflatten_dict], and so the run, raise before anything is written. *)
Example unflatten_into_leaf :
  unflatten_dict [("a", "x"); ("a|b", "y")] bar = None.
Proof. reflexivity. Qed.

(** * Further properties of the pipeline *)

(** ** The merge as a union *)

Lemma dict_keys_update (V : Type) (o d : dict V) (k : string) :
  In k (dict_keys (dict_update d o)) <-> In k (dict_keys d) \/ In k (dict_keys o).
Proof.
  revert d. induction o as [|[k' v'] o IH]; intros d.
  - simpl. tauto.
  - rewrite dict_update_cons, IH, dict_keys_set. simpl.
    intuition (subst; auto).
Qed.

(** X8. [target_flat.update(translations)] is a right-biased union: after
    it a key holds the value the translations give it, and the value it had
    when the translations do not have the key. *)
Theorem merge_lookup :
  forall (target_flat translations : dict string) (k : string),
    dict_wf translations ->
    dict_get (dict_update target_flat translations) k
    = match dict_get translations k with
      | Some v => Some v
      | None => dict_get target_flat k
      end.
Proof.
  intros target_flat translations k Hwf.
  destruct (dict_get translations k) as [v|] eqn:E.
  - now apply dict_get_update_in.
  - apply dict_get_update_notin. now apply dict_get_none.
Qed.

Lemma merge_lookup_witness :
  dict_wf [("b", "Bye"); ("e", "[kept]")]
  /\ dict_get (dict_update ex_target_flat [("b", "Bye"); ("e", "[kept]")]) "e"
     = Some "[kept]".
Proof.
  assert (Hwf : dict_wf [("b", "Bye"); ("e", "[kept]")]).
  { unfold dict_wf. simpl.
    repeat (constructor; [simpl; intuition discriminate|]). constructor. }
  split; [exact Hwf|].
  apply (merge_lookup ex_target_flat [("b", "Bye"); ("e", "[kept]")] "e" Hwf).
Defined.

(** ** Unchanged sources *)

(** X7. When the flattened current and previous catalogs hold the same
    value, or none, for every path, nothing is reported as changed: a
    source that was only reordered, or that only gained or lost empty
    mappings, gives no translation work. *)
Theorem detect_changes_unchanged :
  forall (current previous : dict value),
    (forall k, dict_get (flatten_dict current "" bar) k
               = dict_get (flatten_dict previous "" bar) k) ->
    detect_changes current previous = [].
Proof.
  intros current previous Hsame.
  destruct (detect_changes current previous) as [|k l] eqn:E; [reflexivity|].
  assert (Hin : In k (detect_changes current previous)) by (rewrite E; now left).
  apply detect_changes_iff in Hin.
  destruct Hin as (v & Hv & [Hn|(v' & Hv' & Hd)]); rewrite Hsame in Hv; congruence.
Qed.

Lemma detect_changes_unchanged_witness :
  let current := [("en", Dict [("b", Str "Bye"); ("a", Str "Hello"); ("c", Dict [])])] in
  let previous := [("en", Dict [("a", Str "Hello"); ("b", Str "Bye")])] in
  detect_changes current previous = [].
Proof.
  apply (detect_changes_unchanged
           [("en", Dict [("b", Str "Bye"); ("a", Str "Hello"); ("c", Dict [])])]
           [("en", Dict [("a", Str "Hello"); ("b", Str "Bye")])]).
  intros k.
  change (flatten_dict
            [("en", Dict [("b", Str "Bye"); ("a", Str "Hello"); ("c", Dict [])])] "" bar)
    with [("en|b", "Bye"); ("en|a", "Hello")].
  change (flatten_dict [("en", Dict [("a", Str "Hello"); ("b", Str "Bye")])] "" bar)
    with [("en|a", "Hello"); ("en|b", "Bye")].
  cbn [dict_get].
  destruct (String.eqb "en|b" k) eqn:Eb; destruct (String.eqb "en|a" k) eqn:Ea;
    try reflexivity.
  apply String.eqb_eq in Eb, Ea. subst k. discriminate.
Defined.

(** ** The prefix of the source language *)

Lemma prefix_append (p s : string) : String.prefix p (p ++ s) = true.
Proof.
  induction p as [|c p IH]; simpl; [now destruct s|].
  destruct (ascii_dec c c); [exact IH | congruence].
Qed.

Lemma prefix_drop (p s : string) :
  String.prefix p s = true -> s = (p ++ string_drop (String.length p) s)%string.
Proof.
  revert s. induction p as [|c p IH]; intros s H; [reflexivity|].
  destruct s as [|c' s]; simpl in H; [discriminate|].
  destruct (ascii_dec c c') as [<-|]; [|discriminate].
  simpl. f_equal. now apply IH.
Qed.

Lemma string_drop_append (p s : string) : string_drop (String.length p) (p ++ s) = s.
Proof. induction p as [|c p IH]; simpl; [reflexivity | exact IH]. Qed.

Lemma remove_prefix_items (p : string) (d : dict string) (k : string) :
  dict_get (map (fun kv => (string_drop (String.length p) (fst kv), snd kv))
              (filter (fun kv => String.prefix p (fst kv)) d)) k
  = dict_get d (p ++ k).
Proof.
  induction d as [|[k0 v0] d IH]; [reflexivity|].
  simpl. destruct (String.prefix p k0) eqn:Hp.
  - simpl. rewrite IH. apply prefix_drop in Hp.
    destruct (String.eqb_spec (string_drop (String.length p) k0) k) as [E|Hne];
      destruct (String.eqb_spec k0 (p ++ k)) as [E'|Hne']; try reflexivity.
    + exfalso. apply Hne'. rewrite Hp. now rewrite E.
    + exfalso. apply Hne. rewrite E'. apply string_drop_append.
  - rewrite IH. destruct (String.eqb_spec k0 (p ++ k)) as [E|_]; [|reflexivity].
    rewrite E, prefix_append in Hp. discriminate.
Qed.

Lemma remove_prefix_keys (p : string) (d : dict string) :
  dict_wf d ->
  NoDup (map fst (map (fun kv => (string_drop (String.length p) (fst kv), snd kv))
                    (filter (fun kv => String.prefix p (fst kv)) d))).
Proof.
  unfold dict_wf. induction d as [|[k0 v0] d IH]; intros Hwf; [constructor|].
  simpl in Hwf. inversion Hwf as [|? ? Hk Hnd]; subst.
  simpl. destruct (String.prefix p k0) eqn:Hp; [|now apply IH].
  simpl. constructor; [|now apply IH].
  intros Hin. apply in_map_iff in Hin. destruct Hin as ([r v] & Er & Hin).
  apply in_map_iff in Hin. destruct Hin as ([k1 v1] & [= <- <-] & Hin).
  apply filter_In in Hin. destruct Hin as [Hin Hp1]. simpl in Er, Hp1.
  apply Hk. apply prefix_drop in Hp. apply prefix_drop in Hp1.
  assert (E : k1 = k0) by (rewrite Hp, Hp1; now rewrite Er).
  subst k1. change k0 with (fst (k0, v1)). now apply in_map.
Qed.

(** X5. [remove_en_prefix] keeps the keys that start with the prefix, named
    by what follows the prefix: the result holds for a key what the
    dictionary holds for the prefix followed by the key, and so nothing for
    the keys of the dictionary that do not start with the prefix. *)
Theorem remove_en_prefix_lookup :
  forall (dictionary : dict string) (prefix k : string),
    dict_wf dictionary ->
    dict_get (remove_en_prefix dictionary prefix) k
    = dict_get dictionary (prefix ++ k).
Proof.
  intros dictionary prefix k Hwf. unfold remove_en_prefix.
  rewrite dict_of_items_id by now apply remove_prefix_keys.
  apply remove_prefix_items.
Qed.

Lemma remove_en_prefix_lookup_witness :
  dict_wf [("en|a", "Hello"); ("meta", "x"); ("en|b|c", "Bye")]
  /\ dict_get (remove_en_prefix [("en|a", "Hello"); ("meta", "x"); ("en|b|c", "Bye")] "en|")
       "b|c"
     = dict_get [("en|a", "Hello"); ("meta", "x"); ("en|b|c", "Bye")] ("en|" ++ "b|c").
Proof.
  assert (Hwf : dict_wf [("en|a", "Hello"); ("meta", "x"); ("en|b|c", "Bye")]).
  { unfold dict_wf. simpl.
    repeat (constructor; [simpl; intuition discriminate|]). constructor. }
  split; [exact Hwf|].
  apply (remove_en_prefix_lookup _ "en|" "b|c" Hwf).
Defined.

(** ** The keys to translate *)

(** X6. When the current document and the previous snapshot are both
    mappings, [get_keys_to_translate] returns: no lookup of a changed key in
    the flattened current catalog raises.  The dictionary it returns holds,
    for each path reported by [detect_changes], the current value at that
    path, and nothing else, in whatever order the set of changed paths is
    iterated. *)
Theorem get_keys_to_translate_spec :
  forall (set_iter : list string -> list string) (env : environment)
         (file_path : string) (current previous : dict value),
    (forall l k, In k (set_iter l) <-> In k l) ->
    load_en_dict env file_path = Some (Dict current) ->
    load_en_changes_from_last_commits env file_path = Some (Dict previous) ->
    exists to_translate,
      get_keys_to_translate set_iter env file_path = Some to_translate
      /\ dict_wf to_translate
      /\ forall k v,
           dict_get to_translate k = Some v
           <-> In k (detect_changes current previous)
               /\ dict_get (flatten_dict current "" bar) k = Some v.
Proof.
  intros set_iter env file_path current previous Hiter Hcur Hprev.
  unfold get_keys_to_translate. rewrite Hcur, Hprev. cbn [items_of].
  set (en_flat := flatten_dict current "" bar).
  set (changes := detect_changes current previous).
  destruct (option_traverse_lookup en_flat (set_iter changes))
    as (items & E & Hkeys & Hitems).
  { intros k Hk. apply (proj1 (Hiter _ _)) in Hk.
    apply detect_changes_iff in Hk. destruct Hk as (v & Hv & _).
    unfold dict_in. fold en_flat in Hv. now rewrite Hv. }
  cbv zeta. fold en_flat. fold changes. rewrite E. simpl option_map.
  exists (dict_of_items items). split; [reflexivity|].
  split; [apply dict_of_items_wf|].
  intros k v. unfold dict_of_items.
  destruct (in_dec string_dec k changes) as [Hin|Hnin].
  - rewrite (dict_get_update_from en_flat items Hitems);
      [|rewrite Hkeys; now apply (proj2 (Hiter _ _))].
    tauto.
  - rewrite dict_get_update_notin
      by (rewrite Hkeys; intros H; apply (proj1 (Hiter _ _)) in H; contradiction).
    simpl. split; [discriminate | tauto].
Qed.

Lemma get_keys_to_translate_spec_witness :
  exists to_translate,
    get_keys_to_translate (fun l => l) ex_env_run en_json = Some to_translate
    /\ dict_wf to_translate
    /\ forall k v,
         dict_get to_translate k = Some v
         <-> In k (detect_changes
                     [("en", Dict [("a", Str "Hello"); ("b", Str "Bye");
                                   ("c", Dict [("d", Str "Day")]); ("e", Str "kept")])]
                     [("en", Dict [("a", Str "Hi")])])
             /\ dict_get (flatten_dict
                            [("en", Dict [("a", Str "Hello"); ("b", Str "Bye");
                                          ("c", Dict [("d", Str "Day")]); ("e", Str "kept")])]
                            "" bar) k = Some v.
Proof.
  apply (get_keys_to_translate_spec (fun l => l) ex_env_run en_json
           [("en", Dict [("a", Str "Hello"); ("b", Str "Bye");
                         ("c", Dict [("d", Str "Day")]); ("e", Str "kept")])]
           [("en", Dict [("a", Str "Hi")])]);
    [tauto | reflexivity | reflexivity].
Defined.

(** ** What the loop requests and records *)

Section LoopWork.
Variable World : Type.
Variable chat : string -> string -> World -> (string + string) * World.
Variable target_flat : dict string.
Variable target_language : string.

Let body := main_loop_body chat target_flat target_language.
Let loop (l : dict string) (st : run World) : run World := fold_left body l st.

Let not_skipped (kv : string * string) : bool :=
  negb (already_translated target_flat (fst kv)).

Lemma requests_of_app (t1 t2 : list event) :
  requests_of (t1 ++ t2) = requests_of t1 ++ requests_of t2.
Proof. unfold requests_of. apply flat_map_app. Qed.

Lemma translate_text_requests text w new emitted w' :
  translate_text chat text target_language w = (new, emitted, w') ->
  requests_of emitted = [(text, target_language)]
  /\ new = translation_of text (fst (chat text target_language w)).
Proof.
  unfold translate_text.
  destruct (chat text target_language w) as [[content|e] w1];
    intros [= <- <- <-]; split; reflexivity.
Qed.

Lemma loop_requests l st :
  requests_of (trace (loop l st))
  = requests_of (trace st)
    ++ map (fun kv => (snd kv, target_language)) (filter not_skipped l).
Proof.
  revert st. induction l as [|[k v] l IH]; intros st.
  - simpl. now rewrite app_nil_r.
  - change (loop ((k, v) :: l) st) with (loop l (body st (k, v))).
    rewrite IH. unfold not_skipped at 2. simpl filter.
    destruct (body_cases World chat target_flat target_language st k v)
      as [[Hk E]|[Hk (new & em & w' & T & E)]]; fold body in E; rewrite E, Hk; simpl.
    + rewrite requests_of_app. simpl. now rewrite app_nil_r.
    + rewrite !requests_of_app.
      destruct (translate_text_requests _ _ _ _ _ T) as [-> _].
      simpl. now rewrite <- !app_assoc.
Qed.

Lemma loop_keys l st k :
  In k (dict_keys (translated_flat_dict (loop l st)))
  <-> In k (dict_keys (translated_flat_dict st))
      \/ (In k (dict_keys l) /\ already_translated target_flat k = false).
Proof.
  revert st. induction l as [|[k0 v0] l IH]; intros st.
  - simpl. tauto.
  - change (loop ((k0, v0) :: l) st) with (loop l (body st (k0, v0))).
    rewrite IH. simpl.
    destruct (body_cases World chat target_flat target_language st k0 v0)
      as [[Hk E]|[Hk (new & em & w' & T & E)]]; fold body in E; rewrite E; simpl.
    + split; [tauto|]. intros [H|[[->|H] Hn]]; [tauto | congruence | tauto].
    + rewrite dict_keys_set.
      split; [intros [[->|H]|[H Hn]]; tauto|].
      intros [H|[[->|H] Hn]]; tauto.
Qed.

(** What the loop records for a key depends on the state of the service
    only through the answer to the request for its source text. *)
Lemma loop_lookup (w0 : World) :
  (forall text w w', fst (chat text target_language w)
                     = fst (chat text target_language w')) ->
  forall l st k,
    dict_wf l ->
    dict_get (translated_flat_dict (loop l st)) k
    = match dict_get l k with
      | Some v =>
          if already_translated target_flat k
          then dict_get (translated_flat_dict st) k
          else Some (translation_of v (fst (chat v target_language w0)))
      | None => dict_get (translated_flat_dict st) k
      end.
Proof.
  intros Hchat. unfold dict_wf.
  induction l as [|[k0 v0] l IH]; intros st k Hwf; [reflexivity|].
  simpl in Hwf. inversion Hwf as [|? ? Hk0 Hnd]; subst.
  change (loop ((k0, v0) :: l) st) with (loop l (body st (k0, v0))).
  rewrite (IH _ _ Hnd). simpl dict_get.
  destruct (String.eqb_spec k0 k) as [<-|Hne].
  - assert (E0 : dict_get l k0 = None) by now apply dict_get_none.
    rewrite E0.
    destruct (body_cases World chat target_flat target_language st k0 v0)
      as [[Hk E]|[Hk (new & em & w' & T & E)]]; fold body in E; rewrite E, Hk; simpl.
    + reflexivity.
    + rewrite dict_get_set_eq.
      destruct (translate_text_requests _ _ _ _ _ T) as [_ ->].
      now rewrite (Hchat v0 (world st) w0).
  - assert (E1 : dict_get (translated_flat_dict (body st (k0, v0))) k
                 = dict_get (translated_flat_dict st) k).
    { destruct (body_cases World chat target_flat target_language st k0 v0)
        as [[Hk E]|[Hk (new & em & w' & T & E)]]; fold body in E; rewrite E; simpl.
      - reflexivity.
      - now apply dict_get_set_ne. }
    now rewrite E1.
Qed.

Lemma loop_all_skipped l st :
  (forall k, In k (dict_keys l) -> already_translated target_flat k = true) ->
  loop l st
  = {| translated_flat_dict := translated_flat_dict st;
       trace := trace st ++ map (fun kv => Printed (Skipping_re_translation (fst kv))) l;
       world := world st |}.
Proof.
  revert st. induction l as [|[k v] l IH]; intros st Hl.
  - simpl. rewrite app_nil_r. now destruct st.
  - change (loop ((k, v) :: l) st) with (loop l (body st (k, v))).
    rewrite IH by (intros k' Hk'; apply Hl; now right).
    unfold body at 1 2 3. rewrite body_skip by (apply Hl; now left).
    simpl. now rewrite <- app_assoc.
Qed.
End LoopWork.

(** X10. The loop sends one request for each key to translate that the
    target does not already translate, in the order of the keys, each for
    the source text of the key and the target language, and no other
    request. *)
Theorem loop_requests_exact :
  forall (World : Type) (chat : string -> string -> World -> (string + string) * World)
         (target_flat to_translate : dict string) (target_language : string) (w : World),
    requests_of (trace (main_loop chat target_flat target_language to_translate w))
    = map (fun kv => (snd kv, target_language))
        (filter (fun kv => negb (already_translated target_flat (fst kv))) to_translate).
Proof.
  intros World chat target_flat to_translate target_language w.
  rewrite main_loop_is_loop. now rewrite loop_requests.
Qed.

(** X9. After the merge the flattened target has the keys it had and the
    keys to translate, and no other key. *)
Theorem merged_keys :
  forall (World : Type) (chat : string -> string -> World -> (string + string) * World)
         (target_flat to_translate : dict string) (target_language : string)
         (w : World) (k : string),
    let st := main_loop chat target_flat target_language to_translate w in
    dict_in k (dict_update target_flat (translated_flat_dict st)) = true
    <-> dict_in k target_flat = true \/ dict_in k to_translate = true.
Proof.
  intros World chat target_flat to_translate target_language w k st.
  rewrite !dict_in_keys, dict_keys_update. unfold st.
  rewrite main_loop_is_loop, loop_keys. simpl.
  split; [tauto|]. intros [H|H]; [tauto|].
  destruct (already_translated target_flat k) eqn:E; [|tauto].
  left. apply already_translated_true in E. destruct E as (s & Hs & _).
  eapply dict_get_some_key; eassumption.
Qed.

(** X11. With a service whose answer depends only on the text and the
    language, the merged flat catalog does not depend on the order in which
    the keys to translate are iterated, nor on the state the service starts
    in: two dictionaries of keys to translate with the same content give the
    same value to every key after the merge. *)
Theorem merge_order_independent :
  forall (World : Type) (chat : string -> string -> World -> (string + string) * World)
         (target_flat to_translate_1 to_translate_2 : dict string)
         (target_language : string) (w1 w2 : World) (k : string),
    (forall text w w', fst (chat text target_language w)
                       = fst (chat text target_language w')) ->
    dict_wf to_translate_1 ->
    dict_wf to_translate_2 ->
    (forall k', dict_get to_translate_1 k' = dict_get to_translate_2 k') ->
    dict_get
      (dict_update target_flat
         (translated_flat_dict
            (main_loop chat target_flat target_language to_translate_1 w1))) k
    = dict_get
        (dict_update target_flat
           (translated_flat_dict
              (main_loop chat target_flat target_language to_translate_2 w2))) k.
Proof.
  intros World chat target_flat l1 l2 target_language w1 w2 k Hchat Hwf1 Hwf2 Hsame.
  assert (Hwf : forall l w,
             dict_wf (translated_flat_dict
                        (main_loop chat target_flat target_language l w))).
  { intros l w. rewrite main_loop_is_loop. apply loop_wf. constructor. }
  assert (Hdet : forall l w,
             dict_get (dict_update target_flat
                         (translated_flat_dict
                            (main_loop chat target_flat target_language l w))) k
             = match dict_get (translated_flat_dict
                                 (main_loop chat target_flat target_language l w)) k with
               | Some v => Some v
               | None => dict_get target_flat k
               end).
  { intros l w. destruct (dict_get (translated_flat_dict _) k) as [v|] eqn:E.
    - now apply dict_get_update_in.
    - apply dict_get_update_notin. now apply dict_get_none. }
  rewrite !Hdet, !main_loop_is_loop.
  rewrite (loop_lookup World chat target_flat target_language w1 Hchat l1 _ k Hwf1).
  rewrite (loop_lookup World chat target_flat target_language w1 Hchat l2 _ k Hwf2).
  now rewrite Hsame.
Qed.

Lemma merge_order_independent_witness :
  let chat := fun (text tl : string) (w : nat) =>
                (@inl string string ("[" ++ text ++ "]")%string, S w) in
  dict_get
    (dict_update ex_target_flat
       (translated_flat_dict
          (main_loop chat ex_target_flat "German" [("b", "Bye"); ("e", "kept")] 0))) "e"
  = dict_get
      (dict_update ex_target_flat
         (translated_flat_dict
            (main_loop chat ex_target_flat "German" [("e", "kept"); ("b", "Bye")] 7))) "e".
Proof.
  assert (Hwf1 : dict_wf [("b", "Bye"); ("e", "kept")]).
  { unfold dict_wf. simpl.
    repeat (constructor; [simpl; intuition discriminate|]). constructor. }
  assert (Hwf2 : dict_wf [("e", "kept"); ("b", "Bye")]).
  { unfold dict_wf. simpl.
    repeat (constructor; [simpl; intuition discriminate|]). constructor. }
  apply (merge_order_independent nat
           (fun (text tl : string) (w : nat) =>
              (@inl string string ("[" ++ text ++ "]")%string, S w))
           ex_target_flat [("b", "Bye"); ("e", "kept")] [("e", "kept"); ("b", "Bye")]
           "German" 0 7 "e"); [reflexivity | exact Hwf1 | exact Hwf2 |].
  intros k'. cbn [dict_get].
  destruct (String.eqb "b" k') eqn:Eb; destruct (String.eqb "e" k') eqn:Ee;
    try reflexivity.
  apply String.eqb_eq in Eb, Ee. subst k'. discriminate.
Defined.

(** ** More on the path codec *)

Section CodecMore.
Variable sep : ascii.

Lemma unflatten_snoc (flat : dict string) (k v : string) :
  unflatten_dict (flat ++ [(k, v)]) sep
  = unflatten_step sep (unflatten_dict flat sep) (k, v).
Proof. unfold unflatten_dict. now rewrite fold_left_app. Qed.

Lemma set_path_raises (p : list string) :
  forall cur s,
    p <> [] -> set_path cur p s = None ->
    exists q, is_prefix q p = true /\ q <> p /\ leaf_at (Dict cur) q <> None.
Proof.
  induction p as [|k p IH]; intros cur s Hp H; [congruence|].
  destruct p as [|k2 p]; [discriminate|].
  rewrite set_path_cons in H by discriminate.
  destruct (dict_get cur k) as [[x|sub]|] eqn:Hget.
  - exists [k]. split; [|split].
    + simpl. now rewrite String.eqb_refl.
    + discriminate.
    + rewrite leaf_at_dict_cons, Hget. discriminate.
  - destruct (set_path sub (k2 :: p) s) eqn:E; [discriminate|].
    destruct (IH sub s ltac:(discriminate) E) as (q & Hq & Hne & Hleaf).
    exists (k :: q). split; [|split].
    + simpl is_prefix. now rewrite String.eqb_refl.
    + congruence.
    + now rewrite leaf_at_dict_cons, Hget.
  - destruct (set_path [] (k2 :: p) s) eqn:E; [discriminate|].
    destruct (IH [] s ltac:(discriminate) E) as (q & _ & _ & Hleaf).
    now rewrite leaf_at_empty in Hleaf.
Qed.

Lemma set_path_through_leaf (p : list string) :
  forall cur s q,
    is_prefix q p = true -> q <> p -> leaf_at (Dict cur) q <> None ->
    set_path cur p s = None.
Proof.
  induction p as [|k p IH]; intros cur s q Hq Hne Hleaf.
  - destruct q; [congruence | discriminate].
  - destruct q as [|k' q]; [now simpl in Hleaf|].
    simpl in Hq. apply andb_true_iff in Hq. destruct Hq as [Hk Hq].
    apply String.eqb_eq in Hk. subst k'.
    assert (Hp : p <> []) by (intros ->; destruct q; [congruence | discriminate]).
    rewrite set_path_cons by assumption.
    rewrite leaf_at_dict_cons in Hleaf.
    destruct (dict_get cur k) as [[x|sub]|]; [reflexivity| |congruence].
    rewrite (IH sub s q Hq); [reflexivity | congruence | exact Hleaf].
Qed.

Lemma unflatten_keys_ok (flat : dict string) :
  forall r0 r,
    unique_keys (Dict r0) = true -> sep_free sep (Dict r0) = true ->
    fold_left (unflatten_step sep) flat (Some r0) = Some r ->
    unique_keys (Dict r) = true /\ sep_free sep (Dict r) = true.
Proof.
  induction flat as [|[k s] flat IH]; intros r0 r Hu Hs.
  - intros [= <-]. now split.
  - simpl fold_left.
    destruct (set_path r0 (split k sep) s) as [r1|] eqn:E.
    + apply IH.
      * eapply set_path_unique_keys; eassumption.
      * eapply set_path_sep_free; [apply split_sep_free | |]; eassumption.
    + assert (Hnone : forall l, fold_left (unflatten_step sep) l None = None)
        by (induction l; [reflexivity | assumption]).
      now rewrite Hnone.
Qed.
End CodecMore.

(** X1. On a catalog with distinct keys in every mapping, no separator in
    a key and no mapping under an empty root key, looking a key up in the
    flattened catalog is following the split key down the catalog to a
    leaf: the flattened catalog holds exactly the leaves, each under its
    joined path. *)
Theorem flatten_lookup :
  forall (sep : ascii) (C : dict value) (k : string),
    unique_keys (Dict C) = true ->
    sep_free sep (Dict C) = true ->
    root_ok C = true ->
    dict_get (flatten_dict C "" sep) k = leaf_at (Dict C) (split k sep).
Proof.
  intros sep C k Hu Hs Hroot. apply flatten_leaf_at. now repeat split.
Qed.

Lemma flatten_lookup_witness :
  unique_keys (Dict ex_catalog) = true
  /\ sep_free bar (Dict ex_catalog) = true
  /\ root_ok ex_catalog = true
  /\ dict_get (flatten_dict ex_catalog "" bar) "en|b|c"
     = leaf_at (Dict ex_catalog) (split "en|b|c" bar).
Proof.
  repeat (split; [reflexivity|]).
  apply (flatten_lookup bar ex_catalog "en|b|c"); reflexivity.
Defined.

(** X2. A flat catalog in which no key runs through another key and no key
    starts with the separator is unflattened without an exception, and
    flattening the result gives every key its value back and no other
    key. *)
Theorem flat_catalog_round_trip :
  forall (sep : ascii) (flat : dict string),
    dict_wf flat ->
    collision_free flat sep = true ->
    exists r,
      unflatten_dict flat sep = Some r
      /\ forall k, dict_get (flatten_dict r "" sep) k = dict_get flat k.
Proof.
  intros sep flat Hwf Hfree.
  destruct (flat_round_trip sep flat Hwf Hfree) as (r & Hr & _ & Hget).
  now exists r.
Qed.

Lemma flat_catalog_round_trip_witness :
  dict_wf [("a|x", "1"); ("b", "2"); ("a|y", "3")]
  /\ collision_free [("a|x", "1"); ("b", "2"); ("a|y", "3")] bar = true
  /\ exists r,
       unflatten_dict [("a|x", "1"); ("b", "2"); ("a|y", "3")] bar = Some r
       /\ forall k, dict_get (flatten_dict r "" bar) k
                    = dict_get [("a|x", "1"); ("b", "2"); ("a|y", "3")] k.
Proof.
  assert (Hwf : dict_wf [("a|x", "1"); ("b", "2"); ("a|y", "3")]).
  { unfold dict_wf. simpl.
    repeat (constructor; [simpl; intuition discriminate|]). constructor. }
  split; [exact Hwf|]. split; [reflexivity|].
  apply (flat_catalog_round_trip bar _ Hwf). reflexivity.
Defined.

(** X3. Once the keys before it have been unflattened into a catalog,
    [unflatten_dict] raises on the next key exactly when the path of the key
    goes through a leaf of that catalog: some proper prefix of the split key
    leads to a leaf. *)
Theorem unflatten_raises_iff :
  forall (sep : ascii) (flat : dict string) (k v : string) (r : dict value),
    unflatten_dict flat sep = Some r ->
    (unflatten_dict (flat ++ [(k, v)]) sep = None
     <-> exists q, is_prefix q (split k sep) = true
                   /\ q <> split k sep
                   /\ leaf_at (Dict r) q <> None).
Proof.
  intros sep flat k v r Hr.
  rewrite unflatten_snoc, Hr. simpl. split.
  - apply set_path_raises. apply split_nonempty.
  - intros (q & Hq & Hne & Hleaf). now apply (set_path_through_leaf _ r v q).
Qed.

Lemma unflatten_raises_iff_witness :
  unflatten_dict [("a", "x")] bar = Some [("a", Str "x")]
  /\ (unflatten_dict ([("a", "x")] ++ [("a|b", "y")]) bar = None
      <-> exists q, is_prefix q (split "a|b" bar) = true
                    /\ q <> split "a|b" bar
                    /\ leaf_at (Dict [("a", Str "x")]) q <> None).
Proof.
  split; [reflexivity|].
  apply (unflatten_raises_iff bar [("a", "x")] "a|b" "y" [("a", Str "x")]).
  reflexivity.
Defined.

(** X4. Whatever [unflatten_dict] returns is a catalog with distinct keys
    in every mapping and no separator in any key; and the key unflattened
    last is a leaf of it, with its value, whatever the keys before it
    were. *)
Theorem unflatten_result :
  forall (sep : ascii),
    (forall (flat : dict string) (r : dict value),
        unflatten_dict flat sep = Some r ->
        unique_keys (Dict r) = true /\ sep_free sep (Dict r) = true)
    /\ (forall (flat : dict string) (k v : string) (r : dict value),
           unflatten_dict (flat ++ [(k, v)]) sep = Some r ->
           leaf_at (Dict r) (split k sep) = Some v).
Proof.
  intros sep. split.
  - intros flat r Hr. apply (unflatten_keys_ok sep flat [] r); [reflexivity..|exact Hr].
  - intros flat k v r Hr. rewrite unflatten_snoc in Hr.
    destruct (unflatten_dict flat sep) as [r0|]; [|discriminate].
    simpl in Hr. now destruct (set_path_leaf_at _ _ _ _ Hr).
Qed.

Lemma unflatten_result_witness :
  unflatten_dict ([("a|b", "x")] ++ [("a", "y")]) bar = Some [("a", Str "y")]
  /\ leaf_at (Dict [("a", Str "y")]) (split "a" bar) = Some "y"
  /\ unique_keys (Dict [("a", Str "y")]) = true.
Proof.
  split; [reflexivity|].
  destruct (unflatten_result bar) as [H1 H2].
  split.
  - apply (H2 [("a|b", "x")] "a" "y" [("a", Str "y")]). reflexivity.
  - apply (H1 ([("a|b", "x")] ++ [("a", "y")]) [("a", Str "y")]). reflexivity.
Defined.

(** ** Runs of [main] *)

Lemma main_loop_all_skipped (World : Type)
  (chat : string -> string -> World -> (string + string) * World)
  (target_flat to_translate : dict string) (target_language : string) (w : World) :
  (forall k, In k (dict_keys to_translate) -> already_translated target_flat k = true) ->
  main_loop chat target_flat target_language to_translate w
  = {| translated_flat_dict := [];
       trace := map (fun kv => Printed (Skipping_re_translation (fst kv))) to_translate;
       world := w |}.
Proof.
  intros H. rewrite main_loop_is_loop.
  now rewrite (loop_all_skipped World chat target_flat target_language to_translate _ H).
Qed.

(** X13. Take a target catalog with distinct keys in every mapping, no
    separator in a key and no mapping under an empty root key.  A run in
    which every key to translate is already translated in the target, in
    particular a run with nothing to translate, sends no request and leaves
    the service as it is; it prints one [Skipping] line per key and writes
    the target catalog it read, less its subtrees without a leaf, back to
    the target file: it returns when the text is written, and raises when
    opening the file or dumping into it raises, the file being truncated in
    the second case. *)
Theorem main_nothing_to_translate :
  forall (World : Type) (chat : string -> string -> World -> (string + string) * World)
         (set_iter : list string -> list string) (env : environment) (w : World)
         (language_code target_language input_file : string)
         (root target : dict value) (changed : dict string),
    json_file env (target_path language_code) = Some (Dict root) ->
    dict_get root language_code = Some (Dict target) ->
    get_keys_to_translate set_iter env input_file = Some changed ->
    unique_keys (Dict target) = true ->
    sep_free bar (Dict target) = true ->
    root_ok target = true ->
    (forall k, In k (dict_keys (remove_en_prefix changed "en|")) ->
               already_translated (flatten_dict target "" bar) k = true) ->
    let text := json_dumps (Dict [(language_code, Dict (prune_dict target))]) in
    let skipped := map (fun kv => Printed (Skipping_re_translation (fst kv)))
                     (remove_en_prefix changed "en|") in
    main chat set_iter env w language_code target_language input_file
    = match write env (target_path language_code) text with
      | Written => inl {| written := text; events := skipped; service := w |}
      | Open_raises =>
          inr {| events_before := skipped; service_before := w; target_after := None |}
      | Dump_raises partial =>
          inr {| events_before := skipped; service_before := w;
                 target_after := Some partial |}
      end.
Proof.
  intros World chat set_iter env w language_code target_language input_file
         root target changed Hfile Hroot Hkeys Hu Hs Hok Hall text skipped.
  rewrite (main_after_loop World chat set_iter env w language_code target_language
             input_file root target changed Hfile Hroot Hkeys).
  rewrite (main_loop_all_skipped World chat _ _ target_language w Hall).
  cbn [translated_flat_dict trace world].
  change (dict_update (flatten_dict target "" bar) []) with (flatten_dict target "" bar).
  now rewrite (round_trip_prune bar target Hu Hs Hok).
Qed.

Lemma main_nothing_to_translate_witness :
  main stub_chat (fun l => l) ex_env_skipped 0 "de" "German" en_json
  = inl {| written := json_dumps (Dict [("de", Dict [("a", Str "Hallo")])]);
           events := [Printed (Skipping_re_translation "a")];
           service := 0 |}.
Proof.
  apply (main_nothing_to_translate nat stub_chat (fun l => l) ex_env_skipped
           0 "de" "German" en_json
           [("de", Dict [("a", Str "Hallo"); ("z", Dict [])])]
           [("a", Str "Hallo"); ("z", Dict [])]
           [("en|a", "Hello")]);
    try reflexivity.
  intros k [<-|[]]. reflexivity.
Defined.

(** ** The script *)

Lemma string_length_append (a b : string) :
  String.length (a ++ b) = String.length a + String.length b.
Proof. induction a as [|c a IH]; simpl; [reflexivity | now rewrite IH]. Qed.

Lemma append_cancel_r (c : string) :
  forall a b : string, (a ++ c)%string = (b ++ c)%string -> a = b.
Proof.
  induction a as [|x a IH]; intros [|y b] H; simpl in H.
  - reflexivity.
  - exfalso. apply (f_equal String.length) in H. simpl in H.
    rewrite string_length_append in H. lia.
  - exfalso. apply (f_equal String.length) in H. simpl in H.
    rewrite string_length_append in H. lia.
  - injection H as -> H. f_equal. now apply IH.
Qed.

Lemma target_path_inj (a b : string) : target_path a = target_path b -> a = b.
Proof.
  unfold target_path. intros H.
  apply append_cancel_l in H. now apply append_cancel_r in H.
Qed.


(** A run of [main] reads the repository, the target file and the input
    file, writes the target file, and touches nothing else. *)
Lemma main_env_ext (World : Type)
  (chat : string -> string -> World -> (string + string) * World)
  (set_iter : list string -> list string) (env1 env2 : environment) (w : World)
  (language_code target_language input_file : string) :
  repo env1 = repo env2 ->
  json_file env1 (target_path language_code) = json_file env2 (target_path language_code) ->
  json_file env1 input_file = json_file env2 input_file ->
  write env1 (target_path language_code) = write env2 (target_path language_code) ->
  main chat set_iter env1 w language_code target_language input_file
  = main chat set_iter env2 w language_code target_language input_file.
Proof.
  intros Hrepo Htarget Hinput Hwrite.
  unfold main, get_keys_to_translate, load_en_dict, load_en_changes_from_last_commits.
  now rewrite Hrepo, Htarget, Hinput, Hwrite.
Qed.

Section ScriptFacts.
Variable World : Type.
Variable chat : string -> string -> World -> (string + string) * World.
Variable set_iter : list string -> list string.
Variable json_loads : string -> option value.

Let run_script := run_languages chat set_iter json_loads.

Lemma run_languages_agree (env0 : environment) (ls : list (string * string)) :
  NoDup (map fst ls) ->
  ~ In "en" (map fst ls) ->
  forall env w,
    repo env = repo env0 ->
    write env = write env0 ->
    json_file env default_input_file = json_file env0 default_input_file ->
    (forall lc, In lc (map fst ls) ->
                json_file env (target_path lc) = json_file env0 (target_path lc)) ->
    (outcomes (run_script env w ls), raised (run_script env w ls))
    = run_on_initial_files chat set_iter env0 w ls.
Proof.
  induction ls as [|[lc tl] ls IH]; intros Hnd Hen env w Hrepo Hwrite Hinput Htargets;
    [reflexivity|].
  simpl in Hnd, Hen. inversion Hnd as [|? ? Hlc Hnd']; subst.
  unfold run_script. simpl.
  rewrite (main_env_ext World chat set_iter env env0 w lc tl default_input_file
             Hrepo (Htargets lc (or_introl eq_refl)) Hinput
             (f_equal (fun f => f (target_path lc)) Hwrite)).
  destruct (main chat set_iter env0 w lc tl default_input_file) as [out|f];
    [|reflexivity].
  unfold raised. simpl. fold run_script.
  change (match failed_call (run_script (write_file json_loads env (target_path lc)
                                           (written out)) (service out) ls) with
          | Some _ => true
          | None => false
          end)
    with (raised (run_script (write_file json_loads env (target_path lc) (written out))
                    (service out) ls)).
  rewrite <- (IH Hnd' ltac:(tauto)
                (write_file json_loads env (target_path lc) (written out)) (service out)).
  - reflexivity.
  - exact Hrepo.
  - exact Hwrite.
  - unfold write_file. cbn [json_file].
    destruct (String.eqb_spec default_input_file (target_path lc)) as [E|_];
      [|exact Hinput].
    exfalso. apply Hen. left. symmetry.
    change default_input_file with (target_path "en") in E.
    now apply target_path_inj.
  - intros lc' Hin. unfold write_file. cbn [json_file].
    destruct (String.eqb_spec (target_path lc') (target_path lc)) as [E|_].
    + apply target_path_inj in E. subst lc'. contradiction.
    + apply Htargets. now right.
Qed.



End ScriptFacts.

(** X14. The runs of the script do not interfere through the files: with
    distinct language codes, none of them the code of the source language,
    each call of [main] returns what it would return on the files as they
    were before the script, given the state in which the previous call left
    the service; and the script raises at the same call. *)
Theorem script_runs_independent :
  forall (World : Type) (chat : string -> string -> World -> (string + string) * World)
         (set_iter : list string -> list string) (json_loads : string -> option value)
         (env : environment) (w : World) (ls : list (string * string)),
    NoDup (map fst ls) ->
    ~ In "en" (map fst ls) ->
    (outcomes (run_languages chat set_iter json_loads env w ls),
     raised (run_languages chat set_iter json_loads env w ls))
    = run_on_initial_files chat set_iter env w ls.
Proof.
  intros World chat set_iter json_loads env w ls Hnd Hen.
  now apply run_languages_agree.
Qed.

Lemma script_runs_independent_witness :
  NoDup (map fst languages)
  /\ ~ In "en" (map fst languages)
  /\ (outcomes (run_languages stub_chat (fun l => l) (fun _ => None) ex_env_run 0 languages),
      raised (run_languages stub_chat (fun l => l) (fun _ => None) ex_env_run 0 languages))
     = run_on_initial_files stub_chat (fun l => l) ex_env_run 0 languages.
Proof.
  assert (Hnd : NoDup (map fst languages)).
  { simpl. repeat (constructor; [simpl; intuition discriminate|]). constructor. }
  assert (Hen : ~ In "en" (map fst languages)).
  { simpl. intuition discriminate. }
  split; [exact Hnd|]. split; [exact Hen|].
  apply (script_runs_independent nat stub_chat (fun l => l) (fun _ => None)
           ex_env_run 0 languages Hnd Hen).
Defined.


